(** * Step-target itinerary optimizer: a shallow embedding of [custom_step.py]

    The Python program is embedded function by function.  Numbers of type
    [float] are IEEE 754 binary64 values (Rocq's primitive floats), Python
    integers are [Z], decoded JSON payloads are the inductive type [value],
    and Python exceptions are results of the sum type [Res].  Functions that
    print are writers over a list of [event]s; functions that call the
    journey-planning service or mutate the caller's lists run in a state
    monad over [state]. *)

From Stdlib Require Import ZArith List String Ascii Bool Lia Floats Reals Lra.
From stdpp Require Import gmap strings list sorting.

Set Warnings "-inexact-float,-register-all".
Local Open Scope Z_scope.

(** ** Exceptions and results *)

(** The exception classes the program can meet, all of them subclasses of
    [Exception]: the errors of the interpreter and of the runtime library,
    the errors of the HTTP client ([requests.RequestException]) and any
    other one ([OtherException], by class name).  [KeyboardInterrupt] and
    [SystemExit], which derive from [BaseException] only and come from the
    user or the operating system, are outside the model. *)
Inductive exn : Type :=
| KeyError (key : string)
| IndexError
| TypeError
| AttributeError
| ValueError
| OverflowError
| ZeroDivisionError
| RequestException (msg : string)
| OtherException (cls : string).

(** The classes a handler [except Exception] catches. *)
Definition is_Exception (e : exn) : bool := true.

Definition is_RequestException (e : exn) : bool :=
  match e with
  | RequestException _ => true
  | _ => false
  end.

Inductive Res (A : Type) : Type :=
| Ok (a : A)
| Raise (e : exn).
Arguments Ok {A} a.
Arguments Raise {A} e.

#[global] Instance Res_ret : MRet Res := fun A a => Ok a.
#[global] Instance Res_bind : MBind Res := fun A B k r =>
  match r with
  | Ok a => k a
  | Raise e => Raise e
  end.

Definition is_Ok {A} (r : Res A) : bool :=
  match r with
  | Ok _ => true
  | Raise _ => false
  end.

(** ** Decoded JSON payloads *)

(** A dictionary keeps its items in insertion order, as Python's [dict]
    does; a lookup returns the first item stored under the key. *)
Inductive value : Type :=
| VNone
| VBool (b : bool)
| VInt (z : Z)
| VFloat (f : float)
| VStr (s : string)
| VList (l : list value)
| VDict (d : list (string * value)).

Fixpoint dict_lookup (k : string) (d : list (string * value)) : option value :=
  match d with
  | [] => None
  | (k', v) :: d' => if String.eqb k k' then Some v else dict_lookup k d'
  end.

(** [bool(v)]: the truth value Python gives to [v] in [not v] and [if v]. *)
Definition truthy (v : value) : bool :=
  match v with
  | VNone => false
  | VBool b => b
  | VInt z => negb (z =? 0)
  | VFloat f => negb (PrimFloat.eqb f 0%float)
  | VStr s => negb (String.eqb s "")
  | VList l => match l with [] => false | _ => true end
  | VDict d => match d with [] => false | _ => true end
  end.

(** [v == s] for a string literal [s]. *)
Definition eq_str (v : value) (s : string) : bool :=
  match v with
  | VStr t => String.eqb t s
  | _ => false
  end.

(** [v[k]] for a string key: only a dictionary can be subscripted with one. *)
Definition getitem (v : value) (k : string) : Res value :=
  match v with
  | VDict d =>
      match dict_lookup k d with
      | Some x => Ok x
      | None => Raise (KeyError k)
      end
  | _ => Raise TypeError
  end.

(** [v.get(k, dflt)]: only a dictionary has the method. *)
Definition method_get (v : value) (k : string) (dflt : value) : Res value :=
  match v with
  | VDict d => Ok (default dflt (dict_lookup k d))
  | _ => Raise AttributeError
  end.

(** [v[0]]. *)
Definition getitem0 (v : value) : Res value :=
  match v with
  | VList l =>
      match l with
      | x :: _ => Ok x
      | [] => Raise IndexError
      end
  | VStr s =>
      match s with
      | String c _ => Ok (VStr (String c EmptyString))
      | EmptyString => Raise IndexError
      end
  | VDict _ => Raise (KeyError "0")
  | _ => Raise TypeError
  end.

Fixpoint chars (s : string) : list value :=
  match s with
  | EmptyString => []
  | String c s' => VStr (String c EmptyString) :: chars s'
  end.

(** The items a [for] loop over [v] visits. *)
Definition iterate (v : value) : Res (list value) :=
  match v with
  | VList l => Ok l
  | VDict d => Ok (map (fun kv => VStr (fst kv)) d)
  | VStr s => Ok (chars s)
  | _ => Raise TypeError
  end.

(** ** Conversions between [int] and [float] *)

(** [float(z)] for a Python integer: rounded to nearest even, and an
    [OverflowError] when the integer is too large for a binary64. *)
Definition float_of_Z (z : Z) : Res float :=
  let f := SF2Prim (binary_normalize prec emax z 0 false) in
  if is_infinity f then Raise OverflowError else Ok f.

(** [int(f)]: truncation towards zero; [ValueError] on a NaN and
    [OverflowError] on an infinity. *)
Definition Z_of_float (f : float) : Res Z :=
  match Prim2SF f with
  | S754_zero _ => Ok 0
  | S754_finite s m e =>
      let mag := match e with
                 | Zneg p => Z.shiftr (Zpos m) (Zpos p)
                 | _ => Z.shiftl (Zpos m) e
                 end in
      Ok (if s then - mag else mag)
  | S754_infinity _ => Raise OverflowError
  | S754_nan => Raise ValueError
  end.

(** [x / y] on floats raises [ZeroDivisionError] on a zero divisor. *)
Definition float_div (x y : float) : Res float :=
  if PrimFloat.eqb y 0%float then Raise ZeroDivisionError else Ok (x / y)%float.

(** ** Stride model *)

(** CO2 emissions in g/passenger-km. *)
Definition EMISSIONS : gmap string float :=
  list_to_map
    [ ("RER", 3.8%float);
      ("Metro", 3.2%float);
      ("Bus", 95.3%float);
      ("Tramway", 3.3%float);
      ("Train", 3.8%float);
      ("Car", 206.0%float) ]%string.

(** [EMISSIONS.get(mode, 0)]. *)
Definition EMISSIONS_get (mode : string) : float :=
  default 0%float (EMISSIONS !! mode).

(** [EMISSIONS['Car']]. *)
Definition EMISSIONS_item (mode : string) : Res float :=
  match EMISSIONS !! mode with
  | Some f => Ok f
  | None => Raise (KeyError mode)
  end.

Definition calculate_step_length (height_cm : float) : Res float :=
  Ok ((height_cm / 100) * 0.414)%float.

Definition calculate_steps (distance_meters step_length : float) : Res Z :=
  q ← float_div distance_meters step_length;
  Z_of_float q.

Definition calculate_distance_from_steps (steps : Z) (step_length : float) : Res float :=
  n ← float_of_Z steps;
  Ok (n * step_length)%float.


(** ** Output and the journey-planning service *)

(** A request sent to the journeys endpoint by [get_itinerary]. *)
Record request : Type := Request {
  req_api_key : string;
  req_from_lat : float;
  req_from_lon : float;
  req_to_lat : float;
  req_to_lon : float
}.

(** What the program does to the outside: a line printed (the text of the
    f-string with the interpolated values beside it) and a call to the
    journeys endpoint with its outcome. *)
Inductive event : Type :=
| Print (template : string) (args : list value)
| Call (rq : request) (response : Res value).

(** What stands for [e] where a message interpolates it.  The model keeps
    the class of an exception and the argument of a [KeyError] or of an
    error of the HTTP client, not the text of [str(e)]: Python prints the
    key of a [KeyError] in quotes and, for the other classes, a message
    that depends on the operation that failed. *)
Definition exn_value (e : exn) : value :=
  match e with
  | KeyError k => VStr k
  | RequestException m => VStr m
  | OtherException c => VStr c
  | IndexError => VStr "IndexError"
  | TypeError => VStr "TypeError"
  | AttributeError => VStr "AttributeError"
  | ValueError => VStr "ValueError"
  | OverflowError => VStr "OverflowError"
  | ZeroDivisionError => VStr "ZeroDivisionError"
  end.

(** Functions that only print: a result and the lines printed. *)
Definition W (A : Type) : Type := (Res A * list event)%type.

#[global] Instance W_ret : MRet W := fun A a => (Ok a, []).
#[global] Instance W_bind : MBind W := fun A B k w =>
  match w with
  | (Ok a, o) => let '(r, o') := k a in (r, o ++ o')
  | (Raise e, o) => (Raise e, o)
  end.

Definition liftR {A} (r : Res A) : W A := (r, []).
Definition print (template : string) (args : list value) : W unit :=
  (Ok tt, [Print template args]).

(** [try: body except KeyError as e: handler]. *)
Definition try_except_KeyError {A} (body : W A) (handler : string → W A) : W A :=
  match body with
  | (Raise (KeyError k), o) => let '(r, o') := handler k in (r, o ++ o')
  | w => w
  end.

(** ** Strings *)

(** Strings are sequences of characters with code points below 256;
    [is_space] is [str.isspace] on them. *)
Definition is_space (c : ascii) : bool :=
  let n := N_of_ascii c in
  ((9 <=? n) && (n <=? 13) || (28 <=? n) && (n <=? 32) || (n =? 133) || (n =? 160))%N.

Fixpoint skip_spaces (s : string) : string :=
  match s with
  | EmptyString => EmptyString
  | String c s' => if is_space c then skip_spaces s' else s
  end.

Fixpoint take_token (s : string) : string :=
  match s with
  | EmptyString => EmptyString
  | String c s' => if is_space c then EmptyString else String c (take_token s')
  end.

(** [v.split()[0]]: the first whitespace-delimited token; [IndexError] when
    the string holds none, [AttributeError] when [v] is not a string. *)
Definition split_0 (v : value) : Res string :=
  match v with
  | VStr s =>
      match skip_spaces s with
      | EmptyString => Raise IndexError
      | t => Ok (take_token t)
      end
  | _ => Raise AttributeError
  end.

(** ** The runtime library and the outside world

    [math.sin], [math.cos], [math.atan2] and float exponentiation come from
    the C library, and [float(str)] and float [//] from the interpreter; the
    program is embedded over any implementation of them.  [py_sum] is the
    builtin [sum] on the floats a generator yields: plain left-to-right
    addition before Python 3.12, compensated summation since. *)
Record pylib : Type := Pylib {
  math_sin : float → Res float;
  math_cos : float → Res float;
  math_atan2 : float → float → Res float;
  float_pow : float → float → Res float;
  float_of_str : string → Res float;
  float_floordiv : float → float → float;
  py_sum : list float → float
}.

Section Program.

Variable lib : pylib.

(** [journeys_endpoint k rq] is the outcome of the [k]-th request sent to
    the journeys endpoint: the decoded payload, or the exception the HTTP
    client raised. *)
Variable journeys_endpoint : nat → request → Res value.

(** [math.radians]: a multiplication by pi/180. *)
Definition math_radians (x : float) : float := (x * 0.017453292519943295)%float.

(** [math.sqrt]: [ValueError] on a negative argument. *)
Definition math_sqrt (x : float) : Res float :=
  let r := PrimFloat.sqrt x in
  if is_nan r && negb (is_nan x) then Raise ValueError else Ok r.

(** [float(v)]. *)
Definition py_float (v : value) : Res float :=
  match v with
  | VFloat f => Ok f
  | VInt z => float_of_Z z
  | VBool b => Ok (if b then 1 else 0)%float
  | VStr s => float_of_str lib s
  | _ => Raise TypeError
  end.

(** [v // 60]. *)
Definition floordiv60 (v : value) : Res value :=
  match v with
  | VInt z => Ok (VInt (z / 60))
  | VBool b => Ok (VInt 0)
  | VFloat f => Ok (VFloat (float_floordiv lib f 60))
  | _ => Raise TypeError
  end.

(** ** Geodesy *)

Definition haversine_distance (lat1 lon1 lat2 lon2 : float) : Res float :=
  let R := 6371000%float in
  let lat1 := math_radians lat1 in
  let lon1 := math_radians lon1 in
  let lat2 := math_radians lat2 in
  let lon2 := math_radians lon2 in
  let dlat := (lat2 - lat1)%float in
  let dlon := (lon2 - lon1)%float in
  s1 ← math_sin lib (dlat / 2)%float;
  p1 ← float_pow lib s1 2%float;
  c1 ← math_cos lib lat1;
  c2 ← math_cos lib lat2;
  s2 ← math_sin lib (dlon / 2)%float;
  p2 ← float_pow lib s2 2%float;
  let a := (p1 + c1 * c2 * p2)%float in
  q1 ← math_sqrt a;
  q2 ← math_sqrt (1 - a)%float;
  t ← math_atan2 lib q1 q2;
  let c := (2 * t)%float in
  let distance := (R * c)%float in
  Ok distance.

(** [endpoint['address']['coord']] or [endpoint['stop_point']['coord']],
    by the endpoint's [embedded_type]. *)
Definition endpoint_coord (journey_section : value) (side : string) : Res value :=
  e ← getitem journey_section side;
  ty ← method_get e "embedded_type" VNone;
  if eq_str ty "address" then
    e ← getitem journey_section side;
    a ← getitem e "address";
    getitem a "coord"
  else
    e ← getitem journey_section side;
    p ← getitem e "stop_point";
    getitem p "coord".

(** The [return 0] of the source is the float [0.0]: the two are equal in
    Python and every use of the result is a float operation. *)
Definition calculate_walking_distance (journey_section : value) : W float :=
  f ← liftR (method_get journey_section "from" VNone);
  if negb (truthy f) then mret 0%float else
  t ← liftR (method_get journey_section "to" VNone);
  if negb (truthy t) then mret 0%float else
  try_except_KeyError
    (liftR (
      from_coord ← endpoint_coord journey_section "from";
      to_coord ← endpoint_coord journey_section "to";
      x1 ← getitem from_coord "lat"; lat1 ← py_float x1;
      x2 ← getitem from_coord "lon"; lon1 ← py_float x2;
      x3 ← getitem to_coord "lat"; lat2 ← py_float x3;
      x4 ← getitem to_coord "lon"; lon2 ← py_float x4;
      haversine_distance lat1 lon1 lat2 lon2))
    (fun e =>
      print "KeyError: {}" [VStr e];;
      print "Structure not found in section" [];;
      mret 0%float).

(** ** Itinerary aggregator *)

(** The accumulators of [format_itinerary_with_steps]; their initial [0] is
    the float [0.0] (see [calculate_walking_distance]). *)
Record totals : Type := Totals {
  total_walking_distance : float;
  total_distance : float;
  total_co2 : float
}.

(** What the function has computed when it prints its summary.  The Python
    function returns [None]; the embedding returns these locals so that
    they can be observed, and [None] on the early return. *)
Record summary : Type := Summary {
  sum_totals : totals;
  total_steps : Z;
  car_co2 : float
}.

Definition duration_minutes (v : value) : Res value :=
  d ← getitem v "duration";
  floordiv60 d.

(** The body of the loop over [journey['sections']]. *)
Definition format_section (step_length : float) (acc : totals) (section : value)
  : W totals :=
  ty ← liftR (getitem section "type");
  if eq_str ty "public_transport" then
    d ← calculate_walking_distance section;
    let distance := (d / 1000)%float in
    let total_distance' := (total_distance acc + distance)%float in
    mode ← liftR (di ← getitem section "display_informations";
                  pm ← method_get di "physical_mode" (VStr "");
                  split_0 pm);
    let emission_factor := EMISSIONS_get mode in
    let total_co2' := (total_co2 acc + distance * emission_factor)%float in
    args ← liftR (di ← getitem section "display_informations";
                  pm ← getitem di "physical_mode";
                  di' ← getitem section "display_informations";
                  code ← getitem di' "code";
                  f ← getitem section "from";
                  fname ← getitem f "name";
                  t ← getitem section "to";
                  tname ← getitem t "name";
                  mins ← duration_minutes section;
                  Ok [pm; code; fname; tname; mins; VFloat distance]);
    print "- Take {} {} from {} to {} ({} min, {:.1f} km)" args;;
    mret (Totals (total_walking_distance acc) total_distance' total_co2')
  else
    ty ← liftR (getitem section "type");
    walking ← (if eq_str ty "street_network"
               then liftR (m ← getitem section "mode"; Ok (eq_str m "walking"))
               else mret false);
    if walking : bool then
      walking_distance ← calculate_walking_distance section;
      let total_walking_distance' := (total_walking_distance acc + walking_distance)%float in
      steps ← liftR (calculate_steps walking_distance step_length);
      mins ← liftR (duration_minutes section);
      print "- Walk for {} minutes ({} steps, {:.1f} km)"
            [mins; VInt steps; VFloat (walking_distance / 1000)%float];;
      mret (Totals total_walking_distance' (total_distance acc) (total_co2 acc))
    else
      ty ← liftR (getitem section "type");
      if eq_str ty "waiting" then
        mins ← liftR (duration_minutes section);
        print "- Wait for {} minutes" [mins];;
        mret acc
      else mret acc.

Fixpoint format_sections (step_length : float) (acc : totals) (sections : list value)
  : W totals :=
  match sections with
  | [] => mret acc
  | section :: rest =>
      acc' ← format_section step_length acc section;
      format_sections step_length acc' rest
  end.

Definition format_itinerary_with_steps (journey_data : value) (step_length : float)
  : W (option summary) :=
  js ← liftR (method_get journey_data "journeys" VNone);
  if negb (truthy js) then
    print "No journeys found!" [];;
    mret None
  else
    journey ← liftR (js ← getitem journey_data "journeys"; getitem0 js);
    print "Optimal Itinerary:" [];;
    print "------------------------------" [];;
    mins ← liftR (duration_minutes journey);
    print "Duration: {} minutes" [mins];;
    sections ← liftR (s ← getitem journey "sections"; iterate s);
    acc ← format_sections step_length (Totals 0 0 0) sections;
    total_steps ← liftR (calculate_steps (total_walking_distance acc) step_length);
    car ← liftR (EMISSIONS_item "Car");
    let car_co2 := (total_distance acc * car)%float in
    print "Summary:" [];;
    print "------------------------------" [];;
    print "Total steps: {}" [VInt total_steps];;
    print "Total walking distance: {:.1f} km" [VFloat (total_walking_distance acc / 1000)%float];;
    print "Total journey distance: {:.1f} km" [VFloat (total_distance acc)];;
    print "CO2 emissions (public transport): {:.1f}g" [VFloat (total_co2 acc)];;
    print "CO2 emissions (if by car): {:.1f}g" [VFloat car_co2];;
    print "CO2 saved: {:.1f}g" [VFloat (car_co2 - total_co2 acc)%float];;
    mret (Some (Summary acc total_steps car_co2)).

(** ** State: the caller's lists, the service and the running search *)

(** List objects live in a heap, so that two names for one list see each
    other's updates.  [calls] counts the requests sent so far and [out]
    collects what was printed and requested.  [best_journey] and
    [best_score] are the two locals of [find_best_route] that outlive an
    exception caught inside its loop. *)
Definition loc : Type := nat.

Record state : Type := State {
  heap : gmap loc (list value);
  calls : nat;
  out : list event;
  best_journey : value;
  best_score : float
}.

Definition M (A : Type) : Type := state → Res A * state.

#[global] Instance M_ret : MRet M := fun A a st => (Ok a, st).
#[global] Instance M_bind : MBind M := fun A B k m st =>
  match m st with
  | (Ok a, st') => k a st'
  | (Raise e, st') => (Raise e, st')
  end.

Definition emit (o : list event) (st : state) : state :=
  State (heap st) (calls st) (out st ++ o) (best_journey st) (best_score st).

Definition liftW {A} (w : W A) : M A := fun st => (fst w, emit (snd w) st).

Definition raise {A} (e : exn) : M A := fun st => (Raise e, st).

(** [try: body except C as e: handler], for the exception classes [C]
    selects. *)
Definition try_except {A} (C : exn → bool) (body : M A) (handler : exn → M A) : M A :=
  fun st =>
    match body st with
    | (Raise e, st') => if C e then handler e st' else (Raise e, st')
    | r => r
    end.

(** [requests.get], [raise_for_status] and [response.json()]: one request
    to the journeys endpoint. *)
Definition http_get_journeys (rq : request) : M value := fun st =>
  let r := journeys_endpoint (calls st) rq in
  (r, State (heap st) (S (calls st)) (out st ++ [Call rq r])
            (best_journey st) (best_score st)).

Definition get_itinerary (api_key : string) (from_lat from_lon to_lat to_lon : float)
  : M value :=
  try_except is_RequestException
    (http_get_journeys (Request api_key from_lat from_lon to_lat to_lon))
    (fun e =>
      liftW (print "Error fetching itinerary: {}" [exn_value e]);;
      raise e).

(** ** [list.sort(key=...)] *)

(** The sort is stable and compares keys with [<] only; the keys are all
    computed before the list is touched, so that a key that raises leaves
    the list as it was.  On keys that [<] orders totally (no NaN) the
    result is the one of Python's sort: the one list in ascending order
    with equal keys in their first order.  With a NaN among the keys
    Python's sort still leaves a permutation of the list, but which one
    depends on the comparisons its merge strategy happens to make; the
    insertion below then gives one permutation, not always Python's (the
    keys 3, 1, NaN, 2 come out as 1, 3, NaN, 2 here and as 1, 2, 3, NaN
    from CPython 3.11), and only what holds of every permutation is
    stated of it. *)
Fixpoint insert_by_key (k : float) (x : value) (l : list (float * value))
  : list (float * value) :=
  match l with
  | [] => [(k, x)]
  | (k', y) :: l' =>
      if (k' <? k)%float then (k', y) :: insert_by_key k x l' else (k, x) :: l
  end.

Definition sort_keyed (l : list (float * value)) : list (float * value) :=
  foldr (fun kx acc => insert_by_key (fst kx) (snd kx) acc) [] l.

Fixpoint map_res {A B} (f : A → Res B) (l : list A) : Res (list B) :=
  match l with
  | [] => Ok []
  | x :: l' =>
      y ← f x;
      ys ← map_res f l';
      Ok (y :: ys)
  end.

Definition list_sort (key : value → Res float) (r : loc) : M unit := fun st =>
  match heap st !! r with
  | None => (Raise AttributeError, st)
  | Some l =>
      match map_res key l with
      | Raise e => (Raise e, st)
      | Ok ks =>
          (Ok tt, State (<[r := (sort_keyed (zip ks l)).*2]> (heap st)) (calls st) (out st)
                        (best_journey st) (best_score st))
      end
  end.

(** ** Route search engine *)

Definition MAX_STATIONS : nat := 10.

(** [float(x['stop_point']['coord'][c])]. *)
Definition station_coord (x : value) (c : string) : Res float :=
  p ← getitem x "stop_point";
  q ← getitem p "coord";
  v ← getitem q c;
  py_float v.

(** The sort key: the distance from the station to the point [(lat, lon)]. *)
Definition station_key (lat lon : float) (x : value) : Res float :=
  slat ← station_coord x "lat";
  slon ← station_coord x "lon";
  haversine_distance slat slon lat lon.

(** [l[-MAX_STATIONS:]] and [l[:MAX_STATIONS]]. *)
Definition slice_last (n : nat) (l : list value) : list value := drop (length l - n) l.
Definition slice_first (n : nat) (l : list value) : list value := take n l.

(** The choice of the stations to try, with the line printed. *)
Definition select_stations (target_steps : Z) (from_stations to_stations : list value)
  : list value * list value * event :=
  if target_steps >? 3000 then
    (slice_last MAX_STATIONS from_stations, slice_last MAX_STATIONS to_stations,
     Print "Evaluating routes using {} farthest stations (high step count mode)"
           [VInt (Z.of_nat MAX_STATIONS)])
  else
    (slice_first MAX_STATIONS from_stations, slice_first MAX_STATIONS to_stations,
     Print "Evaluating routes using {} closest stations"
           [VInt (Z.of_nat MAX_STATIONS)]).

Definition is_walking (section : value) : Res bool :=
  ty ← getitem section "type";
  if eq_str ty "street_network" then
    m ← getitem section "mode";
    Ok (eq_str m "walking")
  else Ok false.

(** The generator handed to [sum]: the distances it yields, in order. *)
Fixpoint walking_distances (sections : list value) : W (list float) :=
  match sections with
  | [] => mret []
  | section :: rest =>
      w ← liftR (is_walking section);
      if w : bool then
        d ← calculate_walking_distance section;
        ds ← walking_distances rest;
        mret (d :: ds)
      else walking_distances rest
  end.

Definition journey_walking_distance (journey : value) : W float :=
  sections ← liftR (s ← getitem journey "sections"; iterate s);
  ds ← walking_distances sections;
  mret (py_sum lib ds).

Definition read_list (r : loc) : M (list value) := fun st =>
  match heap st !! r with
  | Some l => (Ok l, st)
  | None => (Raise AttributeError, st)
  end.

Definition set_best (journey : value) (score : float) : M unit := fun st =>
  (Ok tt, State (heap st) (calls st) (out st) journey score).

Definition get_best_score : M float := fun st => (Ok (best_score st), st).
Definition get_best_journey : M value := fun st => (Ok (best_journey st), st).

(** The body of [for journey in result['journeys']]. *)
Definition score_journey (target_distance : float) (journey : value) : M unit :=
  total_walking_distance ← liftW (journey_walking_distance journey);
  let score := abs (total_walking_distance - target_distance)%float in
  best ← get_best_score;
  if (score <? best)%float then
    set_best journey score;;
    liftW (print "Found better route with {:.0f}m walking (target: {:.0f}m)"
                 [VFloat total_walking_distance; VFloat target_distance])
  else mret tt.

Fixpoint score_journeys (target_distance : float) (journeys : list value) : M unit :=
  match journeys with
  | [] => mret tt
  | journey :: rest =>
      score_journey target_distance journey;;
      score_journeys target_distance rest
  end.

Section Search.

(** [from_lat], [from_lon], [to_lat] and [to_lon] are module globals that
    [find_best_route] reads; the script sets them before the call. *)
Variable from_lat from_lon to_lat to_lon : float.
Variable target_distance : float.
Variable api_key : string.

(** The [try] block of the loop body. *)
Definition try_pair (from_station to_station : value) : M unit :=
  walk_to_station ← liftW (liftR (
    lat ← station_coord from_station "lat";
    lon ← station_coord from_station "lon";
    haversine_distance from_lat from_lon lat lon));
  walk_from_station ← liftW (liftR (
    lat ← station_coord to_station "lat";
    lon ← station_coord to_station "lon";
    haversine_distance lat lon to_lat to_lon));
  liftW (print "Evaluating route: {:.2f}km to first station, {:.2f}km from last station"
               [VFloat (walk_to_station / 1000)%float;
                VFloat (walk_from_station / 1000)%float]);;
  rq ← liftW (liftR (
    flat ← station_coord from_station "lat";
    flon ← station_coord from_station "lon";
    tlat ← station_coord to_station "lat";
    tlon ← station_coord to_station "lon";
    Ok (flat, flon, tlat, tlon)));
  result ← (let '(flat, flon, tlat, tlon) := rq in
            get_itinerary api_key flat flon tlat tlon);
  js ← liftW (liftR (method_get result "journeys" VNone));
  if negb (truthy js) then mret tt
  else
    journeys ← liftW (liftR (j ← getitem result "journeys"; iterate j));
    score_journeys target_distance journeys.

Definition evaluate_pair (from_station to_station : value) : M unit :=
  try_except is_Exception
    (try_pair from_station to_station)
    (fun e => liftW (print "Error processing route: {}" [exn_value e])).

Fixpoint for_to_stations (from_station : value) (selected_to_stations : list value)
  : M unit :=
  match selected_to_stations with
  | [] => mret tt
  | to_station :: rest =>
      evaluate_pair from_station to_station;;
      for_to_stations from_station rest
  end.

Fixpoint for_from_stations (selected_from_stations selected_to_stations : list value)
  : M unit :=
  match selected_from_stations with
  | [] => mret tt
  | from_station :: rest =>
      for_to_stations from_station selected_to_stations;;
      for_from_stations rest selected_to_stations
  end.

End Search.

Definition find_best_route (from_lat from_lon to_lat to_lon : float)
    (from_stations to_stations : loc) (target_steps : Z) (step_length : float)
    (api_key : string) : M value :=
  set_best VNone infinity;;
  target_distance ← liftW (liftR (calculate_distance_from_steps target_steps step_length));
  list_sort (station_key from_lat from_lon) from_stations;;
  list_sort (station_key to_lat to_lon) to_stations;;
  fs ← read_list from_stations;
  ts ← read_list to_stations;
  let '(selected_from_stations, selected_to_stations, line) :=
    select_stations target_steps fs ts in
  liftW (Ok tt, [line]);;
  for_from_stations from_lat from_lon to_lat to_lon target_distance api_key
    selected_from_stations selected_to_stations;;
  get_best_journey.

End Program.

(** ** Sample payloads and test doubles *)

(** A runtime library for running examples: the small-angle approximations
    [sin x = x], [cos x = 1], [atan2 y x = y], squares by multiplication,
    and [sum] by left-to-right addition. *)
Definition flat_lib : pylib :=
  Pylib (λ x, Ok x) (λ _, Ok 1%float) (λ y _, Ok y) (λ x _, Ok (x * x)%float)
        (λ _, Raise ValueError) (λ x y, (x / y)%float)
        (foldl PrimFloat.add 0%float).

Definition coord (lat lon : float) : value :=
  VDict [("lat", VFloat lat); ("lon", VFloat lon)]%string.

(** A stop point as the directory returns it. *)
Definition station (name : string) (lat lon : float) : value :=
  VDict [("embedded_type", VStr "stop_point"); ("name", VStr name);
         ("stop_point", VDict [("coord", coord lat lon)])]%string.

(** An address endpoint of a section. *)
Definition address (name : string) (lat lon : float) : value :=
  VDict [("embedded_type", VStr "address"); ("name", VStr name);
         ("address", VDict [("coord", coord lat lon)])]%string.

Definition walking_section (from to : value) : value :=
  VDict [("type", VStr "street_network"); ("mode", VStr "walking");
         ("duration", VInt 300); ("from", from); ("to", to)]%string.

Definition transit_section (physical_mode : string) (from to : value) : value :=
  VDict [("type", VStr "public_transport");
         ("display_informations",
          VDict [("physical_mode", VStr physical_mode); ("code", VStr "42")]);
         ("duration", VInt 600); ("from", from); ("to", to)]%string.

Definition journey_of (sections : list value) : value :=
  VDict [("duration", VInt 1800); ("sections", VList sections)]%string.

Definition response_of (journeys : list value) : value :=
  VDict [("journeys", VList journeys)]%string.

(** Walks whose length under [flat_lib] is exactly 100 m, 400 m, 1500 m and
    2600 m. *)
Definition walk_100 : value :=
  walking_section (address "a" 0x1.d780e7168aea6p-11 0) (station "s" 0 0).
Definition walk_400 : value :=
  walking_section (address "a" 0x1.d780e7168aea6p-9 0) (station "s" 0 0).
Definition walk_1500 : value :=
  walking_section (address "a" 0x1.ba08d8a5223bbp-7 0) (station "s" 0 0).
Definition walk_2600 : value :=
  walking_section (address "a" 0x1.7f18bbc250de6p-6 0) (station "s" 0 0).

Definition journey_500 : value := journey_of [walk_100; walk_400].
Definition journey_1500 : value := journey_of [walk_1500].
Definition journey_2600 : value := journey_of [walk_2600].

(** A journeys endpoint that answers every request with the same payload,
    and one that fails on the requests whose number [fails] selects. *)
Definition constant_service (payload : value) : nat → request → Res value :=
  λ _ _, Ok payload.

Definition flaky_service (fails : nat → bool) (payload : value)
  : nat → request → Res value :=
  λ k _, if fails k then Raise (RequestException "503 Server Error") else Ok payload.

Definition empty_state (h : gmap loc (list value)) : state :=
  State h 0 [] VNone 0%float.

(** The coordinates the script searches between. *)
Definition origin_lat : float := 48.843890%float.
Definition origin_lon : float := 2.306979%float.
Definition destination_lat : float := 48.925073%float.
Definition destination_lon : float := 2.236467%float.

(** A search to run: two stations near the origin, the farther one first,
    one station near the destination, and a target of 2000 steps of 0.7 m. *)
Definition far_station : value := station "far" 48.86 2.35.
Definition near_station : value := station "near" 48.845 2.307.
Definition last_station : value := station "last" 48.92 2.24.

Definition demo_heap : gmap loc (list value) :=
  <[1%nat := [last_station]]> (<[0%nat := [far_station; near_station]]> ∅).

Definition demo_state : state := empty_state demo_heap.

Definition demo_payload : value :=
  response_of [journey_500; journey_1500; journey_2600].

Definition demo_search (service : nat → request → Res value) : Res value * state :=
  find_best_route flat_lib service origin_lat origin_lon destination_lat destination_lon
    0%nat 1%nat 2000 0.7 "key" demo_state.

(** The distance to the equator-meridian point under [flat_lib], as a key. *)
Definition demo_key (x : value) : float :=
  match station_key flat_lib 0 0 x with
  | Ok k => k
  | Raise _ => nan
  end.

(** Eleven stations, from the closest to the farthest. *)
Definition eleven_stations : list value :=
  map (λ lat, station "s" lat 0)
      [0.001; 0.002; 0.003; 0.004; 0.005; 0.006; 0.007; 0.008; 0.009; 0.010; 0.011]%float.

(** A trip of one bus ride. *)
Definition bus_trip : value :=
  response_of [journey_of [transit_section "Bus" near_station last_station]].

(** * Properties *)

(** ** The order of binary64 numbers

    [SFrank] sends a number to a triple of integers whose lexicographic
    order is the order [SFcompare] computes. *)
Definition SFrank (x : spec_float) : option (Z * Z * Z) :=
  match x with
  | S754_nan => None
  | S754_infinity true => Some (-2, 0, 0)
  | S754_finite true m e => Some (-1, - e, Zneg m)
  | S754_zero _ => Some (0, 0, 0)
  | S754_finite false m e => Some (1, e, Zpos m)
  | S754_infinity false => Some (2, 0, 0)
  end.

Definition lex3 (a b : Z * Z * Z) : comparison :=
  let '(a1, a2, a3) := a in
  let '(b1, b2, b3) := b in
  match a1 ?= b1 with
  | Eq => match a2 ?= b2 with Eq => a3 ?= b3 | c => c end
  | c => c
  end.

Definition lex3_lt (a b : Z * Z * Z) : Prop :=
  a.1.1 < b.1.1 ∨ (a.1.1 = b.1.1 ∧ (a.1.2 < b.1.2 ∨ (a.1.2 = b.1.2 ∧ a.2 < b.2))).

Definition rank (x : float) : option (Z * Z * Z) := SFrank (Prim2SF x).

(** [x] is a number, and not a NaN. *)
Definition is_num (x : float) : Prop := is_nan x = false.

(** ** Endpoints of a section *)

Definition endpoint_of (d : list (string * value)) (side : string) : value :=
  default VNone (dict_lookup side d).

(** The section has no [from] or no [to] (or an empty one). *)
Definition endpoint_absent (d : list (string * value)) : Prop :=
  truthy (endpoint_of d "from") = false ∨ truthy (endpoint_of d "to") = false.

(** An endpoint that is a non-empty object holding neither an [address]
    nor a [stop_point]. *)
Definition lacks_coordinates (e : value) : Prop :=
  ∃ d, e = VDict d ∧ truthy e = true ∧
       dict_lookup "address" d = None ∧ dict_lookup "stop_point" d = None.

(** The two lines the [except KeyError] handler prints. *)
Definition key_error_lines (k : string) : list event :=
  [Print "KeyError: {}" [VStr k]; Print "Structure not found in section" []].

(** ** The search as a fold *)

Definition best (st : state) : value * float := (best_journey st, best_score st).

(** The itinerary kept after the candidates [l], starting from [b]. *)
Definition pick_best (b : value * float) (l : list (value * float)) : value * float :=
  foldl (λ b c, if (c.2 <? b.2)%float then c else b) b l.

(** The payloads the journeys endpoint returned, in the order of the calls. *)
Fixpoint responses (o : list event) : list value :=
  match o with
  | [] => []
  | Call _ (Ok v) :: o' => v :: responses o'
  | _ :: o' => responses o'
  end.

Fixpoint count_calls (o : list event) : nat :=
  match o with
  | [] => 0
  | Call _ _ :: o' => S (count_calls o')
  | _ :: o' => count_calls o'
  end.

(** The itineraries of a payload, as the loop reads them. *)
Definition response_journeys (result : value) : Res (list value) :=
  js ← method_get result "journeys" VNone;
  if negb (truthy js) then Ok []
  else j ← getitem result "journeys"; iterate j.

(** The itineraries of [journeys] that get a score, each with its score: all
    of them up to the first one on which the computation of the walking
    distance raises. *)
Fixpoint scored_journeys (lib : pylib) (target_distance : float) (journeys : list value)
  : list (value * float) :=
  match journeys with
  | [] => []
  | journey :: rest =>
      match (journey_walking_distance lib journey).1 with
      | Ok total => (journey, abs (total - target_distance)%float)
                      :: scored_journeys lib target_distance rest
      | Raise _ => []
      end
  end.

Definition response_candidates (lib : pylib) (target_distance : float) (result : value)
  : list (value * float) :=
  match response_journeys result with
  | Ok journeys => scored_journeys lib target_distance journeys
  | Raise _ => []
  end.

Definition candidates (lib : pylib) (target_distance : float) (o : list event)
  : list (value * float) :=
  flat_map (response_candidates lib target_distance) (responses o).

(** What was printed and requested between two states. *)
Definition events_since (st st' : state) : list event :=
  drop (length (out st)) (out st').

(** The lines that follow a failed request. *)
Definition failure_lines (e : exn) : list event :=
  (if is_RequestException e
   then [Print "Error fetching itinerary: {}" [exn_value e]] else [])
  ++ [Print "Error processing route: {}" [exn_value e]].

(** ** Events of a run *)

Definition is_print (ev : event) : Prop :=
  match ev with
  | Print _ _ => True
  | Call _ _ => False
  end.

(** [o] is what a search that starts with request number [k] can print and
    request: every request gets the answer of the service, and a failed
    request is followed by its error lines. *)
Fixpoint trace_ok (service : nat → request → Res value) (k : nat) (o : list event) : Prop :=
  match o with
  | [] => True
  | Print _ _ :: o' => trace_ok service k o'
  | Call rq r :: o' =>
      r = service k rq ∧
      (∀ e, r = Raise e → ∃ rest, o' = failure_lines e ++ rest) ∧
      trace_ok service (S k) o'
  end.

(** The request [try_pair] sends for a pair of stations, when the reading
    of their coordinates and the two distances succeed. *)
Definition pair_request (lib : pylib) (from_lat from_lon to_lat to_lon : float)
    (api_key : string) (from_station to_station : value) : Res request :=
  _ ← (lat ← station_coord lib from_station "lat";
       lon ← station_coord lib from_station "lon";
       haversine_distance lib from_lat from_lon lat lon);
  _ ← (lat ← station_coord lib to_station "lat";
       lon ← station_coord lib to_station "lon";
       haversine_distance lib lat lon to_lat to_lon);
  flat ← station_coord lib from_station "lat";
  flon ← station_coord lib from_station "lon";
  tlat ← station_coord lib to_station "lat";
  tlon ← station_coord lib to_station "lon";
  Ok (Request api_key flat flon tlat tlon).

(** Lines 211 to 237 of [find_best_route]: everything before the loop.  It
    returns the target distance and the stations selected. *)
Definition search_prelude (lib : pylib) (from_lat from_lon to_lat to_lon : float)
    (from_stations to_stations : loc) (target_steps : Z) (step_length : float)
  : M (float * list value * list value) :=
  set_best VNone infinity;;
  target_distance ← liftW (liftR (calculate_distance_from_steps target_steps step_length));
  list_sort (station_key lib from_lat from_lon) from_stations;;
  list_sort (station_key lib to_lat to_lon) to_stations;;
  fs ← read_list from_stations;
  ts ← read_list to_stations;
  let '(selected_from_stations, selected_to_stations, line) :=
    select_stations target_steps fs ts in
  liftW (Ok tt, [line]);;
  mret (target_distance, selected_from_stations, selected_to_stations).

(** What the run of a part of the search does to the state: it only adds
    to the output, and the itinerary kept is the one [pick_best] keeps after
    the itineraries [cs]. *)
Definition advances (st st' : state) (o : list event) (cs : list (value * float)) : Prop :=
  heap st' = heap st ∧ out st' = out st ++ o ∧
  calls st' = (calls st + count_calls o)%nat ∧
  best st' = pick_best (best st) cs.

(** The itineraries of a payload, none when it cannot be read. *)
Definition journeys_of (result : value) : list value :=
  match response_journeys result with
  | Ok journeys => journeys
  | Raise _ => []
  end.

(** All the itineraries returned across the requests of a run, in the order
    of the requests and, for one request, of the payload. *)
Definition all_itineraries (o : list event) : list value :=
  flat_map journeys_of (responses o).

(** The total walking distance of an itinerary and its score. *)
Definition walking_total (lib : pylib) (journey : value) : float :=
  match (journey_walking_distance lib journey).1 with
  | Ok total => total
  | Raise _ => nan
  end.

Definition score (lib : pylib) (target_distance : float) (journey : value) : float :=
  abs (walking_total lib journey - target_distance)%float.

(** Every itinerary returned has a walking distance and a finite score. *)
Definition well_scored (lib : pylib) (target_distance : float) (o : list event) : Prop :=
  ∀ j, j ∈ all_itineraries o →
       is_Ok (journey_walking_distance lib j).1 = true ∧
       (score lib target_distance j <? infinity)%float = true.

(** [l] is in ascending order of the key. *)
Definition sorted_by (key : value → float) (l : list value) : Prop :=
  StronglySorted (λ x y, (key x <=? key y)%float = true) l.

(** The mode name of a public-transport section, as the aggregator reads
    it: the first token of [physical_mode]. *)
Definition section_mode (section : value) : Res string :=
  di ← getitem section "display_informations";
  pm ← method_get di "physical_mode" (VStr "");
  split_0 pm.

(** ** Binary64 arithmetic *)

(** Some bit shifted out by [shr] was set. *)
Definition inexact (r : shr_record) : bool := shr_r r || shr_s r.

(** The sign class of a float: a zero of either sign, a negative number or
    minus infinity. *)
Definition nonpos (x : spec_float) : bool :=
  match x with
  | S754_zero _ => true
  | S754_finite s _ _ => s
  | S754_infinity s => s
  | S754_nan => false
  end.

Definition positive_finite (x : spec_float) : bool :=
  match x with
  | S754_finite false _ _ => true
  | _ => false
  end.

(** The real number [m * 2 ^ e]. *)
Definition scaled (m e : Z) : R := (IZR m * powerRZ 2 e)%R.

(** ** The order [list.sort] leaves *)

(** [l] is in ascending order of its keys. *)
Definition ascending (l : list (float * value)) : Prop :=
  StronglySorted (λ a b, (a.1 <=? b.1)%float = true) l.

(** The elements of [l'] whose keys are equal are in the order they have
    in [l]: for every key, the elements of that key are the same list. *)
Definition same_key_order (l l' : list (float * value)) : Prop :=
  ∀ k, List.filter (λ p, (p.1 =? k)%float) l' = List.filter (λ p, (p.1 =? k)%float) l.

(** ** A payload that cannot be processed *)

(** The exception on which the scoring of the itineraries of a payload
    stops, if any: the one of the first itinerary whose walking distance
    raises. *)
Fixpoint scoring_error (lib : pylib) (journeys : list value) : option exn :=
  match journeys with
  | [] => None
  | journey :: rest =>
      match (journey_walking_distance lib journey).1 with
      | Ok _ => scoring_error lib rest
      | Raise e => Some e
      end
  end.

(** The exception the processing of a payload raises, if any: in the
    reading of its itineraries or in their scoring. *)
Definition payload_error (lib : pylib) (result : value) : option exn :=
  match response_journeys result with
  | Ok journeys => scoring_error lib journeys
  | Raise e => Some e
  end.

(** The line the handler of the loop prints. *)
Definition error_line (e : exn) : event :=
  Print "Error processing route: {}" [exn_value e].

(** [o] is what a search that starts with request number [k] can print and
    request, with every failure in it: a request that fails is followed by
    its error lines, and a payload whose processing raises is followed,
    before the next request, by the line of the handler. *)
Fixpoint trace_logged (lib : pylib) (service : nat → request → Res value) (k : nat)
    (o : list event) : Prop :=
  match o with
  | [] => True
  | Print _ _ :: o' => trace_logged lib service k o'
  | Call rq r :: o' =>
      r = service k rq ∧
      match r with
      | Raise e => ∃ rest, o' = failure_lines e ++ rest
      | Ok payload =>
          ∀ e, payload_error lib payload = Some e →
               ∃ mid rest, Forall is_print mid ∧ o' = mid ++ error_line e :: rest
      end ∧
      trace_logged lib service (S k) o'
  end.

(** * The rest of the program *)

(** ** Transit directory *)

(** A request sent to the places-nearby endpoint by
    [find_stations_in_radius]: the centre goes into the URL and the radius,
    as an integer, into the parameter [distance]; [count] is always 100 and
    [type[]] always [stop_point]. *)
Record places_request : Type := PlacesRequest {
  places_api_key : string;
  places_lat : float;
  places_lon : float;
  places_distance : Z
}.

(** What the HTTP client does with a request: [requests.get] raises, or it
    returns a response with its text, on which [raise_for_status()] and
    [json()] give the decoded payload or raise. *)
Inductive http_outcome : Type :=
| NoResponse (e : exn)
| Response (text : string) (body : Res value).

(** What the directory does to the outside: a line printed and a request
    with its outcome. *)
Inductive dir_event : Type :=
| DPrint (template : string) (args : list value)
| DCall (rq : places_request) (r : http_outcome).

Definition D (A : Type) : Type := (Res A * list dir_event)%type.

#[global] Instance D_ret : MRet D := fun A a => (Ok a, []).
#[global] Instance D_bind : MBind D := fun A B k w =>
  match w with
  | (Ok a, o) => let '(r, o') := k a in (r, o ++ o')
  | (Raise e, o) => (Raise e, o)
  end.

Definition dprint (template : string) (args : list value) : D unit :=
  (Ok tt, [DPrint template args]).

Definition dlift {A} (r : Res A) : D A := (r, []).

Section Directory.

(** The outcome of the request the function sends. *)
Variable places_endpoint : places_request → http_outcome.

(** The handler of [except requests.RequestException]; [content] is
    [response.text] when [requests.get] has returned, ['No response']
    otherwise. *)
Definition stations_failure (e : exn) (content : string) : D value :=
  dprint "Error finding stations: {}" [exn_value e];;
  dprint "Response content: {}" [VStr content];;
  mret (VList []).

Definition find_stations_in_radius (center_lat center_lon radius : float)
    (api_key : string) : D value :=
  distance ← dlift (Z_of_float radius);
  let params := VDict [("count", VInt 100); ("distance", VInt distance);
                       ("type[]", VList [VStr "stop_point"])]%string in
  dprint "Requesting URL: https://prim.iledefrance-mobilites.fr/marketplace/v2/navitia/coverage/fr-idf/coords/{};{}/places_nearby"
         [VFloat center_lon; VFloat center_lat];;
  dprint "With params: {}" [params];;
  let rq := PlacesRequest api_key center_lat center_lon distance in
  let r := places_endpoint rq in
  ((Ok tt, [DCall rq r]) : D unit);;
  match r with
  | Response text (Ok data) => dlift (method_get data "places_nearby" (VList []))
  | Response text (Raise e) =>
      if is_RequestException e then stations_failure e text else dlift (Raise e)
  | NoResponse e =>
      if is_RequestException e then stations_failure e "No response" else dlift (Raise e)
  end.

End Directory.

(** ** The script

    The part of the script after its two [input] lines: [height] and
    [target_steps] are the numbers read.  The script ends by running out
    of statements, by [exit()], or on an exception nothing catches. *)
Inductive script_end : Type :=
| Finished
| Exited
| Crashed (e : exn).

(** What the script does to the outside: the lines printed by it and by
    the functions it calls, and the requests to the two endpoints. *)
Inductive script_event : Type :=
| Line (template : string) (args : list value)
| PlacesCall (rq : places_request) (r : http_outcome)
| JourneysCall (rq : request) (r : Res value).

Definition of_dir_event (ev : dir_event) : script_event :=
  match ev with
  | DPrint t a => Line t a
  | DCall rq r => PlacesCall rq r
  end.

Definition of_event (ev : event) : script_event :=
  match ev with
  | Print t a => Line t a
  | Call rq r => JourneysCall rq r
  end.

Definition T (A : Type) : Type := (Res A * list script_event)%type.

#[global] Instance T_ret : MRet T := fun A a => (Ok a, []).
#[global] Instance T_bind : MBind T := fun A B k w =>
  match w with
  | (Ok a, o) => let '(r, o') := k a in (r, o ++ o')
  | (Raise e, o) => (Raise e, o)
  end.

Definition line (template : string) (args : list value) : T unit :=
  (Ok tt, [Line template args]).
Definition of_D {A} (d : D A) : T A := (d.1, of_dir_event <$> d.2).
Definition of_W {A} (w : W A) : T A := (w.1, of_event <$> w.2).
Definition of_Res {A} (r : Res A) : T A := (r, []).

(** [len(v)]. *)
Definition py_len (v : value) : Res Z :=
  match v with
  | VList l => Ok (Z.of_nat (length l))
  | VDict d => Ok (Z.of_nat (length d))
  | VStr s => Ok (Z.of_nat (String.length s))
  | _ => Raise TypeError
  end.

Definition API_KEY : string := "FKAm2gGNePhDQ7PUrZUGxnqk6NEhMoi4".

Section Script.

Variable lib : pylib.

(** The outcome of the [k]-th request to each endpoint. *)
Variable places_endpoint : nat → places_request → http_outcome.
Variable journeys_endpoint : nat → request → Res value.

(** The two values the directory returned, as [find_best_route] finds
    them: a list is a list object of its own; on anything else [sort]
    is not there to call. *)
Definition stations_heap (from_stations to_stations : value) : gmap loc (list value) :=
  let h := match from_stations with
           | VList l => <[0%nat := l]> ∅
           | _ => ∅
           end in
  match to_stations with
  | VList l => <[1%nat := l]> h
  | _ => h
  end.

(** The call of [find_best_route], with the coordinates the script has
    set as globals. *)
Definition run_search (target_steps : Z) (step_length : float)
    (from_stations to_stations : value) : T value :=
  let st := State (stations_heap from_stations to_stations) 0 [] VNone 0 in
  let '(r, st') :=
    find_best_route lib journeys_endpoint
      origin_lat origin_lon destination_lat destination_lon
      0%nat 1%nat target_steps step_length API_KEY st in
  (r, of_event <$> out st').

(** The body of the [try]. *)
Definition script_try (target_steps : Z) (step_length search_radius : float)
  : T script_end :=
  line "Searching for stations from origin point..." [];;
  from_stations ← of_D (find_stations_in_radius (places_endpoint 0)
                          origin_lat origin_lon search_radius API_KEY);
  n ← of_Res (py_len from_stations);
  line "Found {} stations near origin" [VInt n];;
  line "Searching for stations from destination point..." [];;
  to_stations ← of_D (find_stations_in_radius (places_endpoint 1)
                        destination_lat destination_lon search_radius API_KEY);
  m ← of_Res (py_len to_stations);
  line "Found {} stations near destination" [VInt m];;
  if negb (truthy from_stations) || negb (truthy to_stations) then
    line "No stations found within {:.2f} km radius!" [VFloat (search_radius / 1000)%float];;
    line "Try increasing the number of target steps for a larger search area." [];;
    mret Exited
  else
    best_journey ← run_search target_steps step_length from_stations to_stations;
    if truthy best_journey then
      of_W (format_itinerary_with_steps lib (response_of [best_journey]) step_length);;
      mret Finished
    else
      line "No suitable route found!" [];;
      mret Finished.

Definition script (height : float) (target_steps : Z) : script_end * list script_event :=
  let run : T script_end :=
    step_length ← of_Res (calculate_step_length height);
    search_radius ← of_Res (calculate_distance_from_steps (target_steps / 2) step_length);
    line "Step length: {:.2f} meters" [VFloat step_length];;
    line "Search radius: {:.2f} meters" [VFloat search_radius];;
    match script_try target_steps step_length search_radius with
    | (Raise e, o) =>
        if is_RequestException e then
          (Ok Finished,
           o ++ [Line "Error accessing the API. Please check your API key and connection." [];
                 Line "Error details: {}" [exn_value e]])
        else (Raise e, o)
    | r => r
    end in
  match run with
  | (Ok e, o) => (e, o)
  | (Raise e, o) => (Crashed e, o)
  end.

End Script.

(** ** Observations *)

(** The real value of a float, 0 for what is not a finite number. *)
Definition float_value (f : float) : R :=
  match Prim2SF f with
  | S754_finite s m e => scaled (if s then Z.neg m else Z.pos m) e
  | _ => 0%R
  end.

(** The requests sent to the journeys endpoint, in order. *)
Fixpoint requests (o : list event) : list request :=
  match o with
  | [] => []
  | Call rq _ :: o' => rq :: requests o'
  | _ :: o' => requests o'
  end.

(** The requests sent to the places-nearby endpoint, in order. *)
Fixpoint places_requests (o : list dir_event) : list places_request :=
  match o with
  | [] => []
  | DCall rq _ :: o' => rq :: places_requests o'
  | _ :: o' => places_requests o'
  end.

(** The request the search sends for a pair of stations: none when the
    coordinates or the distances of the pair fail before it. *)
Definition pair_requests (lib : pylib) (from_lat from_lon to_lat to_lon : float)
    (api_key : string) (from_station to_station : value) : list request :=
  match pair_request lib from_lat from_lon to_lat to_lon api_key from_station to_station with
  | Ok rq => [rq]
  | Raise _ => []
  end.

(** The two lines [find_stations_in_radius] prints before its request. *)
Definition request_lines (center_lat center_lon : float) (distance : Z) : list dir_event :=
  [DPrint "Requesting URL: https://prim.iledefrance-mobilites.fr/marketplace/v2/navitia/coverage/fr-idf/coords/{};{}/places_nearby"
          [VFloat center_lon; VFloat center_lat];
   DPrint "With params: {}"
          [VDict [("count", VInt 100); ("distance", VInt distance);
                  ("type[]", VList [VStr "stop_point"])]%string]].

(** The requests the script sent to the journeys endpoint. *)
Fixpoint journeys_calls (o : list script_event) : list request :=
  match o with
  | [] => []
  | JourneysCall rq _ :: o' => rq :: journeys_calls o'
  | _ :: o' => journeys_calls o'
  end.

(** A runtime library whose functions raise no error of the HTTP client. *)
Definition no_http_error {A} (r : Res A) : Prop :=
  ∀ e, r = Raise e → is_RequestException e = false.

Definition quiet_lib (lib : pylib) : Prop :=
  (∀ x, no_http_error (math_sin lib x)) ∧
  (∀ x, no_http_error (math_cos lib x)) ∧
  (∀ y x, no_http_error (math_atan2 lib y x)) ∧
  (∀ x y, no_http_error (float_pow lib x y)) ∧
  (∀ s, no_http_error (float_of_str lib s)).

(** ** More test doubles *)

(** A directory that cannot be reached, and one that answers with a
    number where the list of places should be. *)
Definition down_directory : nat → places_request → http_outcome :=
  λ _ _, NoResponse (RequestException "Connection refused").

Definition odd_directory : nat → places_request → http_outcome :=
  λ _ _, Response "{}" (Ok (VDict [("places_nearby", VInt 3)]%string)).

(** The sample search with a number in place of a station, and with no
    station near the origin. *)
Definition broken_state : state :=
  empty_state (<[1%nat := [last_station]]> (<[0%nat := [VInt 3]]> ∅)).

Definition lonely_state : state :=
  empty_state (<[1%nat := [last_station]]> (<[0%nat := []]> ∅)).

Definition search_from (st : state) (service : nat → request → Res value)
  : Res value * state :=
  find_best_route flat_lib service origin_lat origin_lon destination_lat destination_lon
    0%nat 1%nat 2000 0.7 "key" st.

(** An itinerary without its sections, a payload that holds it between
    two good ones, and a service whose first payload ends with it. *)
Definition broken_journey : value := VDict [("duration", VInt 60)]%string.

Definition cut_payload : value :=
  response_of [journey_2600; broken_journey; journey_1500].

Definition half_read_payload : value := response_of [journey_1500; broken_journey].

Definition half_read_service : nat → request → Res value :=
  λ k _, Ok (if (k =? 0)%nat then half_read_payload else response_of [journey_2600]).

Arguments endpoint_coord : simpl never.
Arguments haversine_distance : simpl never.
Arguments station_coord : simpl never.
Arguments journey_walking_distance : simpl never.
Arguments calculate_walking_distance : simpl never.
Arguments calculate_steps : simpl never.
Arguments duration_minutes : simpl never.
Arguments format_section : simpl never.
Arguments EMISSIONS_get : simpl never.
Arguments EMISSIONS_item : simpl never.

Example walk_lengths :
  (calculate_walking_distance flat_lib walk_100).1 = Ok 100%float ∧
  (journey_walking_distance flat_lib journey_500).1 = Ok 500%float ∧
  (journey_walking_distance flat_lib journey_1500).1 = Ok 1500%float ∧
  (journey_walking_distance flat_lib journey_2600).1 = Ok 2600%float.
Proof. repeat split; vm_compute; reflexivity. Qed.

(** ** The order of binary64 numbers *)

Section FloatOrder.

Lemma SFcompare_rank x y :
  SFcompare x y =
    match SFrank x, SFrank y with
    | Some a, Some b => Some (lex3 a b)
    | _, _ => None
    end.
Proof.
  destruct x as [[]|[]| |[] mx ex], y as [[]|[]| |[] my ey]; try reflexivity;
    cbn [SFcompare SFrank lex3].
  f_equal. cbn. rewrite Z.compare_opp, (Z.compare_antisym ex ey).
  destruct (ex ?= ey); reflexivity.
Qed.

Lemma lex3_spec a b :
  match lex3 a b with
  | Lt => lex3_lt a b
  | Eq => a = b
  | Gt => lex3_lt b a
  end.
Proof.
  destruct a as [[a1 a2] a3], b as [[b1 b2] b3]; unfold lex3, lex3_lt; cbn.
  destruct (Z.compare_spec a1 b1), (Z.compare_spec a2 b2), (Z.compare_spec a3 b3);
    subst; try reflexivity; lia.
Qed.

Lemma lex3_lt_trans a b c : lex3_lt a b → lex3_lt b c → lex3_lt a c.
Proof. unfold lex3_lt. lia. Qed.

Lemma lex3_lt_irrefl a : ¬ lex3_lt a a.
Proof. unfold lex3_lt. lia. Qed.

Lemma is_num_rank x : is_num x ↔ ∃ a, rank x = Some a.
Proof.
  unfold is_num, is_nan, rank. rewrite FloatAxioms.eqb_spec. unfold SFeqb.
  rewrite SFcompare_rank.
  destruct (SFrank (Prim2SF x)) as [a|]; cbn.
  - pose proof (lex3_spec a a) as H. destruct (lex3 a a); cbn.
    + split; eauto.
    + now apply lex3_lt_irrefl in H.
    + now apply lex3_lt_irrefl in H.
  - split; [discriminate|]. now intros [a [=]].
Qed.

Lemma ltb_rank x y :
  (x <? y)%float = true ↔ ∃ a b, rank x = Some a ∧ rank y = Some b ∧ lex3_lt a b.
Proof.
  rewrite ltb_spec. unfold SFltb, rank. rewrite SFcompare_rank.
  destruct (SFrank (Prim2SF x)) as [a|]; [|split; [discriminate|now intros (? & ? & [=] & _)]].
  destruct (SFrank (Prim2SF y)) as [b|]; [|split; [discriminate|now intros (? & ? & _ & [=] & _)]].
  pose proof (lex3_spec a b) as H. destruct (lex3 a b).
  - split; [discriminate|]. intros (? & ? & [= <-] & [= <-] & L). subst. now apply lex3_lt_irrefl in L.
  - split; eauto.
  - split; [discriminate|]. intros (? & ? & [= <-] & [= <-] & L).
    exfalso. eapply lex3_lt_irrefl, lex3_lt_trans; eassumption.
Qed.

Lemma leb_rank x y :
  (x <=? y)%float = true ↔ ∃ a b, rank x = Some a ∧ rank y = Some b ∧ (lex3_lt a b ∨ a = b).
Proof.
  rewrite leb_spec. unfold SFleb, rank. rewrite SFcompare_rank.
  destruct (SFrank (Prim2SF x)) as [a|]; [|split; [discriminate|now intros (? & ? & [=] & _)]].
  destruct (SFrank (Prim2SF y)) as [b|]; [|split; [discriminate|now intros (? & ? & _ & [=] & _)]].
  pose proof (lex3_spec a b) as H. destruct (lex3 a b).
  - split; eauto 6.
  - split; eauto 6.
  - split; [discriminate|]. intros (? & ? & [= <-] & [= <-] & [L| ->]).
    + exfalso. eapply lex3_lt_irrefl, lex3_lt_trans; eassumption.
    + now apply lex3_lt_irrefl in H.
Qed.

Lemma ltb_is_num x y : (x <? y)%float = true → is_num x ∧ is_num y.
Proof. rewrite ltb_rank, !is_num_rank. intros (a & b & ? & ? & _). eauto. Qed.

Lemma ltb_leb x y : (x <? y)%float = true → (x <=? y)%float = true.
Proof. rewrite ltb_rank, leb_rank. intros (a & b & ? & ? & ?). eauto 6. Qed.

Lemma ltb_trans x y z :
  (x <? y)%float = true → (y <? z)%float = true → (x <? z)%float = true.
Proof.
  rewrite !ltb_rank. intros (a & b & Ha & Hb & L1) (b' & c & Hb' & Hc & L2).
  rewrite Hb in Hb'. injection Hb' as <-. exists a, c. eauto using lex3_lt_trans.
Qed.

Lemma ltb_leb_trans x y z :
  (x <? y)%float = true → (y <=? z)%float = true → (x <? z)%float = true.
Proof.
  rewrite !ltb_rank, leb_rank. intros (a & b & Ha & Hb & L1) (b' & c & Hb' & Hc & L2).
  rewrite Hb in Hb'. injection Hb' as <-.
  exists a, c. destruct L2 as [L2| ->]; eauto using lex3_lt_trans.
Qed.

Lemma not_ltb_leb x y :
  is_num x → is_num y → (x <? y)%float = false → (y <=? x)%float = true.
Proof.
  rewrite !is_num_rank. intros [a Ha] [b Hb] H.
  apply leb_rank. exists b, a. split; [assumption|]. split; [assumption|].
  pose proof (lex3_spec a b) as L.
  destruct (lex3 a b) eqn:E; auto.
  exfalso. assert ((x <? y)%float = true) as H'; [|congruence].
  apply ltb_rank. eauto.
Qed.

Lemma leb_refl x : is_num x → (x <=? x)%float = true.
Proof. rewrite is_num_rank, leb_rank. intros [a Ha]. eauto 6. Qed.

Lemma leb_not_ltb x y : (x <=? y)%float = true → (y <? x)%float = false.
Proof.
  rewrite leb_rank. intros (a & b & Ha & Hb & L).
  destruct (y <? x)%float eqn:E; [|reflexivity].
  apply ltb_rank in E. destruct E as (b' & a' & Hb' & Ha' & L').
  rewrite Ha in Ha'. rewrite Hb in Hb'. injection Ha' as <-. injection Hb' as <-.
  exfalso. destruct L as [L| ->]; eapply lex3_lt_irrefl; eauto using lex3_lt_trans.
Qed.

End FloatOrder.

Section PickBest.

Lemma pick_best_cons b c l :
  pick_best b (c :: l) = pick_best (if (c.2 <? b.2)%float then c else b) l.
Proof. reflexivity. Qed.

(** [pick_best] keeps the first candidate of minimal score. *)
Lemma pick_best_first_min l b :
  Forall (λ c, is_num c.2) l → is_num b.2 →
  (pick_best b l = b ∧ Forall (λ c, (b.2 <=? c.2)%float = true) l) ∨
  (∃ pre post, l = pre ++ pick_best b l :: post ∧
     ((pick_best b l).2 <? b.2)%float = true ∧
     Forall (λ c, ((pick_best b l).2 <? c.2)%float = true) pre ∧
     Forall (λ c, ((pick_best b l).2 <=? c.2)%float = true) post).
Proof.
  intros Hl. revert b. induction Hl as [|c l Hc Hl IH]; intros b Hb.
  - left. split; [reflexivity|constructor].
  - rewrite pick_best_cons. destruct (c.2 <? b.2)%float eqn:E.
    + right. destruct (IH c Hc) as [[-> Hall]|(pre & post & El & Hlt & Hpre & Hpost)].
      * exists [], l. auto.
      * exists (c :: pre), post. split; [cbn; congruence|].
        split; [eauto using ltb_trans|]. split; [constructor; assumption|assumption].
    + apply not_ltb_leb in E; [|assumption|assumption].
      destruct (IH b Hb) as [[-> Hall]|(pre & post & El & Hlt & Hpre & Hpost)].
      * left. split; [reflexivity|]. constructor; assumption.
      * right. exists (c :: pre), post. split; [cbn; congruence|].
        split; [assumption|]. split; [|assumption].
        constructor; [|assumption]. eauto using ltb_leb_trans.
Qed.


End PickBest.

(** ** The loop of the search *)

Section Loop.
Variable lib : pylib.
Variable service : nat → request → Res value.
Variable from_lat from_lon to_lat to_lon target : float.
Variable api_key : string.

Lemma bind_M_run {A B} (m : M A) (k : A → M B) st :
  (m ≫= k) st = match m st with
                | (Ok a, st') => k a st'
                | (Raise e, st') => (Raise e, st')
                end.
Proof. reflexivity. Qed.

Lemma liftW_run {A} (w : W A) st : liftW w st = (w.1, emit w.2 st).
Proof. reflexivity. Qed.

Lemma emit_nil st : emit [] st = st.
Proof. destruct st; unfold emit; cbn. now rewrite app_nil_r. Qed.

Lemma score_journey_run j st :
  score_journey lib target j st =
    match journey_walking_distance lib j with
    | (Raise e, o) => (Raise e, emit o st)
    | (Ok total, o) =>
        let score := abs (total - target)%float in
        if (score <? best_score st)%float then
          (Ok tt, State (heap st) (calls st)
                        (out st ++ o ++
                           [Print "Found better route with {:.0f}m walking (target: {:.0f}m)"
                                  [VFloat total; VFloat target]])
                        j score)
        else (Ok tt, emit o st)
    end.
Proof.
  unfold score_journey. rewrite bind_M_run, liftW_run.
  destruct (journey_walking_distance lib j) as [[total|e] o]; cbn [fst snd]; [|reflexivity].
  rewrite bind_M_run. cbn [get_best_score emit best_score].
  destruct (_ <? _)%float; [|reflexivity].
  rewrite bind_M_run. cbn. unfold liftW, emit; cbn. now rewrite <- app_assoc.
Qed.

Lemma events_since_app st st' o : out st' = out st ++ o → events_since st st' = o.
Proof. intros E. unfold events_since. rewrite E. apply drop_app_length. Qed.

Lemma advances_refl st : advances st st [] [].
Proof. unfold advances. cbn. rewrite app_nil_r. auto with lia. Qed.

Lemma count_calls_app o1 o2 : count_calls (o1 ++ o2) = (count_calls o1 + count_calls o2)%nat.
Proof. induction o1 as [|[]]; cbn; lia. Qed.

Lemma responses_app o1 o2 : responses (o1 ++ o2) = responses o1 ++ responses o2.
Proof. induction o1 as [|[? ?|? []]]; cbn; congruence. Qed.

Lemma pick_best_app b l1 l2 : pick_best b (l1 ++ l2) = pick_best (pick_best b l1) l2.
Proof. apply foldl_app. Qed.

Lemma advances_trans st1 st2 st3 o1 o2 c1 c2 :
  advances st1 st2 o1 c1 → advances st2 st3 o2 c2 → advances st1 st3 (o1 ++ o2) (c1 ++ c2).
Proof.
  intros (H1 & H2 & H3 & H4) (G1 & G2 & G3 & G4). unfold advances.
  rewrite G1, G2, G3, G4, H1, H2, H3, H4, count_calls_app, pick_best_app, app_assoc.
  auto with lia.
Qed.

Lemma prints_no_calls o : Forall is_print o → count_calls o = 0%nat ∧ responses o = [].
Proof. induction 1 as [|[] ? []]; cbn; auto. Qed.

Lemma advances_emit st o : Forall is_print o → advances st (emit o st) o [].
Proof.
  intros H. destruct (prints_no_calls o H) as [E _].
  unfold advances. cbn. rewrite E. auto with lia.
Qed.

Lemma trace_ok_app k o1 o2 :
  trace_ok service k o1 → trace_ok service (k + count_calls o1) o2 →
  trace_ok service k (o1 ++ o2).
Proof.
  revert k. induction o1 as [|[t a|rq r] o1 IH]; intros k; cbn.
  - now rewrite Nat.add_0_r.
  - apply IH.
  - intros (-> & Hf & H1) H2. split; [reflexivity|]. split.
    + intros e He. destruct (Hf e He) as [rest ->]. exists (rest ++ o2). now rewrite app_assoc.
    + apply IH; [assumption|]. now replace (S k + count_calls o1)%nat with (k + S (count_calls o1))%nat by lia.
Qed.

Lemma trace_ok_prints k o : Forall is_print o → trace_ok service k o.
Proof. induction 1 as [|[] ? []]; cbn; auto. Qed.

Lemma candidates_app o1 o2 :
  candidates lib target (o1 ++ o2) = candidates lib target o1 ++ candidates lib target o2.
Proof. unfold candidates. now rewrite responses_app, flat_map_app. Qed.

Lemma candidates_prints o : Forall is_print o → candidates lib target o = [].
Proof. intros H. unfold candidates. now destruct (prints_no_calls o H) as [_ ->]. Qed.

Lemma try_except_KeyError_prints {A} (body : W A) h :
  Forall is_print body.2 → (∀ k, Forall is_print (h k).2) →
  Forall is_print (try_except_KeyError body h).2.
Proof.
  intros Hb Hh. unfold try_except_KeyError.
  destruct body as [[a|[]] o]; cbn in *; try assumption.
  specialize (Hh key). destruct (h key) as [r o']. cbn in *. now apply Forall_app.
Qed.

Lemma W_bind_prints {A B} (w : W A) (k : A → W B) :
  Forall is_print w.2 → (∀ a, Forall is_print (k a).2) → Forall is_print (w ≫= k).2.
Proof.
  intros Hw Hk. destruct w as [[a|e] o]; cbn in *; [|assumption].
  specialize (Hk a). destruct (k a) as [r o']. cbn in *. now apply Forall_app.
Qed.

Lemma liftR_prints {A} (r : Res A) : Forall is_print (liftR r).2.
Proof. constructor. Qed.

Lemma mret_prints {A} (a : A) : Forall is_print (mret a : W A).2.
Proof. constructor. Qed.

Lemma print_prints t a : Forall is_print (print t a).2.
Proof. repeat constructor. Qed.

Ltac prints :=
  repeat first
    [ apply liftR_prints
    | apply mret_prints
    | apply print_prints
    | apply W_bind_prints; [|intros ?]
    | apply try_except_KeyError_prints; [|intros ?]
    | match goal with
      | |- Forall is_print (snd (if ?b then _ else _)) => destruct b
      end ].

Lemma calculate_walking_distance_prints section :
  Forall is_print (calculate_walking_distance lib section).2.
Proof. unfold calculate_walking_distance. prints. Qed.

Lemma walking_distances_prints sections :
  Forall is_print (walking_distances lib sections).2.
Proof.
  induction sections as [|s rest IH]; cbn [walking_distances]; prints;
    auto using calculate_walking_distance_prints.
Qed.

Lemma journey_walking_distance_prints j :
  Forall is_print (journey_walking_distance lib j).2.
Proof. unfold journey_walking_distance. prints. apply walking_distances_prints. Qed.

Lemma score_journeys_spec js st :
  ∃ o, Forall is_print o ∧
       advances st (score_journeys lib target js st).2 o (scored_journeys lib target js).
Proof.
  revert st. induction js as [|j rest IH]; intros st; cbn [score_journeys scored_journeys].
  - exists []. split; [constructor|apply advances_refl].
  - rewrite bind_M_run, score_journey_run.
    pose proof (journey_walking_distance_prints j) as Hp.
    destruct (journey_walking_distance lib j) as [[total|e] o0]; cbn [fst snd] in *.
    + cbv zeta. destruct (_ <? _)%float eqn:Hlt.
      * match goal with |- context [score_journeys _ _ rest ?s] => set (s1 := s) end.
        destruct (IH s1) as (o1 & Hp1 & Hadv).
        set (line := Print "Found better route with {:.0f}m walking (target: {:.0f}m)"
                           [VFloat total; VFloat target]) in *.
        assert (advances st s1 (o0 ++ [line]) [(j, abs (total - target)%float)]) as H0.
        { unfold advances, best, pick_best. cbn. rewrite Hlt.
          destruct (prints_no_calls o0 Hp) as [E _].
          rewrite count_calls_app, E. cbn. auto with lia. }
        exists ((o0 ++ [line]) ++ o1). split.
        -- apply Forall_app. split; [|exact Hp1].
           apply Forall_app. split; [exact Hp|repeat constructor].
        -- exact (advances_trans _ _ _ _ _ _ _ H0 Hadv).
      * destruct (IH (emit o0 st)) as (o1 & Hp1 & Hadv).
        assert (advances st (emit o0 st) o0 [(j, abs (total - target)%float)]) as H0.
        { unfold advances, best, pick_best. cbn. rewrite Hlt.
          destruct (prints_no_calls o0 Hp) as [E _]. rewrite E. auto with lia. }
        exists (o0 ++ o1). split.
        -- apply Forall_app. split; [exact Hp|exact Hp1].
        -- exact (advances_trans _ _ _ _ _ _ _ H0 Hadv).
    + exists o0. split; [exact Hp|]. now apply advances_emit.
Qed.

Lemma emit_emit o1 o2 st : emit o2 (emit o1 st) = emit (o1 ++ o2) st.
Proof. unfold emit. cbn. now rewrite app_assoc. Qed.

Lemma liftW_liftR_run {A} (r : Res A) st : liftW (liftR r) st = (r, st).
Proof. unfold liftW, liftR. cbn. now rewrite emit_nil. Qed.

Lemma get_itinerary_run a b c d st :
  get_itinerary service api_key a b c d st =
    let rq := Request api_key a b c d in
    let r := service (calls st) rq in
    (r, State (heap st) (S (calls st))
              (out st ++ Call rq r ::
                 match r with
                 | Raise e => if is_RequestException e
                              then [Print "Error fetching itinerary: {}" [exn_value e]]
                              else []
                 | Ok _ => []
                 end)
              (best_journey st) (best_score st)).
Proof.
  unfold get_itinerary, try_except, http_get_journeys. cbv zeta.
  destruct (service (calls st) _) as [v|e]; [reflexivity|].
  destruct (is_RequestException e); [|reflexivity].
  rewrite bind_M_run. unfold liftW, raise, emit. cbn. now rewrite <- app_assoc.
Qed.

Lemma advances_prints st o :
  Forall is_print o → advances st (emit o st) o (candidates lib target o).
Proof. intros H. rewrite candidates_prints by assumption. now apply advances_emit. Qed.

Local Abbreviation err e := (Print "Error processing route: {}" [exn_value e]).

Local Abbreviation evaluate :=
  (evaluate_pair lib service from_lat from_lon to_lat to_lon target api_key).

Ltac pair_fails :=
  cbn; rewrite ?emit_emit; eexists _, _; split; [reflexivity|]; split;
  [apply advances_prints; cbn; repeat constructor
  |split; [apply trace_ok_prints; cbn; repeat constructor|discriminate]].

Lemma evaluate_pair_spec f t st :
  ∃ st' o, evaluate f t st = (Ok tt, st') ∧
    advances st st' o (candidates lib target o) ∧
    trace_ok service (calls st) o ∧
    (is_Ok (pair_request lib from_lat from_lon to_lat to_lon api_key f t) = true →
     count_calls o = 1%nat).
Proof.
  unfold evaluate_pair, try_except, try_pair, pair_request.
  set (cf1 := station_coord lib f "lat"). set (cf2 := station_coord lib f "lon").
  set (ct1 := station_coord lib t "lat"). set (ct2 := station_coord lib t "lon").
  rewrite bind_M_run, liftW_liftR_run.
  destruct cf1 as [flat|e]; [|pair_fails].
  destruct cf2 as [flon|e]; [|pair_fails].
  cbn [mbind Res_bind].
  destruct (haversine_distance lib from_lat from_lon flat flon) as [d1|e]; [|pair_fails].
  rewrite bind_M_run, liftW_liftR_run.
  destruct ct1 as [tlat|e]; [|pair_fails].
  destruct ct2 as [tlon|e]; [|pair_fails].
  cbn [mbind Res_bind].
  destruct (haversine_distance lib tlat tlon to_lat to_lon) as [d2|e]; [|pair_fails].
  rewrite bind_M_run, liftW_run. cbn [print fst snd].
  rewrite bind_M_run, liftW_liftR_run.
  rewrite bind_M_run, get_itinerary_run. cbv zeta.
  cbn [emit calls heap out best_journey best_score].
  set (line := Print _ [VFloat (d1 / 1000)%float; _]).
  set (rq := Request api_key flat flon tlat tlon).
  destruct (service (calls st) rq) as [result|e] eqn:Hr.
  - (* the service answered *)
    rewrite bind_M_run, liftW_liftR_run.
    set (s1 := State _ _ _ _ _).
    assert (advances st s1 [line; Call rq (Ok result)] []) as H1.
    { unfold advances, best, s1. cbn. rewrite <- app_assoc. auto with lia. }
    assert (∀ o2, Forall is_print o2 →
              trace_ok service (calls st) ([line; Call rq (Ok result)] ++ o2)) as Ht.
    { intros o2 Ho2. cbn. split; [now rewrite Hr|]. split; [discriminate|].
      now apply trace_ok_prints. }
    assert (∀ o2, Forall is_print o2 →
              candidates lib target ([line; Call rq (Ok result)] ++ o2)
              = response_candidates lib target result) as Hc.
    { intros o2 Ho2. unfold candidates. cbn.
      destruct (prints_no_calls o2 Ho2) as [_ ->]. cbn. apply app_nil_r. }
    assert (∀ o2, Forall is_print o2 →
              count_calls ([line; Call rq (Ok result)] ++ o2) = 1%nat) as Hn.
    { intros o2 Ho2. cbn. now destruct (prints_no_calls o2 Ho2) as [-> _]. }
    unfold response_candidates, response_journeys in Hc.
    destruct (method_get result "journeys" VNone) as [js|e]; cbn [mbind Res_bind] in Hc.
    2:{ cbn. eexists _, ([line; Call rq (Ok result)] ++ [err e]). split; [reflexivity|].
        rewrite Hc by repeat constructor. split; [|auto using Forall_cons, Forall_nil].
        apply (advances_trans _ _ _ _ _ [] [] H1). apply advances_emit. repeat constructor.
        split; [apply Ht|intros _; apply Hn]; repeat constructor. }
    destruct (negb (truthy js)).
    { cbn. eexists _, ([line; Call rq (Ok result)] ++ []). split; [reflexivity|].
      rewrite Hc by constructor. rewrite app_nil_r. split; [exact H1|].
      split; [apply (Ht [])|intros _; apply (Hn [])]; constructor. }
    rewrite bind_M_run, liftW_liftR_run.
    destruct (_ ≫= _) as [journeys|e]; cbn [mbind Res_bind] in Hc.
    2:{ cbn. eexists _, ([line; Call rq (Ok result)] ++ [err e]). split; [reflexivity|].
        rewrite Hc by repeat constructor. split.
        - apply (advances_trans _ _ _ _ _ [] [] H1). apply advances_emit. repeat constructor.
        - split; [apply Ht|intros _; apply Hn]; repeat constructor. }
    destruct (score_journeys_spec journeys s1) as (o2 & Hp2 & H2).
    destruct (score_journeys lib target journeys s1) as [[[]|e] s2]; cbn [snd] in H2.
    + eexists _, ([line; Call rq (Ok result)] ++ o2). split; [reflexivity|].
      rewrite Hc by assumption. split; [exact (advances_trans _ _ _ _ _ [] _ H1 H2)|].
      split; [apply Ht|intros _; apply Hn]; assumption.
    + cbn. eexists _, (([line; Call rq (Ok result)] ++ o2) ++ [err e]). split; [reflexivity|].
      rewrite <- app_assoc. rewrite Hc by (apply Forall_app; split; [assumption|repeat constructor]).
      split.
      * rewrite app_assoc. rewrite <- (app_nil_r (scored_journeys _ _ _)).
        apply (advances_trans _ s2 _ _ _ _ []).
        -- exact (advances_trans _ _ _ _ _ [] _ H1 H2).
        -- apply advances_emit. repeat constructor.
      * split; [apply Ht|intros _; apply Hn]; (apply Forall_app; split; [assumption|repeat constructor]).
  - (* the request failed *)
    cbn. eexists _, (line :: Call rq (Raise e) :: failure_lines e). split; [reflexivity|].
    split; [|split].
    + unfold advances, best, candidates, failure_lines. cbn.
      destruct (is_RequestException e); cbn; rewrite <- !app_assoc; cbn; auto with lia.
    + cbn. split; [now rewrite Hr|]. split.
      * intros e' [= <-]. exists []. now rewrite app_nil_r.
      * apply trace_ok_prints. unfold failure_lines.
        destruct (is_RequestException e); repeat constructor.
    + intros _. unfold failure_lines. destruct (is_RequestException e); reflexivity.
Qed.

Local Abbreviation ready f t :=
  (is_Ok (pair_request lib from_lat from_lon to_lat to_lon api_key f t) = true).

Lemma trace_ok_advance st1 st2 o1 o2 c1 :
  advances st1 st2 o1 c1 → trace_ok service (calls st1) o1 →
  trace_ok service (calls st2) o2 → trace_ok service (calls st1) (o1 ++ o2).
Proof. intros (_ & _ & E & _) H1 H2. apply trace_ok_app; [assumption|]. now rewrite <- E. Qed.

Lemma for_to_stations_spec f ts st :
  ∃ st' o,
    for_to_stations lib service from_lat from_lon to_lat to_lon target api_key f ts st
      = (Ok tt, st') ∧
    advances st st' o (candidates lib target o) ∧
    trace_ok service (calls st) o ∧
    ((∀ t, t ∈ ts → ready f t) → count_calls o = length ts).
Proof.
  revert st. induction ts as [|t ts IH]; intros st; cbn [for_to_stations].
  - exists st, []. split; [reflexivity|]. split; [apply advances_refl|]. split; [exact I|reflexivity].
  - rewrite bind_M_run.
    destruct (evaluate_pair_spec f t st) as (s1 & o1 & E1 & A1 & T1 & N1).
    rewrite E1.
    destruct (IH s1) as (s2 & o2 & E2 & A2 & T2 & N2).
    exists s2, (o1 ++ o2). split; [exact E2|]. split; [|split].
    + rewrite candidates_app. exact (advances_trans _ _ _ _ _ _ _ A1 A2).
    + exact (trace_ok_advance _ _ _ _ _ A1 T1 T2).
    + intros H. rewrite count_calls_app, N1, N2; [reflexivity| |].
      * intros t' Ht'. apply H. now right.
      * apply H. now left.
Qed.

Lemma for_from_stations_spec fs ts st :
  ∃ st' o,
    for_from_stations lib service from_lat from_lon to_lat to_lon target api_key fs ts st
      = (Ok tt, st') ∧
    advances st st' o (candidates lib target o) ∧
    trace_ok service (calls st) o ∧
    ((∀ f t, f ∈ fs → t ∈ ts → ready f t) → count_calls o = (length fs * length ts)%nat).
Proof.
  revert st. induction fs as [|f fs IH]; intros st; cbn [for_from_stations].
  - exists st, []. split; [reflexivity|]. split; [apply advances_refl|]. split; [exact I|reflexivity].
  - rewrite bind_M_run.
    destruct (for_to_stations_spec f ts st) as (s1 & o1 & E1 & A1 & T1 & N1).
    rewrite E1.
    destruct (IH s1) as (s2 & o2 & E2 & A2 & T2 & N2).
    exists s2, (o1 ++ o2). split; [exact E2|]. split; [|split].
    + rewrite candidates_app. exact (advances_trans _ _ _ _ _ _ _ A1 A2).
    + exact (trace_ok_advance _ _ _ _ _ A1 T1 T2).
    + intros H. rewrite count_calls_app, N1, N2; cbn; [reflexivity| |].
      * intros f' t' Hf' Ht'. apply H; [now right|assumption].
      * intros t' Ht'. apply H; [now left|assumption].
Qed.

End Loop.
Section Sorting.

Lemma insert_by_key_perm k x l : insert_by_key k x l ≡ₚ (k, x) :: l.
Proof.
  induction l as [|[k' y] l IH]; cbn; [reflexivity|].
  destruct (k' <? k)%float; [|reflexivity].
  rewrite IH. apply perm_swap.
Qed.

Lemma sort_keyed_perm l : sort_keyed l ≡ₚ l.
Proof.
  induction l as [|[k x] l IH]; cbn; [reflexivity|].
  rewrite insert_by_key_perm. now rewrite IH.
Qed.

Lemma map_res_length {A B} (f : A → Res B) l ys : map_res f l = Ok ys → length ys = length l.
Proof.
  revert ys. induction l as [|x l IH]; intros ys; cbn.
  - now intros [= <-].
  - destruct (f x) as [y|e]; cbn; [|discriminate].
    destruct (map_res f l) as [ys'|e]; cbn; [|discriminate].
    intros [= <-]. cbn. f_equal. now apply IH.
Qed.

Lemma sorted_values_perm (ks : list float) (l : list value) :
  length ks = length l → (sort_keyed (zip ks l)).*2 ≡ₚ l.
Proof.
  intros H. rewrite sort_keyed_perm. rewrite snd_zip; [reflexivity|lia].
Qed.

Lemma list_sort_spec key r st :
  ∃ st', (list_sort key r st).2 = st' ∧ calls st' = calls st ∧ out st' = out st ∧
         best st' = best st ∧
         (heap st' = heap st ∨
          ∃ l l', heap st !! r = Some l ∧ l' ≡ₚ l ∧ heap st' = <[r := l']> (heap st)) ∧
         ((list_sort key r st).1 = Ok tt ∨ st' = st).
Proof.
  unfold list_sort. destruct (heap st !! r) as [l|] eqn:E.
  - destruct (map_res key l) as [ks|e] eqn:Ek.
    + eexists. split; [reflexivity|]. cbn. repeat split; auto.
      right. exists l, (sort_keyed (zip ks l)).*2. repeat split; auto.
      apply sorted_values_perm. eauto using map_res_length.
    + exists st. cbn. auto 10.
  - exists st. cbn. auto 10.
Qed.

Lemma list_sort_ok key r st st' :
  list_sort key r st = (Ok tt, st') →
  ∃ l ks, heap st !! r = Some l ∧ map_res key l = Ok ks ∧
          heap st' = <[r := (sort_keyed (zip ks l)).*2]> (heap st).
Proof.
  unfold list_sort. destruct (heap st !! r) as [l|]; [|discriminate].
  destruct (map_res key l) as [ks|e] eqn:Ek; [|discriminate].
  intros [= <-]. exists l, ks. auto.
Qed.

End Sorting.

Section Route.
Variable lib : pylib.
Variable service : nat → request → Res value.
Variable from_lat from_lon to_lat to_lon : float.
Variable from_stations to_stations : loc.
Variable target_steps : Z.
Variable step_length : float.
Variable api_key : string.

Local Abbreviation prelude :=
  (search_prelude lib from_lat from_lon to_lat to_lon from_stations to_stations
     target_steps step_length).
Local Abbreviation route :=
  (find_best_route lib service from_lat from_lon to_lat to_lon from_stations to_stations
     target_steps step_length api_key).

Lemma find_best_route_run st :
  match prelude st with
  | (Raise e, s1) => route st = (Raise e, s1)
  | (Ok (target, sf, sts), s1) =>
      ∃ st' o,
        route st = (Ok (best_journey st'), st') ∧
        advances s1 st' o (candidates lib target o) ∧
        trace_ok service (calls s1) o ∧
        ((∀ f t, f ∈ sf → t ∈ sts →
            is_Ok (pair_request lib from_lat from_lon to_lat to_lon api_key f t) = true) →
         count_calls o = (length sf * length sts)%nat)
  end.
Proof.
  unfold search_prelude, find_best_route.
  rewrite !(bind_M_run (set_best _ _)). cbn [set_best].
  set (s0 := State _ _ _ _ _).
  rewrite !(bind_M_run (liftW _)), !liftW_liftR_run.
  destruct (calculate_distance_from_steps target_steps step_length) as [target|e];
    [|reflexivity].
  rewrite !(bind_M_run (list_sort _ _)).
  destruct (list_sort _ from_stations s0) as [[[]|e] s1]; [|reflexivity].
  rewrite !(bind_M_run (list_sort _ _)).
  destruct (list_sort _ to_stations s1) as [[[]|e] s2]; [|reflexivity].
  rewrite !(bind_M_run (read_list _)).
  destruct (read_list from_stations s2) as [[fs|e] s3]; [|reflexivity].
  rewrite !(bind_M_run (read_list _)).
  destruct (read_list to_stations s3) as [[ts|e] s4]; [|reflexivity].
  destruct (select_stations target_steps fs ts) as [[sf sts] line].
  rewrite !(bind_M_run (liftW _)), !liftW_run. cbn [fst snd mret M_ret].
  rewrite bind_M_run.
  destruct (for_from_stations_spec lib service from_lat from_lon to_lat to_lon target
              api_key sf sts (emit [line] s4)) as (st' & o & E & A & T & N).
  rewrite E. exists st', o. auto.
Qed.

Lemma prelude_spec st :
  ∃ o, Forall is_print o ∧ out (prelude st).2 = out st ++ o ∧
       calls (prelude st).2 = calls st ∧
       (is_Ok (prelude st).1 = true → best (prelude st).2 = (VNone, infinity)) ∧
       (∀ r l, heap st !! r = Some l →
          ∃ l', heap (prelude st).2 !! r = Some l' ∧ l' ≡ₚ l ∧
                (r ≠ from_stations → r ≠ to_stations → l' = l)).
Proof.
  unfold search_prelude.
  rewrite !(bind_M_run (set_best _ _)). cbn [set_best].
  set (s0 := State _ _ _ _ _).
  assert (∀ r l, heap st !! r = Some l →
          ∃ l', heap s0 !! r = Some l' ∧ l' ≡ₚ l ∧
                (r ≠ from_stations → r ≠ to_stations → l' = l)) as H0 by eauto.
  assert (out s0 = out st ++ [] ∧ calls s0 = calls st ∧ best s0 = (VNone, infinity)) as (O0 & C0 & B0).
  { cbn. now rewrite app_nil_r. }
  clearbody s0.
  assert (∀ (key : value → Res float) (rr : loc) (s : state),
            (rr = from_stations ∨ rr = to_stations) →
            (∀ r l, heap st !! r = Some l →
               ∃ l', heap s !! r = Some l' ∧ l' ≡ₚ l ∧
                     (r ≠ from_stations → r ≠ to_stations → l' = l)) →
            ∀ r l, heap st !! r = Some l →
               ∃ l', heap (list_sort key rr s).2 !! r = Some l' ∧ l' ≡ₚ l ∧
                     (r ≠ from_stations → r ≠ to_stations → l' = l)) as Hsort.
  { intros key rr s Hrr Hs r l Hl.
    destruct (list_sort_spec key rr s) as (s' & -> & _ & _ & _ & [->|(l1 & l2 & E1 & P & ->)] & _);
      [now apply Hs|].
    destruct (Hs r l Hl) as (l' & E' & P' & U').
    destruct (decide (r = rr)) as [->|Hne].
    - rewrite lookup_insert_eq. exists l2. split; [reflexivity|]. split.
      + rewrite P. rewrite E1 in E'. injection E' as ->. exact P'.
      + intros ? ?. destruct Hrr; congruence.
    - rewrite lookup_insert_ne by congruence. eauto. }
  rewrite !(bind_M_run (liftW _)), !liftW_liftR_run.
  destruct (calculate_distance_from_steps target_steps step_length) as [target|e].
  2:{ exists []. cbn. repeat split; auto using Forall_nil; discriminate. }
  rewrite !(bind_M_run (list_sort _ _)).
  pose proof (Hsort (station_key lib from_lat from_lon) from_stations s0 (or_introl eq_refl) H0) as H1.
  destruct (list_sort_spec (station_key lib from_lat from_lon) from_stations s0)
    as (s1 & E1 & C1 & O1 & B1 & _ & _).
  rewrite E1 in H1.
  destruct (list_sort _ from_stations s0) as [[[]|e] s1']; cbn [snd] in E1; subst s1'.
  2:{ exists []. cbn. rewrite O1, C1. repeat split; auto using Forall_nil; discriminate. }
  rewrite !(bind_M_run (list_sort _ _)).
  pose proof (Hsort (station_key lib to_lat to_lon) to_stations s1 (or_intror eq_refl) H1) as H2.
  destruct (list_sort_spec (station_key lib to_lat to_lon) to_stations s1)
    as (s2 & E2 & C2 & O2 & B2 & _ & _).
  rewrite E2 in H2.
  destruct (list_sort _ to_stations s1) as [[[]|e] s2']; cbn [snd] in E2; subst s2'.
  2:{ exists []. cbn. rewrite O2, C2, O1, C1. repeat split; auto using Forall_nil; discriminate. }
  rewrite !(bind_M_run (read_list _)). unfold read_list.
  destruct (heap s2 !! from_stations) as [fs|].
  2:{ exists []. cbn. rewrite O2, C2, O1, C1. repeat split; auto using Forall_nil; discriminate. }
  rewrite bind_M_run.
  destruct (heap s2 !! to_stations) as [ts|].
  2:{ exists []. cbn. rewrite O2, C2, O1, C1. repeat split; auto using Forall_nil; discriminate. }
  destruct (select_stations target_steps fs ts) as [[sf sts] line] eqn:Es.
  rewrite bind_M_run, liftW_run. cbn [fst snd mret M_ret].
  exists [line]. cbn. rewrite O2, C2, O1, C1, O0, app_nil_r.
  split; [|repeat split; auto].
  - unfold select_stations in Es. destruct (_ >? _); injection Es as <- <- <-; repeat constructor.
  - intros _. unfold best in *. cbn. congruence.
Qed.

Lemma prelude_ok st target sf sts s1 :
  prelude st = (Ok (target, sf, sts), s1) →
  calculate_distance_from_steps target_steps step_length = Ok target ∧
  ∃ fs ts line, heap s1 !! from_stations = Some fs ∧ heap s1 !! to_stations = Some ts ∧
                select_stations target_steps fs ts = (sf, sts, line).
Proof.
  unfold search_prelude.
  rewrite !(bind_M_run (set_best _ _)). cbn [set_best].
  set (s0 := State _ _ _ _ _). clearbody s0.
  rewrite !(bind_M_run (liftW _)), !liftW_liftR_run.
  destruct (calculate_distance_from_steps target_steps step_length) as [tgt|e]; [|discriminate].
  rewrite !(bind_M_run (list_sort _ _)).
  destruct (list_sort _ from_stations s0) as [[[]|e] s1']; [|discriminate].
  rewrite !(bind_M_run (list_sort _ _)).
  destruct (list_sort _ to_stations s1') as [[[]|e] s2]; [|discriminate].
  rewrite !(bind_M_run (read_list _)). unfold read_list.
  destruct (heap s2 !! from_stations) as [fs|] eqn:Ef; [|discriminate].
  rewrite bind_M_run.
  destruct (heap s2 !! to_stations) as [ts|] eqn:Et; [|discriminate].
  destruct (select_stations target_steps fs ts) as [[sf' sts'] line] eqn:Es.
  rewrite bind_M_run, liftW_run. cbn [fst snd mret M_ret].
  intros [= <- <- <- <-]. split; [reflexivity|]. exists fs, ts, line. cbn. auto.
Qed.

Lemma prelude_heap st target sf sts s1 fs ts :
  prelude st = (Ok (target, sf, sts), s1) →
  from_stations ≠ to_stations →
  heap st !! from_stations = Some fs → heap st !! to_stations = Some ts →
  ∃ kf kt,
    map_res (station_key lib from_lat from_lon) fs = Ok kf ∧
    map_res (station_key lib to_lat to_lon) ts = Ok kt ∧
    heap s1 = <[to_stations := (sort_keyed (zip kt ts)).*2]>
                (<[from_stations := (sort_keyed (zip kf fs)).*2]> (heap st)).
Proof.
  unfold search_prelude. intros H Hne Hf Ht. revert H.
  rewrite !(bind_M_run (set_best _ _)). cbn [set_best].
  set (s0 := State _ _ _ _ _).
  assert (heap s0 = heap st) as H0 by reflexivity. clearbody s0.
  rewrite !(bind_M_run (liftW _)), !liftW_liftR_run.
  destruct (calculate_distance_from_steps target_steps step_length) as [tgt|e]; [|discriminate].
  rewrite !(bind_M_run (list_sort _ _)).
  destruct (list_sort _ from_stations s0) as [[[]|e] s1'] eqn:E1; [|discriminate].
  rewrite !(bind_M_run (list_sort _ _)).
  destruct (list_sort _ to_stations s1') as [[[]|e] s2] eqn:E2; [|discriminate].
  apply list_sort_ok in E1. destruct E1 as (l1 & kf & L1 & K1 & H1).
  apply list_sort_ok in E2. destruct E2 as (l2 & kt & L2 & K2 & H2).
  rewrite H0, Hf in L1. injection L1 as <-.
  rewrite H1, lookup_insert_ne, H0, Ht in L2 by assumption. injection L2 as <-.
  rewrite !(bind_M_run (read_list _)). unfold read_list.
  destruct (heap s2 !! from_stations) as [fs'|]; [|discriminate].
  rewrite bind_M_run.
  destruct (heap s2 !! to_stations) as [ts'|]; [|discriminate].
  destruct (select_stations target_steps fs' ts') as [[sf' sts'] line].
  rewrite bind_M_run, liftW_run. cbn [fst snd mret M_ret].
  intros [= <- <- <- <-]. exists kf, kt. cbn. rewrite H2, H1, H0. auto.
Qed.

(** A run that returns went through the loop: what it returns is the
    itinerary [pick_best] keeps after all the candidates of the run. *)
Lemma find_best_route_returns st j st' :
  route st = (Ok j, st') →
  ∃ target sf sts s1 o1 o,
    prelude st = (Ok (target, sf, sts), s1) ∧
    Forall is_print o1 ∧ events_since st st' = o1 ++ o ∧
    trace_ok service (calls st) o ∧
    calls st' = (calls st + count_calls o)%nat ∧ heap st' = heap s1 ∧
    (j, best_score st') = pick_best (VNone, infinity) (candidates lib target o) ∧
    ((∀ f t, f ∈ sf → t ∈ sts →
        is_Ok (pair_request lib from_lat from_lon to_lat to_lon api_key f t) = true) →
     count_calls o = (length sf * length sts)%nat).
Proof.
  intros Hrun. pose proof (find_best_route_run st) as H.
  destruct (prelude_spec st) as (o1 & Hp & Ho & Hc & Hb & _).
  destruct (prelude st) as [[[[target sf] sts]|e] s1] eqn:Ep; [|congruence].
  destruct H as (st2 & o & E & (A1 & A2 & A3 & A4) & T & N).
  rewrite E in Hrun. injection Hrun as <- <-.
  cbn [fst snd] in *. exists target, sf, sts, s1, o1, o.
  split; [reflexivity|]. split; [assumption|]. split.
  { apply events_since_app. now rewrite A2, Ho, app_assoc. }
  rewrite Hc in T. split; [assumption|]. split; [congruence|]. split; [assumption|].
  split; [|assumption]. rewrite <- Hb by reflexivity. exact A4.
Qed.

End Route.

Section Minimal.
Variable lib : pylib.
Variable service : nat → request → Res value.

Lemma scored_journeys_all target js :
  (∀ j, j ∈ js → is_Ok (journey_walking_distance lib j).1 = true) →
  scored_journeys lib target js = map (λ j, (j, score lib target j)) js.
Proof.
  induction js as [|j js IH]; intros H; cbn; [reflexivity|].
  assert (is_Ok (journey_walking_distance lib j).1 = true) as Hj by (apply H; now left).
  unfold score, walking_total.
  destruct (journey_walking_distance lib j).1; [|discriminate].
  f_equal. apply IH. intros j' Hj'. apply H. now right.
Qed.

Lemma candidates_all target o :
  well_scored lib target o →
  candidates lib target o = map (λ j, (j, score lib target j)) (all_itineraries o).
Proof.
  unfold well_scored, candidates, all_itineraries.
  induction (responses o) as [|r rs IH]; intros H; cbn; [reflexivity|].
  rewrite map_app. f_equal.
  - unfold response_candidates, journeys_of.
    destruct (response_journeys r) as [js|e] eqn:E; [|reflexivity].
    apply scored_journeys_all. intros j Hj. apply H. cbn.
    apply elem_of_app. left. unfold journeys_of. now rewrite E.
  - apply IH. intros j Hj. apply H. cbn. apply elem_of_app. now right.
Qed.

End Minimal.

Section Aggregator.
Variable lib : pylib.

Lemma W_bind_Ok {A B} (w : W A) (k : A → W B) b o :
  w ≫= k = (Ok b, o) →
  ∃ a o1 o2, w = (Ok a, o1) ∧ k a = (Ok b, o2) ∧ o = o1 ++ o2.
Proof.
  destruct w as [[a|e] o1]; cbn; [|discriminate].
  destruct (k a) as [r o2] eqn:E. intros [= -> <-]. eauto 6.
Qed.

Lemma liftR_Ok {A} (r : Res A) a o : liftR r = (Ok a, o) → r = Ok a ∧ o = [].
Proof. unfold liftR. now intros [= -> <-]. Qed.

Ltac w_bind H a E :=
  let o1 := fresh "o" in
  let o2 := fresh "o" in
  apply W_bind_Ok in H; destruct H as (a & o1 & o2 & E & H & ->).


Lemma format_section_transit step acc section d o1 mode :
  getitem section "type" = Ok (VStr "public_transport") →
  calculate_walking_distance lib section = (Ok d, o1) →
  section_mode section = Ok mode →
  ∀ acc' o, format_section lib step acc section = (Ok acc', o) →
    total_distance acc' = (total_distance acc + d / 1000)%float ∧
    total_co2 acc' = (total_co2 acc + d / 1000 * EMISSIONS_get mode)%float ∧
    total_walking_distance acc' = total_walking_distance acc.
Proof.
  intros Hty Hd Hmode acc' o H. unfold format_section in H. fold (section_mode section) in H.
  w_bind H ty E. apply liftR_Ok in E. destruct E as [E ->].
  rewrite Hty in E. injection E as <-.
  change (eq_str (VStr "public_transport") "public_transport") with true in H. cbv iota in H.
  w_bind H d' E. rewrite Hd in E. injection E as <- <-.
  w_bind H mode' E. apply liftR_Ok in E. destruct E as [E ->].
  rewrite Hmode in E. injection E as <-.
  w_bind H args E. w_bind H u E'.
  injection H as <- _. cbn. auto.
Qed.



End Aggregator.

Section Fallbacks.
Variable lib : pylib.

(** C7: what the aggregator does with the mode of a public-transport
    section.  The emission factor is looked up by the first token of
    [physical_mode] ("RER A" gives the factor of "RER"), and a mode that is
    not in the table counts for 0 g/km.  But when [physical_mode] is
    missing, empty or blank, [split()[0]] raises [IndexError] and the
    aggregator stops. *)
Theorem emission_factor_by_first_token :
  (split_0 (VStr "RER A") = Ok "RER"%string ∧ EMISSIONS_get "RER" = 3.8%float) ∧
  (∀ mode, EMISSIONS !! mode = None → EMISSIONS_get mode = 0%float) ∧
  (∀ step acc section d o1 mode acc' o,
     getitem section "type" = Ok (VStr "public_transport") →
     calculate_walking_distance lib section = (Ok d, o1) →
     section_mode section = Ok mode →
     format_section lib step acc section = (Ok acc', o) →
     total_co2 acc' = (total_co2 acc + d / 1000 * EMISSIONS_get mode)%float) ∧
  (∀ step acc section d o1 di s,
     getitem section "type" = Ok (VStr "public_transport") →
     calculate_walking_distance lib section = (Ok d, o1) →
     getitem section "display_informations" = Ok (VDict di) →
     default (VStr "") (dict_lookup "physical_mode" di) = VStr s →
     skip_spaces s = ""%string →
     format_section lib step acc section = (Raise IndexError, o1)).
Proof.
  split; [split; vm_compute; reflexivity|]. split; [|split].
  - intros mode H. unfold EMISSIONS_get. now rewrite H.
  - intros step acc section d o1 mode acc' o Hty Hd Hmode H.
    now destruct (format_section_transit lib step acc section d o1 mode Hty Hd Hmode acc' o H)
      as (_ & ? & _).
  - intros step acc section d o1 di s Hty Hd Hdi Hpm Hs.
    unfold format_section. rewrite Hty.
    change (eq_str (VStr "public_transport") "public_transport") with true.
    cbn [liftR mbind W_bind]. rewrite Hd. cbn [mbind W_bind].
    rewrite Hdi. cbn [mbind Res_bind method_get]. rewrite Hpm.
    unfold split_0. rewrite Hs. cbn. now rewrite app_nil_r.
Qed.

Lemma endpoint_coord_lacks d side e :
  dict_lookup side d = Some e → lacks_coordinates e →
  endpoint_coord (VDict d) side = Raise (KeyError "address") ∨
  endpoint_coord (VDict d) side = Raise (KeyError "stop_point").
Proof.
  intros Hs (d' & -> & _ & Ha & Hp).
  unfold endpoint_coord. cbn. rewrite Hs. cbn.
  destruct (eq_str _ _); cbn; rewrite ?Ha, ?Hp; auto.
Qed.

(** C8, as the program has it.  A section without a [from] or a [to] gets
    the distance 0 and nothing is printed.  When both are there and the
    first endpoint that cannot be resolved is an object with neither an
    [address] nor a [stop_point], the section gets the distance 0 and the
    two lines of the [KeyError] handler are printed.  Neither case raises. *)
Theorem calculate_walking_distance_fallback (d : list (string * value)) :
  (endpoint_absent d → calculate_walking_distance lib (VDict d) = (Ok 0%float, [])) ∧
  (¬ endpoint_absent d →
   lacks_coordinates (endpoint_of d "from") ∨
   (is_Ok (endpoint_coord (VDict d) "from") = true ∧
    lacks_coordinates (endpoint_of d "to")) →
   ∃ k, calculate_walking_distance lib (VDict d) = (Ok 0%float, key_error_lines k)).
Proof.
  unfold endpoint_absent, endpoint_of, calculate_walking_distance. cbn.
  split.
  - intros [H|H].
    + rewrite H. reflexivity.
    + destruct (truthy (default VNone (dict_lookup "from" d))); cbn; [|reflexivity].
      rewrite H. reflexivity.
  - intros Hn Hc.
    destruct (truthy (default VNone (dict_lookup "from" d))) eqn:Hf; [|tauto].
    destruct (truthy (default VNone (dict_lookup "to" d))) eqn:Ht; [|tauto].
    cbn.
    destruct Hc as [Hl|[Hok Hl]].
    + destruct (dict_lookup "from" d) as [f|] eqn:Ef; [|discriminate].
      destruct (endpoint_coord_lacks d "from" f Ef Hl) as [E|E]; rewrite E; cbn; eauto.
    + destruct (endpoint_coord (VDict d) "from") as [c|] eqn:Ec; [|discriminate]. cbn.
      destruct (dict_lookup "to" d) as [t|] eqn:Et; [|discriminate].
      destruct (endpoint_coord_lacks d "to" t Et Hl) as [E|E]; rewrite E; cbn; eauto.
Qed.

End Fallbacks.


Section Selection.

(** C2. On sorted lists of more than [MAX_STATIONS] stations, a target above
    3000 steps selects the last [MAX_STATIONS] stations of each list, which
    are the farthest ones, and a target of 3000 steps or fewer selects the
    first [MAX_STATIONS], which are the closest ones. *)
Theorem select_stations_policy (target_steps : Z) (key_from key_to : value → float)
    (fs ts : list value) :
  sorted_by key_from fs → sorted_by key_to ts →
  (MAX_STATIONS < length fs)%nat → (MAX_STATIONS < length ts)%nat →
  let sf := (select_stations target_steps fs ts).1.1 in
  let st := (select_stations target_steps fs ts).1.2 in
  length sf = MAX_STATIONS ∧ length st = MAX_STATIONS ∧
  (3000 < target_steps →
     fs = take (length fs - MAX_STATIONS) fs ++ sf ∧
     ts = take (length ts - MAX_STATIONS) ts ++ st ∧
     (∀ x y, x ∈ take (length fs - MAX_STATIONS) fs → y ∈ sf →
             (key_from x <=? key_from y)%float = true) ∧
     (∀ x y, x ∈ take (length ts - MAX_STATIONS) ts → y ∈ st →
             (key_to x <=? key_to y)%float = true)) ∧
  (target_steps ≤ 3000 →
     fs = sf ++ drop MAX_STATIONS fs ∧
     ts = st ++ drop MAX_STATIONS ts ∧
     (∀ x y, x ∈ sf → y ∈ drop MAX_STATIONS fs →
             (key_from x <=? key_from y)%float = true) ∧
     (∀ x y, x ∈ st → y ∈ drop MAX_STATIONS ts →
             (key_to x <=? key_to y)%float = true)).
Proof.
  intros Sf St Lf Lt. unfold select_stations, slice_last, slice_first.
  destruct (target_steps >? 3000) eqn:E; cbn [fst snd].
  - apply Z.gtb_lt in E. split; [rewrite length_drop; lia|].
    split; [rewrite length_drop; lia|]. split; [|lia]. intros _.
    pose proof (take_drop (length fs - MAX_STATIONS) fs) as Ef.
    pose proof (take_drop (length ts - MAX_STATIONS) ts) as Et.
    split; [now rewrite Ef|]. split; [now rewrite Et|].
    unfold sorted_by in *. rewrite <- Ef in Sf. rewrite <- Et in St.
    split; intros x y Hx Hy.
    + exact (StronglySorted_app_1_elem_of
               (λ x y, (key_from x <=? key_from y)%float = true) _ _ x y Sf Hx Hy).
    + exact (StronglySorted_app_1_elem_of
               (λ x y, (key_to x <=? key_to y)%float = true) _ _ x y St Hx Hy).
  - assert (target_steps ≤ 3000) as E' by (destruct (Z.gtb_spec target_steps 3000); [discriminate|lia]).
    split; [rewrite length_take; lia|]. split; [rewrite length_take; lia|].
    split; [lia|]. intros _.
    pose proof (take_drop MAX_STATIONS fs) as Ef.
    pose proof (take_drop MAX_STATIONS ts) as Et.
    split; [now rewrite Ef|]. split; [now rewrite Et|].
    unfold sorted_by in *. rewrite <- Ef in Sf. rewrite <- Et in St.
    split; intros x y Hx Hy.
    + exact (StronglySorted_app_1_elem_of
               (λ x y, (key_from x <=? key_from y)%float = true) _ _ x y Sf Hx Hy).
    + exact (StronglySorted_app_1_elem_of
               (λ x y, (key_to x <=? key_to y)%float = true) _ _ x y St Hx Hy).
Qed.

End Selection.

Section Claims.
Variable lib : pylib.
Variable service : nat → request → Res value.

Lemma candidates_skip_prints target o1 o :
  Forall is_print o1 → candidates lib target (o1 ++ o) = candidates lib target o.
Proof. intros H. now rewrite candidates_app, candidates_prints. Qed.

Lemma all_itineraries_skip_prints o1 o :
  Forall is_print o1 → all_itineraries (o1 ++ o) = all_itineraries o.
Proof.
  intros H. unfold all_itineraries. rewrite responses_app.
  now destruct (prints_no_calls o1 H) as [_ ->].
Qed.


Lemma scored_journeys_subset target js c :
  c ∈ scored_journeys lib target js → c.1 ∈ js.
Proof.
  induction js as [|j js IH]; cbn; [inversion 1|].
  destruct (journey_walking_distance lib j).1; [|inversion 1].
  intros H. apply elem_of_cons in H. destruct H as [->|H]; [now left|right; auto].
Qed.

Lemma candidates_from_responses target o c :
  c ∈ candidates lib target o → ∃ result, result ∈ responses o ∧ c.1 ∈ journeys_of result.
Proof.
  unfold candidates. intros H. apply list_elem_of_In, in_flat_map in H.
  destruct H as (result & Hr & Hc). exists result. split; [now apply list_elem_of_In|].
  apply list_elem_of_In in Hc. unfold response_candidates, journeys_of in *.
  destruct (response_journeys result); [|inversion Hc].
  eauto using scored_journeys_subset.
Qed.


Lemma trace_ok_nth k o k0 :
  trace_ok service k o → (k0 < count_calls o)%nat →
  ∃ pre rq post,
    o = pre ++ Call rq (service (k + k0) rq) :: post ∧ count_calls pre = k0 ∧
    (∀ e, service (k + k0) rq = Raise e → ∃ rest, post = failure_lines e ++ rest).
Proof.
  revert k k0. induction o as [|[tpl a|rq r] o IH]; intros k k0; cbn.
  - lia.
  - intros H Hk. destruct (IH k k0 H Hk) as (pre & rq & post & -> & Hc & Hf).
    exists (Print tpl a :: pre), rq, post. auto.
  - intros (-> & Hf & H) Hk. destruct k0 as [|k0].
    + exists [], rq, o. rewrite Nat.add_0_r. auto.
    + destruct (IH (S k) k0 H ltac:(lia)) as (pre & rq' & post & -> & Hc & Hf').
      exists (Call rq (service k rq) :: pre), rq', post.
      replace (k + S k0)%nat with (S k + k0)%nat by lia. cbn. auto.
Qed.

Lemma failure_lines_prints e : Forall is_print (failure_lines e).
Proof. unfold failure_lines. destruct (is_RequestException e); repeat constructor. Qed.


End Claims.

(** ** Rounding of binary64 numbers *)

Section Shift.

Lemma iter_pos_nat {A} (f : A → A) p x :
  SpecFloat.iter_pos f p x = Nat.iter (Pos.to_nat p) f x.
Proof.
  revert x. induction p as [p IH|p IH|]; intros x; cbn [SpecFloat.iter_pos].
  - rewrite !IH, Pos2Nat.inj_xI.
    replace (S (2 * Pos.to_nat p)) with (Pos.to_nat p + (Pos.to_nat p + 1))%nat by lia.
    now rewrite !Nat.iter_add.
  - rewrite !IH, Pos2Nat.inj_xO.
    replace (2 * Pos.to_nat p)%nat with (Pos.to_nat p + Pos.to_nat p)%nat by lia.
    now rewrite Nat.iter_add.
  - reflexivity.
Qed.


Lemma shr_1_spec r :
  0 ≤ shr_m r →
  shr_m (shr_1 r) = shr_m r / 2 ∧
  inexact (shr_1 r) = Z.odd (shr_m r) || inexact r.
Proof.
  destruct r as [m rb sb]. unfold inexact. cbn [shr_m shr_r shr_s].
  intros Hm. destruct m as [|[p|p|]|p]; try lia; cbn [shr_1 shr_m shr_r shr_s].
  - split; reflexivity.
  - split; [|reflexivity]. rewrite Pos2Z.inj_xI.
    apply Z.div_unique with 1; lia.
  - split; [|reflexivity].
    rewrite Pos2Z.inj_xO. apply Z.div_unique with 0; lia.
  - split; reflexivity.
Qed.

Lemma shr_iter_spec n r :
  0 ≤ shr_m r →
  shr_m (Nat.iter n shr_1 r) = shr_m r / 2 ^ Z.of_nat n ∧
  (inexact (Nat.iter n shr_1 r) = false ↔
   inexact r = false ∧ shr_m r mod 2 ^ Z.of_nat n = 0).
Proof.
  intros Hm. induction n as [|n [IHm IHi]].
  - cbn [Nat.iter]. rewrite Z.div_1_r, Z.mod_1_r. tauto.
  - change (Nat.iter (S n) shr_1 r) with (shr_1 (Nat.iter n shr_1 r)).
    assert (0 ≤ shr_m (Nat.iter n shr_1 r)) as Hn.
    { rewrite IHm. apply Z.div_pos; [lia|]. apply Z.pow_pos_nonneg; lia. }
    destruct (shr_1_spec _ Hn) as [E1 E2]. rewrite E1, E2, IHm.
    rewrite Nat2Z.inj_succ, Z.pow_succ_r by lia.
    assert (0 < 2 ^ Z.of_nat n) as Hp by (apply Z.pow_pos_nonneg; lia).
    split.
    + rewrite (Z.mul_comm 2), <- Z.div_div by lia. reflexivity.
    + rewrite orb_false_iff, IHi.
      set (m := shr_m r) in *. set (b := 2 ^ Z.of_nat n) in *.
      rewrite (Z.mul_comm 2 b), Z.rem_mul_r by lia.
      assert (0 ≤ m mod b < b) as Hb by (apply Z.mod_pos_bound; lia).
      rewrite Zmod_odd. destruct (Z.odd (m / b)); split.
      * intros [[=] _].
      * intros [_ H]. nia.
      * intros [_ [Hi Hz]]. split; [assumption|lia].
      * intros [Hi Hz]. split; [reflexivity|]. split; [assumption|lia].
Qed.

End Shift.

(** Powers of two with a variable exponent are opaque to [lia]. *)
Ltac gen_pow :=
  repeat match goal with
         | |- context [2 ^ ?x] => let y := fresh "pw" in set (y := 2 ^ x) in *; clearbody y
         | H : context [2 ^ ?x] |- _ =>
             let y := fresh "pw" in set (y := 2 ^ x) in *; clearbody y
         end.

Section Digits.

Lemma digits2_pos_spec p :
  2 ^ (Z.pos (digits2_pos p) - 1) ≤ Z.pos p < 2 ^ Z.pos (digits2_pos p).
Proof.
  induction p as [p IH|p IH|]; cbn [digits2_pos].
  - rewrite Pos2Z.inj_succ. change (Z.pos p~1) with (2 * Z.pos p + 1).
    replace (Z.succ (Z.pos (digits2_pos p)) - 1) with (Z.succ (Z.pos (digits2_pos p) - 1)) by lia.
    rewrite !Z.pow_succ_r by lia. gen_pow. lia.
  - rewrite Pos2Z.inj_succ. change (Z.pos p~0) with (2 * Z.pos p).
    replace (Z.succ (Z.pos (digits2_pos p)) - 1) with (Z.succ (Z.pos (digits2_pos p) - 1)) by lia.
    rewrite !Z.pow_succ_r by lia. gen_pow. lia.
  - cbn. lia.
Qed.

Lemma Zdigits2_spec m : 0 < m → 2 ^ (Zdigits2 m - 1) ≤ m < 2 ^ Zdigits2 m.
Proof. destruct m as [|p|p]; try lia. intros _. apply digits2_pos_spec. Qed.

Lemma Zdigits2_nonneg m : 0 ≤ Zdigits2 m.
Proof. destruct m; cbn; lia. Qed.

Lemma Zdigits2_pos m : 0 < m → 0 < Zdigits2 m.
Proof. destruct m; cbn; lia. Qed.

Lemma pow2_lt_inv a b : 0 ≤ b → 2 ^ a < 2 ^ b → a < b.
Proof.
  intros Hb H. destruct (Z.lt_ge_cases a b) as [|Hge]; [assumption|].
  assert (2 ^ b ≤ 2 ^ a) by (apply Z.pow_le_mono_r; lia). lia.
Qed.

Lemma Zdigits2_unique m d : 0 < m → 2 ^ (d - 1) ≤ m < 2 ^ d → Zdigits2 m = d.
Proof.
  intros Hm [H1 H2]. pose proof (Zdigits2_spec m Hm) as [G1 G2].
  pose proof (Zdigits2_pos m Hm) as Hd.
  assert (0 < d).
  { destruct (Z.lt_ge_cases 0 d) as [|Hle]; [assumption|].
    assert (2 ^ d ≤ 1); [|lia].
    destruct (Z.eq_dec d 0) as [->|]; [cbn; lia|]. rewrite Z.pow_neg_r; lia. }
  assert (d - 1 < Zdigits2 m) by (apply pow2_lt_inv; lia).
  assert (Zdigits2 m - 1 < d) by (apply pow2_lt_inv; lia).
  lia.
Qed.

(** The digits of a number shifted right. *)
Lemma Zdigits2_div m j :
  0 < m → 0 ≤ j → 0 < m / 2 ^ j → Zdigits2 (m / 2 ^ j) = Zdigits2 m - j.
Proof.
  intros Hm Hj Hq. pose proof (Zdigits2_spec m Hm) as [G1 G2].
  assert (0 < 2 ^ j) as Hp by (apply Z.pow_pos_nonneg; lia).
  assert (j < Zdigits2 m) as Hlt.
  { apply pow2_lt_inv; [apply Zdigits2_nonneg|].
    assert (2 ^ j ≤ m); [|lia].
    destruct (Z.lt_ge_cases m (2 ^ j)) as [Hs|]; [|assumption].
    rewrite Z.div_small in Hq; lia. }
  apply Zdigits2_unique; [assumption|].
  split.
  - apply Z.div_le_lower_bound; [assumption|].
    rewrite <- Z.pow_add_r by lia. now replace (j + (Zdigits2 m - j - 1)) with (Zdigits2 m - 1) by lia.
  - apply Z.div_lt_upper_bound; [assumption|].
    rewrite <- Z.pow_add_r by lia. now replace (j + (Zdigits2 m - j)) with (Zdigits2 m) by lia.
Qed.

(** The digits of the successor. *)
Lemma Zdigits2_succ m :
  0 ≤ m →
  Zdigits2 (m + 1) = Zdigits2 m ∨
  (Zdigits2 (m + 1) = Zdigits2 m + 1 ∧ m + 1 = 2 ^ Zdigits2 m).
Proof.
  intros Hm. destruct (Z.eq_dec m 0) as [->|Hne]; [right; split; reflexivity|].
  pose proof (Zdigits2_spec m ltac:(lia)) as [G1 G2].
  pose proof (Zdigits2_pos m ltac:(lia)) as Hd.
  destruct (Z.eq_dec (m + 1) (2 ^ Zdigits2 m)) as [E|E].
  - right. split; [|assumption]. apply Zdigits2_unique; [lia|].
    replace (Zdigits2 m + 1 - 1) with (Zdigits2 m) by lia.
    rewrite Z.pow_add_r by lia. lia.
  - left. apply Zdigits2_unique; lia.
Qed.

End Digits.

Section Round.

Lemma location_eq_dec (l : location) : {l = loc_Exact} + {l ≠ loc_Exact}.
Proof. destruct l; [now left|now right]. Qed.


Lemma fexp_eq x : fexp prec emax x = Z.max (x - 53) (-1074).
Proof. reflexivity. Qed.

Lemma shr_spec r e k :
  0 ≤ shr_m r →
  (shr r e k).2 = e + Z.max k 0 ∧
  shr_m (shr r e k).1 = shr_m r / 2 ^ Z.max k 0 ∧
  (inexact (shr r e k).1 = false ↔
   inexact r = false ∧ shr_m r mod 2 ^ Z.max k 0 = 0).
Proof.
  intros Hm. destruct k as [|p|p]; cbn [shr fst snd].
  - cbn [Z.max Z.compare]. rewrite Z.add_0_r, Z.div_1_r, Z.mod_1_r. tauto.
  - rewrite iter_pos_nat. replace (Z.max (Z.pos p) 0) with (Z.of_nat (Pos.to_nat p)) by lia.
    split; [lia|]. now apply shr_iter_spec.
  - replace (Z.max (Z.neg p) 0) with 0 by lia.
    rewrite Z.add_0_r, Z.div_1_r, Z.mod_1_r. tauto.
Qed.

Lemma shr_record_of_loc_spec m l :
  shr_m (shr_record_of_loc m l) = m ∧
  (inexact (shr_record_of_loc m l) = false ↔ l = loc_Exact).
Proof. destruct l as [|[]]; cbn; split; try reflexivity; split; congruence. Qed.

Lemma round_nearest_even_spec r :
  let m1 := round_nearest_even (shr_m r) (loc_of_shr_record r) in
  m1 = shr_m r ∨ (m1 = shr_m r + 1 ∧ inexact r = true).
Proof.
  destruct r as [m [] []]; cbn; auto.
  destruct (Z.even m); auto.
Qed.

(** What [binary_round_aux] returns for the mantissa [m], the exponent [e]
    and the location [l]: with [E] the exponent of the format for that
    number, a mantissa and an exponent worth [m / 2 ^ (E - e)] units of
    [2 ^ E], or one unit more when some bit was lost. *)
Lemma binary_round_aux_spec sx m e l :
  0 ≤ m →
  let E := Z.max e (fexp prec emax (Zdigits2 m + e)) in
  ∃ m2 e2,
    0 ≤ m2 ∧ E ≤ e2 ∧
    (m2 * 2 ^ (e2 - E) = m / 2 ^ (E - e) ∨
     (m2 * 2 ^ (e2 - E) = m / 2 ^ (E - e) + 1 ∧
      (l ≠ loc_Exact ∨ m mod 2 ^ (E - e) ≠ 0))) ∧
    binary_round_aux prec emax sx m e l =
      match m2 with
      | Z0 => S754_zero sx
      | Zpos p => if e2 <=? emax - prec then S754_finite sx p e2 else S754_infinity sx
      | Zneg _ => S754_nan
      end.
Proof.
  intros Hm E. unfold binary_round_aux, shr_fexp.
  set (d := Zdigits2 m) in *. set (t := fexp prec emax (d + e)) in *.
  destruct (shr_record_of_loc_spec m l) as [R0 R0i].
  destruct (shr_spec (shr_record_of_loc m l) e (t - e) ltac:(lia)) as (S1 & S2 & S3).
  destruct (shr (shr_record_of_loc m l) e (t - e)) as [r1 e1]. cbn [fst snd] in S1, S2, S3.
  replace (e + Z.max (t - e) 0) with E in S1 by (unfold E; lia).
  replace (Z.max (t - e) 0) with (E - e) in S2, S3 by (unfold E; lia).
  rewrite R0 in S2, S3. rewrite R0i in S3. subst e1.
  assert (0 < 2 ^ (E - e)) as Hp by (apply Z.pow_pos_nonneg; unfold E; lia).
  set (m0 := m / 2 ^ (E - e)) in *.
  assert (0 ≤ m0) as Hm0 by (apply Z.div_pos; lia).
  pose proof (round_nearest_even_spec r1) as Hr. cbv zeta in Hr.
  set (m1 := round_nearest_even (shr_m r1) (loc_of_shr_record r1)) in *.
  rewrite S2 in Hr.
  assert (0 ≤ m1) as Hm1 by lia.
  set (k2 := fexp prec emax (Zdigits2 m1 + E) - E).
  destruct (shr_record_of_loc_spec m1 loc_Exact) as [Q0 _].
  destruct (shr_spec (shr_record_of_loc m1 loc_Exact) E k2 ltac:(lia)) as (T1 & T2 & _).
  destruct (shr (shr_record_of_loc m1 loc_Exact) E k2) as [r2 e2]. cbn [fst snd] in T1, T2.
  rewrite Q0 in T2.
  (* the second shift loses no bit *)
  assert (Z.max k2 0 = 0 ∨ (Z.max k2 0 = 1 ∧ ∃ dd, 1 ≤ dd ∧ m1 = 2 ^ dd)) as Hk2.
  { assert (m0 = 0 ∧ Zdigits2 m0 = 0 ∨ 0 < m0 ∧ Zdigits2 m0 = d - (E - e)) as Hd0.
    { destruct (Z.eq_dec m0 0) as [Hz|Hz]; [left; now rewrite Hz|right].
      split; [lia|].
      assert (0 < m) as Hmp.
      { destruct (Z.eq_dec m 0) as [Hmz|]; [|lia]. exfalso. apply Hz. unfold m0.
        rewrite Hmz. apply Z.div_0_l. lia. }
      assert (0 ≤ E - e) as HEe by (unfold E; lia).
      assert (0 < m0) as Hm0p by lia.
      exact (Zdigits2_div m (E - e) Hmp HEe Hm0p). }
    assert (Zdigits2 m1 = Zdigits2 m0 ∨
            (Zdigits2 m1 = Zdigits2 m0 + 1 ∧ m1 = 2 ^ Zdigits2 m0)) as Hd1.
    { destruct Hr as [->|[-> _]]; [now left|]. now apply Zdigits2_succ. }
    unfold k2, E, t in *. rewrite !fexp_eq in *.
    destruct Hd0 as [[Hz Hd0]|[Hz Hd0]], Hd1 as [Hd1|[Hd1 Hpow]].
    - left. lia.
    - left. lia.
    - left. lia.
    - destruct (Z.eq_dec (Z.max (Z.max (Zdigits2 m1 + Z.max e (Z.max (d + e - 53) (-1074)) - 53) (-1074)
                                   - Z.max e (Z.max (d + e - 53) (-1074))) 0) 0) as [|Hne];
        [now left|right].
      split; [lia|]. exists (Zdigits2 m0). split; [|assumption].
      pose proof (Zdigits2_pos m0 Hz). lia. }
  assert (m1 mod 2 ^ Z.max k2 0 = 0) as Hmod.
  { destruct Hk2 as [->|[-> (dd & Hdd & ->)]]; [apply Z.mod_1_r|].
    replace dd with (Z.succ (dd - 1)) by lia. rewrite Z.pow_succ_r by lia.
    rewrite Z.mul_comm. apply Z.mod_mul. lia. }
  exists (shr_m r2), e2. subst e2.
  assert (0 < 2 ^ Z.max k2 0) as Hp2 by (apply Z.pow_pos_nonneg; lia).
  split; [rewrite T2; apply Z.div_pos; lia|]. split; [lia|]. split.
  - replace (E + Z.max k2 0 - E) with (Z.max k2 0) by lia.
    assert (shr_m r2 * 2 ^ Z.max k2 0 = m1) as Hv.
    { rewrite T2. pose proof (Z.div_mod m1 (2 ^ Z.max k2 0) ltac:(lia)). lia. }
    rewrite Hv. destruct Hr as [->|[-> Hi]]; [now left|right].
    split; [reflexivity|].
    destruct (location_eq_dec l) as [->|]; [|now left]. right. intros Hz.
    assert (inexact r1 = false) by (apply S3; auto). congruence.
  - reflexivity.
Qed.

End Round.


(** ** The stride of a height that is not positive *)

Section Sign.

Lemma leb_zero_nonpos x : (x <=? 0)%float = nonpos (Prim2SF x).
Proof.
  rewrite leb_spec. change (Prim2SF 0%float) with (S754_zero false).
  now destruct (Prim2SF x) as [[]|[]| |[] ? ?].
Qed.

Lemma binary_round_aux_nonpos m e l :
  0 ≤ m → nonpos (binary_round_aux prec emax true m e l) = true.
Proof.
  intros Hm. destruct (binary_round_aux_spec true m e l Hm) as (m2 & e2 & H2 & _ & _ & ->).
  destruct m2 as [|p|p]; [reflexivity| |lia].
  now destruct (e2 <=? emax - prec).
Qed.

Lemma SFdiv_core_binary_nonneg m1 e1 m2 e2 :
  0 ≤ m1 → 0 < m2 → 0 ≤ (SFdiv_core_binary prec emax m1 e1 m2 e2).1.1.
Proof.
  intros H1 H2. unfold SFdiv_core_binary.
  set (s := e1 - e2 - _). set (m' := match s with Z0 => m1 | Zpos _ => Z.shiftl m1 s | Zneg _ => 0 end).
  assert (0 ≤ m') as Hm'.
  { unfold m'. destruct s; [assumption| |lia]. now apply Z.shiftl_nonneg. }
  pose proof (Z_div_mod m' m2 ltac:(lia)) as Hd.
  destruct (Z.div_eucl m' m2) as [q r]. cbn. nia.
Qed.

Lemma SFdiv_nonpos x y :
  nonpos x = true → positive_finite y = true → nonpos (SFdiv prec emax x y) = true.
Proof.
  destruct y as [| | |[] my ey]; try discriminate. intros Hx _.
  destruct x as [sx|sx| |sx mx ex]; cbn in Hx |- *; try congruence;
    subst sx; [reflexivity|].
  pose proof (SFdiv_core_binary_nonneg (Z.pos mx) ex (Z.pos my) ey ltac:(lia) ltac:(lia)) as Hq.
  destruct (SFdiv_core_binary prec emax (Z.pos mx) ex (Z.pos my) ey) as [[mz ez] lz].
  now apply binary_round_aux_nonpos.
Qed.

Lemma SFmul_nonpos x y :
  nonpos x = true → positive_finite y = true → nonpos (SFmul prec emax x y) = true.
Proof.
  destruct y as [| | |[] my ey]; try discriminate. intros Hx _.
  destruct x as [sx|sx| |sx mx ex]; cbn in Hx |- *; try congruence;
    subst sx; [reflexivity|].
  now apply binary_round_aux_nonpos.
Qed.

End Sign.

Section StepLength.

(** C6, as the code has it: the stride is computed for every height, and
    for a height that is not positive it is returned as a stride that is
    not positive either. *)
Theorem calculate_step_length_no_validation (height_cm : float) :
  (height_cm <=? 0)%float = true →
  ∃ s, calculate_step_length height_cm = Ok s ∧
       s = (height_cm / 100 * 0.414)%float ∧
       (s <=? 0)%float = true.
Proof.
  intros Hh. eexists. split; [reflexivity|]. split; [reflexivity|].
  rewrite leb_zero_nonpos in Hh |- *.
  rewrite mul_spec, div_spec.
  apply SFmul_nonpos; [apply SFdiv_nonpos|]; [assumption|reflexivity|reflexivity].
Qed.

End StepLength.


(** ** Floats as real numbers *)

Section Scaled.
Local Open Scope R_scope.

Lemma pow2_pos e : 0 < powerRZ 2 e.
Proof. apply powerRZ_lt. lra. Qed.

Lemma pow2_add a b : powerRZ 2 (a + b) = powerRZ 2 a * powerRZ 2 b.
Proof. apply powerRZ_add. lra. Qed.

Lemma pow2_IZR k : (0 ≤ k)%Z → IZR (2 ^ k) = powerRZ 2 k.
Proof.
  intros Hk. rewrite <- (Z2Nat.id k Hk) at 1 2.
  rewrite <- pow_IZR, <- pow_powerRZ. reflexivity.
Qed.

Lemma pow2_le a b : (a ≤ b)%Z → powerRZ 2 a <= powerRZ 2 b.
Proof.
  intros H. replace b with (a + (b - a))%Z by lia. rewrite pow2_add.
  rewrite <- (pow2_IZR (b - a)) by lia.
  assert (1 <= 2 ^ (b - a))%Z as H1 by (apply Z.lt_pred_le, Z.pow_pos_nonneg; lia).
  apply IZR_le in H1. pose proof (pow2_pos a). nra.
Qed.

Lemma powerRZ2_lt_inv a b : powerRZ 2 a < powerRZ 2 b → (a < b)%Z.
Proof.
  intros H. destruct (Z_lt_le_dec a b) as [|Hle]; [assumption|].
  apply pow2_le in Hle. lra.
Qed.

Lemma scaled_le a b e : (a ≤ b)%Z → scaled a e <= scaled b e.
Proof.
  intros H. unfold scaled. apply IZR_le in H. pose proof (pow2_pos e). nra.
Qed.

Lemma scaled_lt a b e : (a < b)%Z → scaled a e < scaled b e.
Proof.
  intros H. unfold scaled. apply IZR_lt in H. pose proof (pow2_pos e). nra.
Qed.

Lemma scaled_lt_inv a b e : scaled a e < scaled b e → (a < b)%Z.
Proof.
  intros H. destruct (Z_lt_le_dec a b) as [|Hle]; [assumption|].
  apply (scaled_le _ _ e) in Hle. lra.
Qed.

Lemma scaled_le_inv a b e : scaled a e <= scaled b e → (a ≤ b)%Z.
Proof.
  intros H. destruct (Z_le_gt_dec a b) as [|Hgt]; [assumption|].
  apply Z.gt_lt, (scaled_lt _ _ e) in Hgt. lra.
Qed.

Lemma scaled_shift m e k : (0 ≤ k)%Z → scaled (m * 2 ^ k) e = scaled m (e + k).
Proof.
  intros Hk. unfold scaled. rewrite mult_IZR, pow2_IZR, pow2_add by assumption. ring.
Qed.

Lemma scaled_plus a b e : scaled (a + b) e = scaled a e + scaled b e.
Proof. unfold scaled. rewrite plus_IZR. ring. Qed.

End Scaled.

Section Faithful.
Local Open Scope R_scope.

(** [binary_round_aux] is a faithful rounding: given a mantissa and a
    location that enclose the real number [X], it returns a number of the
    grid of step [2 ^ E], and no number of the grid lies strictly between
    [X] and the result. *)
Lemma binary_round_aux_faithful sx m e l (X : R) :
  (0 ≤ m)%Z →
  scaled m e <= X → X < scaled (m + 1) e →
  (l ≠ loc_Exact → scaled m e < X) →
  let E := Z.max e (fexp prec emax (Zdigits2 m + e)) in
  ∃ m2 e2,
    (0 ≤ m2)%Z ∧
    binary_round_aux prec emax sx m e l =
      match m2 with
      | Z0 => S754_zero sx
      | Zpos p => if (e2 <=? emax - prec)%Z then S754_finite sx p e2 else S754_infinity sx
      | Zneg _ => S754_nan
      end ∧
    (∃ g, scaled m2 e2 = scaled g E) ∧
    (∀ z, scaled z E <= X → scaled z E <= scaled m2 e2) ∧
    (∀ z, X <= scaled z E → scaled m2 e2 <= scaled z E).
Proof.
  intros Hm Hlo Hhi Hl E.
  destruct (binary_round_aux_spec sx m e l Hm) as (m2 & e2 & Hm2 & He2 & Hv & Hr).
  fold E in He2, Hv. exists m2, e2. split; [assumption|]. split; [assumption|].
  assert (0 ≤ E - e)%Z as Hk by (unfold E; lia).
  set (k := (E - e)%Z) in *. set (g0 := (m / 2 ^ k)%Z) in *.
  assert (0 < 2 ^ k)%Z as Hp by (apply Z.pow_pos_nonneg; lia).
  assert (g0 * 2 ^ k <= m ∧ m + 1 <= (g0 + 1) * 2 ^ k)%Z as [Hg1 Hg2].
  { pose proof (Z.div_mod m (2 ^ k) ltac:(lia)). pose proof (Z.mod_pos_bound m (2 ^ k) Hp).
    fold g0 in H. nia. }
  assert (scaled m2 e2 = scaled (m2 * 2 ^ (e2 - E)) E) as HV.
  { rewrite scaled_shift by lia. f_equal. lia. }
  assert (∀ z, scaled (z * 2 ^ k) e = scaled z E) as Hgrid.
  { intros z. rewrite scaled_shift by lia. f_equal. unfold k. lia. }
  assert (scaled g0 E <= X) as Hg0.
  { rewrite <- Hgrid. apply (scaled_le _ _ e) in Hg1. lra. }
  assert (X < scaled (g0 + 1) E) as Hg0'.
  { rewrite <- Hgrid. apply (scaled_le _ _ e) in Hg2. lra. }
  split; [eexists; exact HV|]. rewrite HV. split.
  - intros z Hz. apply scaled_le.
    assert (z < g0 + 1)%Z by (apply (scaled_lt_inv _ _ E); lra).
    destruct Hv as [->|[-> _]]; lia.
  - intros z Hz. destruct Hv as [->|[-> Hin]]; [lra|].
    apply scaled_le.
    assert (scaled g0 E < X) as Hstrict.
    { rewrite <- Hgrid. destruct Hin as [Hin|Hin].
      - apply Hl in Hin. apply (scaled_le _ _ e) in Hg1. lra.
      - assert (g0 * 2 ^ k < m)%Z as Hlt.
        { pose proof (Z.div_mod m (2 ^ k) ltac:(lia)). pose proof (Z.mod_pos_bound m (2 ^ k) Hp).
          fold g0 in H. nia. }
        apply (scaled_lt _ _ e) in Hlt. lra. }
    assert (g0 < z)%Z by (apply (scaled_lt_inv _ _ E); lra). lia.
Qed.

End Faithful.

Section Conversions.
Local Open Scope R_scope.

Lemma scaled_0 m : scaled m 0 = IZR m.
Proof. unfold scaled. cbn. ring. Qed.

Lemma scaled_pos m e : (0 < m)%Z → 0 < scaled m e.
Proof. intros H. unfold scaled. apply IZR_lt in H. pose proof (pow2_pos e). nra. Qed.

Lemma scaled_pos_inv m e : 0 < scaled m e → (0 < m)%Z.
Proof.
  intros H. apply (scaled_lt_inv 0 m e). unfold scaled at 1. lra.
Qed.

(** No number of the grid between [X] and [V]: they are less than one step
    apart. *)
Lemma faithful_error (X V : R) (E g : Z) :
  V = scaled g E →
  (∀ z, scaled z E <= X → scaled z E <= V) →
  (∀ z, X <= scaled z E → V <= scaled z E) →
  V - X < powerRZ 2 E ∧ X - V < powerRZ 2 E.
Proof.
  intros HV F1 F2. pose proof (pow2_pos E) as HE.
  assert (scaled (g - 1) E = V - powerRZ 2 E) as Hm.
  { rewrite HV. unfold scaled. rewrite minus_IZR. ring. }
  assert (scaled (g + 1) E = V + powerRZ 2 E) as Hp.
  { rewrite HV. unfold scaled. rewrite plus_IZR. ring. }
  split.
  - destruct (Rlt_le_dec (V - X) (powerRZ 2 E)) as [|Hge]; [assumption|].
    specialize (F2 (g - 1)%Z). rewrite Hm in F2. lra.
  - destruct (Rlt_le_dec (X - V) (powerRZ 2 E)) as [|Hge]; [assumption|].
    specialize (F1 (g + 1)%Z). rewrite Hp in F1. lra.
Qed.

Lemma faithful_exact (X V : R) (E z : Z) :
  X = scaled z E →
  (∀ z, scaled z E <= X → scaled z E <= V) →
  (∀ z, X <= scaled z E → V <= scaled z E) →
  V = X.
Proof.
  intros HX F1 F2. specialize (F1 z). specialize (F2 z). rewrite <- HX in F1, F2. lra.
Qed.

Lemma Zdigits2_scaled m : (0 < m)%Z →
  powerRZ 2 (Zdigits2 m - 1) <= IZR m ∧ IZR m < powerRZ 2 (Zdigits2 m).
Proof.
  intros Hm. destruct (Zdigits2_spec m Hm) as [H1 H2].
  pose proof (Zdigits2_pos m Hm) as Hd.
  rewrite <- !pow2_IZR by lia. split; [now apply IZR_le|now apply IZR_lt].
Qed.

(** [int(f)] truncates. *)
Lemma Z_of_float_finite f m e :
  Prim2SF f = S754_finite false m e →
  ∃ r, Z_of_float f = Ok r ∧ IZR r <= scaled (Z.pos m) e ∧ scaled (Z.pos m) e < IZR r + 1.
Proof.
  intros Hf. unfold Z_of_float. rewrite Hf. eexists. split; [reflexivity|].
  destruct e as [|k|k].
  - rewrite Z.shiftl_0_r, scaled_0. lra.
  - rewrite Z.shiftl_mul_pow2 by lia.
    rewrite <- (scaled_0 (Z.pos m * 2 ^ Z.pos k)), scaled_shift by lia.
    replace (0 + Z.pos k)%Z with (Z.pos k) by lia. lra.
  - rewrite Z.shiftr_div_pow2 by lia.
    set (k' := Z.pos k). set (r := (Z.pos m / 2 ^ k')%Z).
    assert (0 < 2 ^ k')%Z as Hp by (apply Z.pow_pos_nonneg; lia).
    assert (r * 2 ^ k' ≤ Z.pos m ∧ Z.pos m + 1 ≤ (r + 1) * 2 ^ k')%Z as [H1 H2].
    { pose proof (Z.div_mod (Z.pos m) (2 ^ k') ltac:(lia)).
      pose proof (Z.mod_pos_bound (Z.pos m) (2 ^ k') Hp). fold r in H. nia. }
    assert (∀ z, scaled (z * 2 ^ k') (Z.neg k) = IZR z) as Hs.
    { intros z. rewrite scaled_shift by lia.
      replace (Z.neg k + k')%Z with 0%Z by lia. apply scaled_0. }
    apply (scaled_le _ _ (Z.neg k)) in H1, H2. rewrite Hs in H1, H2.
    rewrite plus_IZR in H2.
    pose proof (scaled_lt (Z.pos m) (Z.pos m + 1) (Z.neg k) ltac:(lia)). lra.
Qed.

Lemma positive_finite_inv x :
  positive_finite x = true → ∃ m e, x = S754_finite false m e.
Proof. destruct x as [| | |[] m e]; try discriminate. eauto. Qed.

Lemma ltb_zero_infinity (s : float) :
  (0 <? s)%float = true → (s <? infinity)%float = true →
  positive_finite (Prim2SF s) = true.
Proof.
  rewrite !ltb_spec. change (Prim2SF 0%float) with (S754_zero false).
  change (Prim2SF infinity) with (S754_infinity false).
  now destruct (Prim2SF s) as [[]|[]| |[] ? ?].
Qed.

Lemma valid_exponent (s : float) m e :
  Prim2SF s = S754_finite false m e → (-1074 ≤ e)%Z.
Proof.
  intros Hs. pose proof (Prim2SF_valid s) as Hv. rewrite Hs in Hv.
  cbn in Hv. apply andb_prop in Hv as [Hc _].
  unfold canonical_mantissa in Hc. apply Z.eqb_eq in Hc. rewrite fexp_eq in Hc. lia.
Qed.

End Conversions.

(** ** Steps to a distance and back *)

Section OfInt.
Local Open Scope R_scope.

Lemma Pos_iter_xO m d : Z.pos (Pos.iter xO m d) = (Z.pos m * 2 ^ Z.pos d)%Z.
Proof.
  apply (Pos.iter_ind positive xO m (fun p a => Z.pos a = (Z.pos m * 2 ^ Z.pos p)%Z)).
  - rewrite Z.pow_1_r. lia.
  - intros p a IH. rewrite Pos2Z.inj_succ, Z.pow_succ_r by lia.
    change (Z.pos a~0) with (2 * Z.pos a)%Z. rewrite IH. ring.
Qed.

Lemma shl_align_spec mx ex ex' :
  (shl_align mx ex ex').2 = Z.min ex ex' ∧
  Z.pos (shl_align mx ex ex').1 = (Z.pos mx * 2 ^ (ex - Z.min ex ex'))%Z.
Proof.
  unfold shl_align. destruct (ex' - ex)%Z as [|d|d] eqn:Hd; cbn [fst snd].
  - replace (Z.min ex ex') with ex by lia. rewrite Z.sub_diag. split; lia.
  - replace (Z.min ex ex') with ex by lia. rewrite Z.sub_diag. split; lia.
  - replace (Z.min ex ex') with ex' by lia. split; [reflexivity|].
    rewrite Pos_iter_xO. f_equal. f_equal. lia.
Qed.

Lemma Zdigits2_shift m k :
  (0 < m)%Z → (0 ≤ k)%Z → Zdigits2 (m * 2 ^ k) = (Zdigits2 m + k)%Z.
Proof.
  intros Hm Hk. destruct (Zdigits2_spec m Hm) as [H1 H2].
  pose proof (Zdigits2_pos m Hm) as Hd.
  assert (0 < 2 ^ k)%Z as Hp by (apply Z.pow_pos_nonneg; lia).
  apply Zdigits2_unique; [nia|].
  replace (Zdigits2 m + k - 1)%Z with ((Zdigits2 m - 1) + k)%Z by lia.
  rewrite !Z.pow_add_r by lia. split; nia.
Qed.

Lemma exponent_bound m e b :
  (0 < m)%Z → scaled m e < powerRZ 2 b → (e < b)%Z.
Proof.
  intros Hm H. apply powerRZ2_lt_inv. unfold scaled in H.
  assert (1 <= IZR m) by (apply IZR_le; lia). pose proof (pow2_pos e). nra.
Qed.

(** The integers below [2 ^ 53] are floats. *)
Lemma binary_normalize_exact n :
  (0 < n < 2 ^ 53)%Z →
  ∃ mn en, binary_normalize prec emax n 0 false = S754_finite false mn en ∧
           scaled (Z.pos mn) en = IZR n.
Proof.
  intros [Hn0 Hn]. destruct n as [|p|p]; try lia. cbn [binary_normalize]. unfold binary_round.
  destruct (shl_align_spec p 0 (fexp prec emax (Z.pos (digits2_pos p) + 0))) as [Hez Hmz].
  destruct (shl_align p 0 _) as [mz ez]. cbn [fst snd] in Hez, Hmz.
  change (Z.pos (digits2_pos p)) with (Zdigits2 (Z.pos p)) in Hez, Hmz.
  set (dp := Zdigits2 (Z.pos p)) in *.
  assert (0 < dp ≤ 53)%Z as Hdp.
  { split; [now apply Zdigits2_pos|]. destruct (Zdigits2_spec (Z.pos p) Hn0) as [H1 _].
    fold dp in H1. assert (dp - 1 < 53)%Z; [|lia]. apply pow2_lt_inv; lia. }
  rewrite fexp_eq in Hez, Hmz.
  assert (ez = dp - 53)%Z as Hez' by lia.
  replace (0 - Z.min 0 (Z.max (dp + 0 - 53) (-1074)))%Z with (- ez)%Z in Hmz by lia.
  set (X := scaled (Z.pos mz) ez).
  destruct (binary_round_aux_faithful false (Z.pos mz) ez loc_Exact X)
    as (m2 & e2 & Hm2 & Hr & _ & F1 & F2).
  { lia. } { unfold X. lra. } { apply scaled_lt. lia. } { congruence. }
  assert (Z.max ez (fexp prec emax (Zdigits2 (Z.pos mz) + ez)) = ez) as HE.
  { rewrite Hmz, Zdigits2_shift by lia. fold dp. rewrite fexp_eq. lia. }
  rewrite HE in F1, F2.
  assert (scaled m2 e2 = X) as HV by (apply (faithful_exact X _ ez (Z.pos mz)); auto).
  assert (X = IZR (Z.pos p)) as HX.
  { unfold X. rewrite Hmz, scaled_shift by lia. replace (ez + - ez)%Z with 0%Z by lia.
    apply scaled_0. }
  rewrite HX in HV.
  assert (0 < m2)%Z as Hm2'.
  { apply (scaled_pos_inv m2 e2). rewrite HV. apply IZR_lt. lia. }
  assert (e2 < 53)%Z as He2.
  { apply (exponent_bound m2); [assumption|]. rewrite HV, <- pow2_IZR by lia. now apply IZR_lt. }
  rewrite Hr. destruct m2 as [|q|q]; try lia.
  replace (e2 <=? emax - prec)%Z with true.
  - eauto.
  - symmetry. apply Z.leb_le. change (emax - prec)%Z with 971%Z. lia.
Qed.

Lemma float_of_Z_exact n :
  (0 < n < 2 ^ 53)%Z →
  ∃ f mn en, float_of_Z n = Ok f ∧ Prim2SF f = S754_finite false mn en ∧
             scaled (Z.pos mn) en = IZR n.
Proof.
  intros Hn. destruct (binary_normalize_exact n Hn) as (mn & en & HB & Hv).
  assert (binary_normalize prec emax n 0 false = Prim2SF (of_uint63 (Uint63.of_Z n))) as HP.
  { rewrite of_uint63_spec, Uint63.of_Z_spec. rewrite Z.mod_small; [reflexivity|].
    change Uint63.wB with (2 ^ 63)%Z. lia. }
  unfold float_of_Z. rewrite HP, SF2Prim_Prim2SF.
  set (f := of_uint63 (Uint63.of_Z n)) in *. rewrite HB in HP. symmetry in HP.
  assert (is_infinity f = false) as ->.
  { unfold is_infinity. rewrite FloatAxioms.eqb_spec, abs_spec, HP. reflexivity. }
  exists f, mn, en. auto.
Qed.

End OfInt.

Section Product.
Local Open Scope R_scope.

Lemma scaled_mul a e b f : scaled a e * scaled b f = scaled (a * b) (e + f).
Proof. unfold scaled. rewrite mult_IZR, pow2_add. ring. Qed.

Lemma pow2_split E k : powerRZ 2 E = powerRZ 2 (E + k) * powerRZ 2 (- k).
Proof. rewrite <- pow2_add. f_equal. lia. Qed.

Lemma tol_small : powerRZ 2 (-52) * IZR (2 ^ 52) = 1.
Proof.
  rewrite pow2_IZR by lia. rewrite <- pow2_add. reflexivity.
Qed.

(** The product of a float that holds the integer [n] with a positive
    stride [s], when it does not overflow, is within [2 ^ -52] of [n * s]
    in relative terms. *)
Lemma product_error (N s : float) (n : Z) mn en ms es :
  Prim2SF N = S754_finite false mn en →
  scaled (Z.pos mn) en = IZR n →
  Prim2SF s = S754_finite false ms es →
  (N * s <? infinity)%float = true →
  ∃ mp ep, Prim2SF (N * s)%float = S754_finite false mp ep ∧
    let Y := IZR n * scaled (Z.pos ms) es in
    scaled (Z.pos mp) ep - Y <= Y * powerRZ 2 (-52) ∧
    Y - scaled (Z.pos mp) ep <= Y * powerRZ 2 (-52).
Proof.
  intros HN Hn Hs Hfin. rewrite ltb_spec, FloatAxioms.mul_spec, HN, Hs in Hfin.
  rewrite FloatAxioms.mul_spec, HN, Hs. unfold SF64mul in Hfin |- *.
  cbn [SFmul xorb] in Hfin |- *. change (Prim2SF infinity) with (S754_infinity false) in Hfin.
  pose proof (valid_exponent s ms es Hs) as Hes.
  set (m := Z.pos (mn * ms)) in *. set (e := (en + es)%Z) in *.
  set (Y := IZR n * scaled (Z.pos ms) es).
  assert (scaled m e = Y) as HY.
  { unfold m, e, Y. rewrite Pos2Z.inj_mul, <- scaled_mul, Hn. reflexivity. }
  assert (0 < Y) as HYpos by (rewrite <- HY; now apply scaled_pos).
  destruct (binary_round_aux_faithful false m e loc_Exact Y)
    as (m2 & e2 & Hm2 & Hr & (g & Hg) & F1 & F2).
  { unfold m. lia. } { lra. } { rewrite <- HY. apply scaled_lt. lia. } { congruence. }
  set (E := Z.max e (fexp prec emax (Zdigits2 m + e))) in *.
  set (V := scaled m2 e2) in *.
  pose proof tol_small as Htol. assert (0 < IZR (2 ^ 52)) as H52 by (apply IZR_lt; lia).
  assert (0 < powerRZ 2 (-52)) as Htol' by apply pow2_pos.
  assert (V - Y <= Y * powerRZ 2 (-52) ∧ Y - V <= Y * powerRZ 2 (-52)) as Herr.
  { assert (E = e ∨ E = (-1074)%Z ∨ (E = Zdigits2 m + e - 53)%Z) as [HE|[HE|HE]]
      by (unfold E; rewrite fexp_eq; lia).
    - assert (V = Y) as ->; [|nra].
      apply (faithful_exact Y V E m); auto. now rewrite HE.
    - assert (V = Y) as ->; [|nra].
      apply (faithful_exact Y V E (n * Z.pos ms * 2 ^ (es + 1074))); auto.
      rewrite HE, scaled_shift by lia. replace (-1074 + (es + 1074))%Z with es by lia.
      unfold Y. rewrite <- (scaled_0 n), scaled_mul. f_equal. 
    - destruct (faithful_error Y V E g Hg F1 F2) as [E1 E2].
      assert (powerRZ 2 E <= Y * powerRZ 2 (-52)) as Hstep; [|lra].
      rewrite (pow2_split E 52). apply Rmult_le_compat_r; [lra|].
      rewrite <- HY. destruct (Zdigits2_scaled m ltac:(unfold m; lia)) as [D1 _].
      replace (E + 52)%Z with ((Zdigits2 m - 1) + e)%Z by lia.
      rewrite pow2_add. unfold scaled. pose proof (pow2_pos e). nra. }
  assert (0 < V) as HVpos.
  { assert (powerRZ 2 (-52) < 1) by nra. nra. }
  assert (0 < m2)%Z as Hm2' by now apply (scaled_pos_inv m2 e2).
  rewrite Hr in Hfin |- *. destruct m2 as [|p|p]; try lia.
  destruct (e2 <=? emax - prec)%Z; [|discriminate Hfin].
  exists p, e2. split; [reflexivity|]. exact Herr.
Qed.

End Product.

Section Quotient.
Local Open Scope R_scope.

Lemma new_location_exact m r : new_location m r ≠ loc_Exact → r ≠ 0%Z.
Proof.
  intros H ->. apply H. unfold new_location, new_location_even, new_location_odd.
  now destruct (Z.even m).
Qed.

Lemma Rdiv_bounds (A B x : R) : 0 < B →
  (x * B <= A → x <= A / B) ∧ (A < x * B → A / B < x) ∧ (x * B < A → x < A / B) ∧
  (A <= x * B → A / B <= x).
Proof.
  intros HB. assert (A / B * B = A) as HX by (field; lra).
  set (X := A / B) in *. clearbody X. subst A.
  repeat split; intros H.
  - apply (Rmult_le_reg_r B); assumption.
  - apply (Rmult_lt_reg_r B); assumption.
  - apply (Rmult_lt_reg_r B); assumption.
  - apply (Rmult_le_reg_r B); assumption.
Qed.

(** The integer quotient and the location computed by
    [SFdiv_core_binary] enclose the real quotient. *)
Lemma SFdiv_core_binary_spec m1 e1 m2 e2 :
  (0 < m1)%Z → (0 < m2)%Z →
  ∃ q e' l,
    SFdiv_core_binary prec emax m1 e1 m2 e2 = (q, e', l) ∧
    e' = Z.min (fexp prec emax (Zdigits2 m1 + e1 - (Zdigits2 m2 + e2))) (e1 - e2) ∧
    (0 ≤ q)%Z ∧
    let X := scaled m1 e1 / scaled m2 e2 in
    scaled q e' <= X ∧ X < scaled (q + 1) e' ∧ (l ≠ loc_Exact → scaled q e' < X).
Proof.
  intros H1 H2. unfold SFdiv_core_binary.
  set (e' := Z.min (fexp prec emax (Zdigits2 m1 + e1 - (Zdigits2 m2 + e2))) (e1 - e2)).
  set (s := (e1 - e2 - e')%Z).
  assert (0 ≤ s)%Z as Hs by (unfold s, e'; lia).
  set (m' := match s with Z0 => m1 | Zpos _ => Z.shiftl m1 s | Zneg _ => 0%Z end).
  assert (m' = m1 * 2 ^ s)%Z as Hm'.
  { unfold m'. destruct s as [|p|p] eqn:E; [rewrite Z.pow_0_r; lia| |lia].
    apply Z.shiftl_mul_pow2. lia. }
  clearbody m'.
  pose proof (Z_div_mod m' m2 ltac:(lia)) as Hd.
  destruct (Z.div_eucl m' m2) as [q r]. destruct Hd as [Hd Hr].
  exists q, e', (new_location m2 r). split; [reflexivity|]. split; [reflexivity|].
  assert (0 < 2 ^ s)%Z as Hp by (apply Z.pow_pos_nonneg; lia).
  assert (0 ≤ m')%Z as Hm0 by (rewrite Hm'; apply Z.mul_nonneg_nonneg; lia).
  assert (0 ≤ q)%Z as Hq.
  { destruct (Z_lt_le_dec q 0) as [Hneg|]; [|assumption].
    assert (m2 * q ≤ m2 * -1)%Z by (apply Z.mul_le_mono_nonneg_l; lia). lia. }
  split; [assumption|]. cbv zeta.
  pose proof (scaled_pos m2 e2 H2) as HB.
  assert (scaled m1 e1 = scaled m' (e' + e2)) as HA.
  { rewrite Hm', scaled_shift by lia. f_equal. unfold s. lia. }
  assert (∀ z, scaled z e' * scaled m2 e2 = scaled (z * m2) (e' + e2)) as Hz
    by (intros z; apply scaled_mul).
  destruct (Rdiv_bounds (scaled m1 e1) (scaled m2 e2) (scaled q e') HB) as (D1 & _ & D3 & _).
  destruct (Rdiv_bounds (scaled m1 e1) (scaled m2 e2) (scaled (q + 1) e') HB) as (_ & D2 & _ & _).
  split; [|split].
  - apply D1. rewrite Hz, HA. apply scaled_le. lia.
  - apply D2. rewrite Hz, HA. apply scaled_lt. nia.
  - intros Hl. apply new_location_exact in Hl. apply D3. rewrite Hz, HA. apply scaled_lt. lia.
Qed.

Lemma scaled_half k : scaled k (-1) = IZR k / 2.
Proof. unfold scaled. change (powerRZ 2 (-1)) with (/ (2 * 1)). field. Qed.

Lemma half_on_grid k E : (E ≤ -1)%Z → ∃ z, scaled z E = IZR k / 2.
Proof.
  intros HE. exists (k * 2 ^ (-1 - E))%Z. rewrite scaled_shift by lia.
  replace (E + (-1 - E))%Z with (-1)%Z by lia. apply scaled_half.
Qed.

(** A quotient that is within a half of the integer [n] is rounded to a
    float within a half of [n]. *)
Lemma quotient_near (P s : float) (n : Z) mp ep ms es :
  Prim2SF P = S754_finite false mp ep →
  Prim2SF s = S754_finite false ms es →
  (0 < n < 2 ^ 51)%Z →
  let X := scaled (Z.pos mp) ep / scaled (Z.pos ms) es in
  IZR n - / 2 <= X → X <= IZR n + / 2 →
  ∃ mq eq, Prim2SF (P / s)%float = S754_finite false mq eq ∧
           IZR n - / 2 <= scaled (Z.pos mq) eq ∧ scaled (Z.pos mq) eq <= IZR n + / 2.
Proof.
  intros HP Hs Hn X Hlo Hhi. rewrite FloatAxioms.div_spec, HP, Hs.
  unfold SF64div. cbn [SFdiv xorb].
  destruct (SFdiv_core_binary_spec (Z.pos mp) ep (Z.pos ms) es ltac:(lia) ltac:(lia))
    as (q & e' & l & -> & He' & Hq & Q1 & Q2 & Q3).
  fold X in Q1, Q2, Q3.
  assert (IZR n <= IZR (2 ^ 51) - 1) as Hn'.
  { rewrite <- minus_IZR. apply IZR_le. lia. }
  assert (powerRZ 2 52 = 2 * IZR (2 ^ 51)) as H52.
  { rewrite <- pow2_IZR by lia. rewrite <- mult_IZR. reflexivity. }
  assert (1 <= IZR n) as Hn1 by (apply IZR_le; lia).
  assert (X < powerRZ 2 52) as HX52 by lra.
  (* the exponents are negative *)
  set (D := (Zdigits2 (Z.pos mp) + ep - (Zdigits2 (Z.pos ms) + es))%Z) in *.
  assert (D ≤ 52)%Z as HD.
  { assert (D - 1 < 52)%Z; [|lia]. apply powerRZ2_lt_inv.
    apply Rlt_trans with (2 := HX52).
    destruct (Rdiv_bounds (scaled (Z.pos mp) ep) (scaled (Z.pos ms) es) (powerRZ 2 (D - 1))
                ltac:(apply scaled_pos; lia)) as (_ & _ & D3 & _).
    apply D3.
    destruct (Zdigits2_scaled (Z.pos mp) ltac:(lia)) as [A1 _].
    destruct (Zdigits2_scaled (Z.pos ms) ltac:(lia)) as [_ A2].
    replace (D - 1)%Z with ((Zdigits2 (Z.pos mp) - 1) + ep + - Zdigits2 (Z.pos ms) + - es)%Z
      by (unfold D; lia).
    rewrite !pow2_add. unfold scaled.
    pose proof (pow2_pos ep). pose proof (pow2_pos es).
    pose proof (pow2_pos (- Zdigits2 (Z.pos ms))). pose proof (pow2_pos (- es)).
    pose proof (pow2_pos (Zdigits2 (Z.pos mp) - 1)).
    assert (powerRZ 2 (- es) * powerRZ 2 es = 1) as I1
      by (rewrite <- pow2_add; replace (- es + es)%Z with 0%Z by lia; reflexivity).
    assert (powerRZ 2 (- Zdigits2 (Z.pos ms)) * powerRZ 2 (Zdigits2 (Z.pos ms)) = 1) as I2
      by (rewrite <- pow2_add; replace (- Zdigits2 (Z.pos ms) + Zdigits2 (Z.pos ms))%Z with 0%Z by lia;
          reflexivity).
    set (a := powerRZ 2 (Zdigits2 (Z.pos mp) - 1)) in *.
    set (b := powerRZ 2 ep) in *. set (c := powerRZ 2 (- Zdigits2 (Z.pos ms))) in *.
    set (c' := powerRZ 2 (Zdigits2 (Z.pos ms))) in *.
    set (f := powerRZ 2 (- es)) in *. set (f' := powerRZ 2 es) in *.
    set (x := IZR (Z.pos mp)) in *. set (y := IZR (Z.pos ms)) in *.
    assert (0 < y) by (apply IZR_lt; lia).
    replace (a * b * c * f * (y * f')) with (a * b * (c * y) * (f * f')) by ring.
    rewrite I1, Rmult_1_r.
    assert (c * y < 1) by nra.
    assert (0 < a * b) by nra.
    assert (a * b <= x * b) by nra.
    nra. }
  assert (e' ≤ -1)%Z as He'1 by (rewrite fexp_eq in He'; lia).
  set (E := Z.max e' (fexp prec emax (Zdigits2 q + e'))).
  assert (E ≤ -1)%Z as HE.
  { unfold E. rewrite fexp_eq. destruct (Z.eq_dec q 0%Z) as [->|Hq0]; [cbn [Zdigits2]; lia|].
    assert (Zdigits2 q - 1 + e' < 52)%Z; [|lia]. apply powerRZ2_lt_inv.
    apply Rle_lt_trans with (2 := HX52). apply Rle_trans with (2 := Q1).
    destruct (Zdigits2_scaled q ltac:(lia)) as [A1 _].
    rewrite pow2_add. unfold scaled. pose proof (pow2_pos e'). nra. }
  destruct (binary_round_aux_faithful false q e' l X Hq Q1 Q2 Q3)
    as (m2 & e2 & Hm2 & Hr & _ & F1 & F2).
  fold E in F1, F2.
  set (V := scaled m2 e2) in *.
  assert (IZR n - / 2 <= V) as HV1.
  { destruct (half_on_grid (2 * n - 1) E HE) as (z & Hz).
    rewrite minus_IZR, mult_IZR in Hz.
    replace (IZR n - / 2) with (scaled z E) by (rewrite Hz; lra).
    apply F1. rewrite Hz. lra. }
  assert (V <= IZR n + / 2) as HV2.
  { destruct (half_on_grid (2 * n + 1) E HE) as (z & Hz).
    rewrite plus_IZR, mult_IZR in Hz.
    replace (IZR n + / 2) with (scaled z E) by (rewrite Hz; lra).
    apply F2. rewrite Hz. lra. }
  assert (0 < m2)%Z as Hm2' by (apply (scaled_pos_inv m2 e2); fold V; lra).
  assert (e2 < 52)%Z as He2 by (apply (exponent_bound m2); [assumption|fold V; lra]).
  rewrite Hr. destruct m2 as [|p|p]; try lia.
  replace (e2 <=? emax - prec)%Z with true.
  - exists p, e2. auto.
  - symmetry. apply Z.leb_le. change (emax - prec)%Z with 971%Z. lia.
Qed.

End Quotient.

Section RoundTrip.
Local Open Scope R_scope.

Lemma positive_classes (s : float) :
  (0 <? s)%float = true →
  positive_finite (Prim2SF s) = true ∨ Prim2SF s = S754_infinity false.
Proof.
  rewrite ltb_spec. change (Prim2SF 0%float) with (S754_zero false).
  destruct (Prim2SF s) as [[]|[]| |[] ? ?]; try discriminate; auto.
Qed.

Lemma float_div_positive (d s : float) ms es :
  Prim2SF s = S754_finite false ms es → float_div d s = Ok (d / s)%float.
Proof.
  intros Hs. unfold float_div. rewrite FloatAxioms.eqb_spec, Hs. reflexivity.
Qed.

(** C3, as the code computes it: for a step count below [2 ^ 51] and a
    positive stride whose product does not overflow, the distance converted
    back is the step count or one step less. *)
Theorem steps_round_trip (n : Z) (s d : float) :
  (0 ≤ n < 2 ^ 51)%Z →
  (0 <? s)%float = true →
  calculate_distance_from_steps n s = Ok d →
  (d <? infinity)%float = true →
  ∃ r, calculate_steps d s = Ok r ∧ (r = n ∨ r = (n - 1)%Z) ∧ (0 ≤ r)%Z.
Proof.
  intros Hn Hs Hd Hfin. unfold calculate_distance_from_steps in Hd.
  destruct (Z.eq_dec n 0%Z) as [->|Hn0].
  - (* no step: the distance and the quotient are zero *)
    change (float_of_Z 0) with (Ok 0%float) in Hd. cbn in Hd.
    injection Hd as <-.
    assert (Prim2SF (0 * s)%float = S754_zero false ∧ ∃ ms es, Prim2SF s = S754_finite false ms es)
      as [Hz (ms & es & Hs')].
    { rewrite ltb_spec, FloatAxioms.mul_spec in Hfin. rewrite FloatAxioms.mul_spec.
      change (Prim2SF 0%float) with (S754_zero false) in Hfin |- *.
      destruct (positive_classes s Hs) as [Hp|Hp].
      - apply positive_finite_inv in Hp as (ms & es & Hp). rewrite Hp. eauto.
      - rewrite Hp in Hfin. vm_compute in Hfin. discriminate Hfin. }
    exists 0%Z. unfold calculate_steps. rewrite (float_div_positive _ _ _ _ Hs'). cbn.
    unfold Z_of_float. rewrite FloatAxioms.div_spec, Hz, Hs'. cbn. split; [reflexivity|]. lia.
  - destruct (float_of_Z_exact n ltac:(lia)) as (N & mn & en & HN & HN' & Hval).
    rewrite HN in Hd. cbn in Hd. injection Hd as <-.
    assert (∃ ms es, Prim2SF s = S754_finite false ms es) as (ms & es & Hs').
    { destruct (positive_classes s Hs) as [Hp|Hp]; [now apply positive_finite_inv|].
      rewrite ltb_spec, FloatAxioms.mul_spec, HN', Hp in Hfin. vm_compute in Hfin.
      discriminate Hfin. }
    destruct (product_error N s n mn en ms es HN' Hval Hs' Hfin) as (mp & ep & HP & E1 & E2).
    set (S := scaled (Z.pos ms) es) in *. set (P := scaled (Z.pos mp) ep) in *.
    assert (0 < S) as HS by (apply scaled_pos; lia).
    assert (1 <= IZR n <= IZR (2 ^ 51) - 1) as [Hn1 Hn2].
    { rewrite <- minus_IZR. split; apply IZR_le; lia. }
    pose proof tol_small as Htol. pose proof (pow2_pos (-52)) as Htol'.
    assert (IZR (2 ^ 52) = 2 * IZR (2 ^ 51)) as H52 by (rewrite <- mult_IZR; reflexivity).
    assert (IZR n * powerRZ 2 (-52) <= / 2) as Hhalf by nra.
    destruct (Rdiv_bounds P S (IZR n - / 2) HS) as (D1 & _ & _ & _).
    destruct (Rdiv_bounds P S (IZR n + / 2) HS) as (_ & _ & _ & D4).
    destruct (quotient_near (N * s)%float s n mp ep ms es HP Hs' ltac:(lia))
      as (mq & eq & HQ & V1 & V2).
    { apply D1. fold P S. nra. }
    { apply D4. fold P S. nra. }
    destruct (Z_of_float_finite _ _ _ HQ) as (r & Hr & R1 & R2).
    exists r. unfold calculate_steps. rewrite (float_div_positive _ _ _ _ Hs'). cbn.
    split; [exact Hr|].
    assert (r < n + 1)%Z by (apply lt_IZR; rewrite plus_IZR; lra).
    assert (n < r + 2)%Z by (apply lt_IZR; rewrite plus_IZR; lra).
    lia.
Qed.

End RoundTrip.

(** * Further properties *)

(** ** The step count of a distance *)

Section Classes.

Lemma is_nan_spec f : is_nan f = true ↔ Prim2SF f = S754_nan.
Proof.
  split.
  - intros H. destruct (Prim2SF f) as [b|b| |b m e] eqn:E; try reflexivity; exfalso;
      assert (is_num f) as Hn
        by (apply is_num_rank; unfold rank; rewrite E; destruct b; cbn; eauto);
      unfold is_num in Hn; congruence.
  - intros E. destruct (is_nan f) eqn:H; [reflexivity|].
    apply is_num_rank in H. destruct H as [a Ha]. unfold rank in Ha.
    rewrite E in Ha. discriminate Ha.
Qed.

Lemma is_infinity_spec f : is_infinity f = true ↔ ∃ b, Prim2SF f = S754_infinity b.
Proof.
  unfold is_infinity. rewrite FloatAxioms.eqb_spec, abs_spec.
  change (Prim2SF infinity) with (S754_infinity false).
  destruct (Prim2SF f) as [b|b| |b m e]; cbn; split; eauto; try discriminate;
    intros [? [=]].
Qed.

Lemma eqb_zero_spec f : (f =? 0)%float = true ↔ ∃ b, Prim2SF f = S754_zero b.
Proof.
  rewrite FloatAxioms.eqb_spec. change (Prim2SF 0%float) with (S754_zero false).
  destruct (Prim2SF f) as [b|b| |b m e]; cbn; split; eauto; try discriminate;
    try (intros [? [=]]); destruct b; discriminate.
Qed.

End Classes.

Section Steps.
Local Open Scope R_scope.

Lemma calculate_steps_nonzero d s :
  (s =? 0)%float = false → calculate_steps d s = Z_of_float (d / s).
Proof. unfold calculate_steps, float_div. intros ->. reflexivity. Qed.

Lemma calculate_steps_zero d s :
  (s =? 0)%float = true → calculate_steps d s = Raise ZeroDivisionError.
Proof. unfold calculate_steps, float_div. intros ->. reflexivity. Qed.

(** X1. [calculate_steps] fails with [ZeroDivisionError] on a stride that
    is zero, with [ValueError] when the quotient is not a number, with
    [OverflowError] when it is infinite, and returns an integer otherwise. *)
Theorem calculate_steps_outcome (distance_meters step_length : float) :
  ((step_length =? 0)%float = true →
   calculate_steps distance_meters step_length = Raise ZeroDivisionError) ∧
  ((step_length =? 0)%float = false →
   (is_nan (distance_meters / step_length) = true →
    calculate_steps distance_meters step_length = Raise ValueError) ∧
   (is_infinity (distance_meters / step_length) = true →
    calculate_steps distance_meters step_length = Raise OverflowError) ∧
   (is_nan (distance_meters / step_length) = false →
    is_infinity (distance_meters / step_length) = false →
    ∃ r, calculate_steps distance_meters step_length = Ok r)).
Proof.
  split; [apply calculate_steps_zero|].
  intros Hs. rewrite (calculate_steps_nonzero _ _ Hs).
  unfold Z_of_float. split; [|split].
  - intros H. apply is_nan_spec in H. now rewrite H.
  - intros H. apply is_infinity_spec in H. destruct H as [b ->]. reflexivity.
  - intros Hn Hi.
    destruct (Prim2SF (distance_meters / step_length)) as [b|b| |b m e] eqn:E; eauto.
    + assert (is_infinity (distance_meters / step_length) = true)
        by (apply is_infinity_spec; eauto). congruence.
    + assert (is_nan (distance_meters / step_length) = true)
        by now apply is_nan_spec. congruence.
Qed.

(** The integer part of [m * 2 ^ e], as [int()] computes it. *)
Lemma truncate_bounds m e :
  let mag := match e with
             | Zneg p => Z.shiftr (Zpos m) (Zpos p)
             | _ => Z.shiftl (Zpos m) e
             end in
  IZR mag <= scaled (Z.pos m) e ∧ scaled (Z.pos m) e < IZR mag + 1.
Proof.
  destruct e as [|k|k]; cbv zeta.
  - rewrite Z.shiftl_0_r, scaled_0. lra.
  - rewrite Z.shiftl_mul_pow2 by lia.
    rewrite <- (scaled_0 (Z.pos m * 2 ^ Z.pos k)), scaled_shift by lia.
    replace (0 + Z.pos k)%Z with (Z.pos k) by lia. lra.
  - rewrite Z.shiftr_div_pow2 by lia.
    set (k' := Z.pos k). set (r := (Z.pos m / 2 ^ k')%Z).
    assert (0 < 2 ^ k')%Z as Hp by (apply Z.pow_pos_nonneg; lia).
    assert (r * 2 ^ k' ≤ Z.pos m ∧ Z.pos m + 1 ≤ (r + 1) * 2 ^ k')%Z as [H1 H2].
    { pose proof (Z.div_mod (Z.pos m) (2 ^ k') ltac:(lia)) as H.
      pose proof (Z.mod_pos_bound (Z.pos m) (2 ^ k') Hp). fold r in H. nia. }
    assert (∀ z, scaled (z * 2 ^ k') (Z.neg k) = IZR z) as Hs.
    { intros z. rewrite scaled_shift by lia.
      replace (Z.neg k + k')%Z with 0%Z by lia. apply scaled_0. }
    apply (scaled_le _ _ (Z.neg k)) in H1, H2. rewrite Hs in H1, H2.
    rewrite plus_IZR in H2.
    pose proof (scaled_lt (Z.pos m) (Z.pos m + 1) (Z.neg k) ltac:(lia)). lra.
Qed.

Lemma scaled_neg m e : scaled (Z.neg m) e = - scaled (Z.pos m) e.
Proof. unfold scaled. change (Z.neg m) with (- Z.pos m)%Z. rewrite opp_IZR. ring. Qed.

(** X2. The step count is the quotient of the two floats cut towards zero:
    its integer part when the quotient is positive, and its integer part
    with the sign when it is negative, not the floor. *)
Theorem calculate_steps_truncates (distance_meters step_length : float) (r : Z) :
  calculate_steps distance_meters step_length = Ok r →
  let q := float_value (distance_meters / step_length) in
  (0 <= q → IZR r <= q ∧ q < IZR r + 1) ∧
  (q <= 0 → IZR r - 1 < q ∧ q <= IZR r).
Proof.
  destruct (step_length =? 0)%float eqn:Hs.
  { unfold calculate_steps, float_div. rewrite Hs. discriminate. }
  rewrite (calculate_steps_nonzero _ _ Hs).
  unfold Z_of_float, float_value.
  destruct (Prim2SF (distance_meters / step_length)) as [b|b| |b m e]; try discriminate.
  - intros [= <-]. cbv zeta. lra.
  - intros [= <-]. pose proof (truncate_bounds m e) as H. cbv zeta in H |- *.
    pose proof (scaled_pos (Z.pos m) e ltac:(lia)) as Hpos.
    destruct b.
    + rewrite scaled_neg, opp_IZR. lra.
    + lra.
Qed.

End Steps.

Section Distance.
Local Open Scope R_scope.

(** X3. The distance of [n] steps is [n] times the stride up to one
    rounding: the relative error is at most [2 ^ -52]. *)
Theorem calculate_distance_from_steps_accurate (steps : Z) (step_length d : float) :
  (0 < steps < 2 ^ 53)%Z →
  (0 <? step_length)%float = true →
  calculate_distance_from_steps steps step_length = Ok d →
  (d <? infinity)%float = true →
  Rabs (float_value d - IZR steps * float_value step_length)
    <= IZR steps * float_value step_length * powerRZ 2 (-52).
Proof.
  intros Hn Hs Hd Hfin. unfold calculate_distance_from_steps in Hd.
  destruct (float_of_Z_exact steps Hn) as (N & mn & en & HN & HN' & Hval).
  rewrite HN in Hd. cbn in Hd. injection Hd as <-.
  assert (∃ ms es, Prim2SF step_length = S754_finite false ms es) as (ms & es & Hs').
  { destruct (positive_classes step_length Hs) as [Hp|Hp]; [now apply positive_finite_inv|].
    rewrite ltb_spec, FloatAxioms.mul_spec, HN', Hp in Hfin. vm_compute in Hfin.
    discriminate Hfin. }
  destruct (product_error N step_length steps mn en ms es HN' Hval Hs' Hfin)
    as (mp & ep & HP & E1 & E2).
  unfold float_value. rewrite HP, Hs'. apply Rabs_le. lra.
Qed.

End Distance.

Section ZeroHeight.

(** X4. A height of zero gives a stride of zero, on which every step count
    fails with [ZeroDivisionError]. *)
Theorem zero_height_no_steps (height_cm distance_meters : float) :
  (height_cm =? 0)%float = true →
  ∃ s, calculate_step_length height_cm = Ok s ∧
       (s =? 0)%float = true ∧
       calculate_steps distance_meters s = Raise ZeroDivisionError.
Proof.
  intros Hh. eexists. split; [reflexivity|].
  assert ((height_cm / 100 * 0.414 =? 0)%float = true) as Hz.
  { apply eqb_zero_spec in Hh. destruct Hh as [b Hb]. apply eqb_zero_spec.
    rewrite FloatAxioms.mul_spec, FloatAxioms.div_spec, Hb. destruct b; cbn; eauto. }
  split; [exact Hz|].
  now apply calculate_steps_zero.
Qed.

End ZeroHeight.


(** ** What [calculate_walking_distance] prints and raises *)

Section WalkingDistance.
Variable lib : pylib.

(** X5. [calculate_walking_distance] prints only when it has caught a
    [KeyError]: either it prints nothing, and what it raises is not a
    [KeyError], or it prints the two lines of the handler and returns 0. *)
Theorem calculate_walking_distance_output (journey_section : value) :
  ((calculate_walking_distance lib journey_section).2 = [] ∧
   ∀ k, (calculate_walking_distance lib journey_section).1 ≠ Raise (KeyError k)) ∨
  (∃ k, calculate_walking_distance lib journey_section = (Ok 0%float, key_error_lines k)).
Proof.
  unfold calculate_walking_distance.
  destruct (method_get journey_section "from" VNone) as [f|e] eqn:Ef.
  2:{ left. cbn. split; [reflexivity|]. intros k [= ->].
      destruct journey_section; discriminate Ef. }
  cbn [liftR mbind W_bind].
  destruct (negb (truthy f)); [left; cbn; split; [reflexivity|discriminate]|].
  destruct (method_get journey_section "to" VNone) as [t|e] eqn:Et.
  2:{ left. cbn. split; [reflexivity|]. intros k [= ->].
      destruct journey_section; discriminate Et. }
  cbn [liftR mbind W_bind].
  destruct (negb (truthy t)); [left; cbn; split; [reflexivity|discriminate]|].
  match goal with
  | |- context [try_except_KeyError (liftR ?r) _] => destruct r as [d|[]] eqn:Er
  end; cbn; try (left; split; [reflexivity|discriminate]).
  right. exists key. reflexivity.
Qed.

Lemma calculate_walking_distance_present (d : list (string * value)) (f t : value) :
  dict_lookup "from" d = Some f → dict_lookup "to" d = Some t →
  truthy f = true → truthy t = true →
  calculate_walking_distance lib (VDict d) =
    try_except_KeyError
      (liftR (
        from_coord ← endpoint_coord (VDict d) "from";
        to_coord ← endpoint_coord (VDict d) "to";
        x1 ← getitem from_coord "lat"; lat1 ← py_float lib x1;
        x2 ← getitem from_coord "lon"; lon1 ← py_float lib x2;
        x3 ← getitem to_coord "lat"; lat2 ← py_float lib x3;
        x4 ← getitem to_coord "lon"; lon2 ← py_float lib x4;
        haversine_distance lib lat1 lon1 lat2 lon2))
      (fun e =>
        print "KeyError: {}" [VStr e];;
        print "Structure not found in section" [];;
        mret 0%float).
Proof.
  intros Hf Ht Tf Tt. unfold calculate_walking_distance.
  assert (method_get (VDict d) "from" VNone = Ok f) as -> by (cbn; now rewrite Hf).
  cbn [liftR mbind W_bind]. rewrite Tf. cbn [negb].
  assert (method_get (VDict d) "to" VNone = Ok t) as -> by (cbn; now rewrite Ht).
  cbn [liftR mbind W_bind]. rewrite Tt. cbn [negb].
  destruct (try_except_KeyError _ _) as [r o]. reflexivity.
Qed.

(** X6. An endpoint that is not an object is not a [KeyError]: with a
    [from] that is a non-empty string, a number or a list, the function
    raises [AttributeError] and prints nothing. *)
Theorem calculate_walking_distance_not_an_object
    (d : list (string * value)) (f t : value) :
  dict_lookup "from" d = Some f → dict_lookup "to" d = Some t →
  truthy f = true → truthy t = true →
  (∀ e, f ≠ VDict e) →
  calculate_walking_distance lib (VDict d) = (Raise AttributeError, []).
Proof.
  intros Hf Ht Tf Tt Hn.
  rewrite (calculate_walking_distance_present d f t Hf Ht Tf Tt).
  assert (endpoint_coord (VDict d) "from" = Raise AttributeError) as ->.
  { unfold endpoint_coord. cbn [getitem]. rewrite Hf. cbn [mbind Res_bind].
    destruct f; try reflexivity. now destruct (Hn d0). }
  reflexivity.
Qed.

(** X7. Only [embedded_type] decides where the coordinates are read: an
    endpoint of type [address] without an [address] entry, and an endpoint
    of any other type without a [stop_point] entry, give the distance 0
    with the lines of the handler, whatever else the endpoint holds. *)
Theorem calculate_walking_distance_by_embedded_type
    (d e : list (string * value)) (t : value) :
  dict_lookup "from" d = Some (VDict e) → e ≠ [] →
  dict_lookup "to" d = Some t → truthy t = true →
  let ty := default VNone (dict_lookup "embedded_type" e) in
  (eq_str ty "address" = true → dict_lookup "address" e = None →
   calculate_walking_distance lib (VDict d) = (Ok 0%float, key_error_lines "address")) ∧
  (eq_str ty "address" = false → dict_lookup "stop_point" e = None →
   calculate_walking_distance lib (VDict d) = (Ok 0%float, key_error_lines "stop_point")).
Proof.
  intros Hf He Ht Tt ty.
  assert (truthy (VDict e) = true) as Tf by (destruct e; [congruence|reflexivity]).
  rewrite (calculate_walking_distance_present d (VDict e) t Hf Ht Tf Tt).
  split; intros Hty Hk.
  - assert (endpoint_coord (VDict d) "from" = Raise (KeyError "address")) as ->; [|reflexivity].
    unfold endpoint_coord. cbn [getitem]. rewrite Hf. cbn [mbind Res_bind method_get].
    fold ty. rewrite Hty. cbn [getitem mbind Res_bind]. now rewrite Hk.
  - assert (endpoint_coord (VDict d) "from" = Raise (KeyError "stop_point")) as ->; [|reflexivity].
    unfold endpoint_coord. cbn [getitem]. rewrite Hf. cbn [mbind Res_bind method_get].
    fold ty. rewrite Hty. cbn [getitem mbind Res_bind]. now rewrite Hk.
Qed.

End WalkingDistance.

(** ** One request for an itinerary *)

Section GetItinerary.
Variable service : nat → request → Res value.

(** X8. [get_itinerary] sends exactly one request and hides nothing: it
    returns the payload or raises the exception of the HTTP client as it
    is, after a line of error when the exception is a
    [RequestException], and touches neither the lists nor the search. *)
Theorem get_itinerary_outcome (api_key : string) (from_lat from_lon to_lat to_lon : float)
    (st : state) :
  let rq := Request api_key from_lat from_lon to_lat to_lon in
  let r := service (calls st) rq in
  let st' := (get_itinerary service api_key from_lat from_lon to_lat to_lon st).2 in
  (get_itinerary service api_key from_lat from_lon to_lat to_lon st).1 = r ∧
  calls st' = S (calls st) ∧ heap st' = heap st ∧ best st' = best st ∧
  events_since st st' =
    Call rq r :: match r with
                 | Raise e => if is_RequestException e
                              then [Print "Error fetching itinerary: {}" [exn_value e]]
                              else []
                 | Ok _ => []
                 end.
Proof.
  cbv zeta. rewrite get_itinerary_run. cbv zeta. cbn [fst snd calls heap].
  repeat split. now apply events_since_app.
Qed.

End GetItinerary.

(** ** The aggregator over an itinerary *)

Section Itinerary.
Variable lib : pylib.

Ltac w_step H a E :=
  let o1 := fresh "o" in
  let o2 := fresh "o" in
  apply W_bind_Ok in H; destruct H as (a & o1 & o2 & E & H & ->).

Lemma eq_str_true v s : eq_str v s = true → v = VStr s.
Proof.
  destruct v; try discriminate. cbn. intros H. apply String.eqb_eq in H. now subst.
Qed.

(** What the aggregator has gone through when it returns a summary. *)
Lemma format_itinerary_returns journey_data step s o :
  format_itinerary_with_steps lib journey_data step = (Ok (Some s), o) →
  ∃ journey sections acc o1 ts,
    (js ← getitem journey_data "journeys"; getitem0 js) = Ok journey ∧
    (x ← getitem journey "sections"; iterate x) = Ok sections ∧
    format_sections lib step (Totals 0 0 0) sections = (Ok acc, o1) ∧
    calculate_steps (total_walking_distance acc) step = Ok ts ∧
    s = Summary acc ts (total_distance acc * 206.0)%float.
Proof.
  intros H. unfold format_itinerary_with_steps in H.
  w_step H js E0. destruct (negb (truthy js)).
  { w_step H u E. discriminate H. }
  w_step H journey Ej. apply liftR_Ok in Ej. destruct Ej as [Ej ->].
  w_step H u1 Eu1. w_step H u2 Eu2. w_step H mins Eu3. w_step H u4 Eu4.
  w_step H sections Es. apply liftR_Ok in Es. destruct Es as [Es ->].
  w_step H acc Eacc. w_step H steps Est. apply liftR_Ok in Est. destruct Est as [Est ->].
  w_step H car Ecar.
  apply liftR_Ok in Ecar. destruct Ecar as [Ecar ->].
  vm_compute in Ecar. injection Ecar as <-.
  cbv zeta in H.
  w_step H v1 P1. w_step H v2 P2. w_step H v3 P3. w_step H v4 P4.
  w_step H v5 P5. w_step H v6 P6. w_step H v7 P7. w_step H v8 P8.
  injection H as <- <-. eauto 10.
Qed.

(** X9. The aggregator prints only that no journey was found when the
    payload holds no itinerary, and formats the first itinerary alone when
    it holds several: the others are ignored. *)
Theorem format_itinerary_first_journey (d : list (string * value)) (step_length : float) :
  (truthy (default VNone (dict_lookup "journeys" d)) = false →
   format_itinerary_with_steps lib (VDict d) step_length
     = (Ok None, [Print "No journeys found!" []])) ∧
  (∀ j rest, dict_lookup "journeys" d = Some (VList (j :: rest)) →
   format_itinerary_with_steps lib (VDict d) step_length
     = format_itinerary_with_steps lib (response_of [j]) step_length).
Proof.
  split.
  - intros H. unfold format_itinerary_with_steps. cbn [method_get liftR mbind W_bind].
    rewrite H. reflexivity.
  - intros j rest H. unfold format_itinerary_with_steps, response_of.
    cbn [method_get getitem]. rewrite H.
    cbn [dict_lookup String.eqb Ascii.eqb Bool.eqb default from_option id].
    cbn [liftR mbind W_bind Res_bind getitem0 truthy negb]. reflexivity.
Qed.

(** The totals of the transit change on public-transport sections only. *)
Lemma format_section_frame step acc section acc' o :
  getitem section "type" ≠ Ok (VStr "public_transport") →
  format_section lib step acc section = (Ok acc', o) →
  total_distance acc' = total_distance acc ∧ total_co2 acc' = total_co2 acc.
Proof.
  intros Hty H. unfold format_section in H.
  w_step H ty E. apply liftR_Ok in E. destruct E as [E ->].
  destruct (eq_str ty "public_transport") eqn:Ep.
  { apply eq_str_true in Ep. subst ty. contradiction. }
  w_step H ty2 Hq2. w_step H walking Ew. destruct walking.
  - w_step H wd Ewd. w_step H steps Es. w_step H mins Em. w_step H u Eu.
    injection H as <- _. cbn. auto.
  - w_step H ty3 Hq3. destruct (eq_str ty3 "waiting").
    + w_step H mins Em. w_step H u Eu. injection H as <- _. auto.
    + injection H as <- _. auto.
Qed.

Lemma format_sections_frame step sections :
  Forall (λ section, getitem section "type" ≠ Ok (VStr "public_transport")) sections →
  ∀ acc acc' o, format_sections lib step acc sections = (Ok acc', o) →
    total_distance acc' = total_distance acc ∧ total_co2 acc' = total_co2 acc.
Proof.
  induction 1 as [|section rest Hs Hrest IH]; intros acc acc' o H; cbn [format_sections] in H.
  - injection H as <- _. auto.
  - w_step H acc1 Hq1.
    destruct (format_section_frame _ _ _ _ _ Hs Hq1) as [Hd Hc].
    destruct (IH _ _ _ H) as [Hd' Hc']. split; congruence.
Qed.

(** X10. An itinerary without a public-transport section has no transit
    distance and no emissions: the summary counts 0 km, 0 g by public
    transport, 0 g by car and 0 g saved. *)
Theorem format_itinerary_without_transit (journey_data : value) (step_length : float)
    (s : summary) (o : list event) (journey : value) (sections : list value) :
  format_itinerary_with_steps lib journey_data step_length = (Ok (Some s), o) →
  (js ← getitem journey_data "journeys"; getitem0 js) = Ok journey →
  (x ← getitem journey "sections"; iterate x) = Ok sections →
  Forall (λ section, getitem section "type" ≠ Ok (VStr "public_transport")) sections →
  total_distance (sum_totals s) = 0%float ∧
  total_co2 (sum_totals s) = 0%float ∧
  car_co2 s = 0%float ∧
  (car_co2 s - total_co2 (sum_totals s))%float = 0%float.
Proof.
  intros H Hj Hs Hall.
  destruct (format_itinerary_returns _ _ _ _ H) as (j' & ss & acc & o1 & ts & Ej & Es & Ef & _ & ->).
  rewrite Hj in Ej. injection Ej as <-. rewrite Hs in Es. injection Es as <-.
  destruct (format_sections_frame _ _ Hall _ _ _ Ef) as [Hd Hc].
  cbn [sum_totals car_co2 total_distance total_co2] in *. rewrite Hd, Hc.
  repeat split; reflexivity.
Qed.

(** A section adds its distance to the walking total exactly when the
    search counts it as a walk. *)
Lemma format_section_walking step acc section acc' o :
  format_section lib step acc section = (Ok acc', o) →
  ∃ w, is_walking section = Ok w ∧
    if w then ∃ d od, calculate_walking_distance lib section = (Ok d, od) ∧
                      total_walking_distance acc' = (total_walking_distance acc + d)%float
    else total_walking_distance acc' = total_walking_distance acc.
Proof.
  intros H. unfold format_section in H. unfold is_walking.
  w_step H ty E. apply liftR_Ok in E. destruct E as [E ->]. rewrite E. cbn [mbind Res_bind].
  destruct (eq_str ty "public_transport") eqn:Ep.
  - apply eq_str_true in Ep. subst ty.
    change (eq_str (VStr "public_transport") "street_network") with false. cbv iota.
    exists false. split; [reflexivity|].
    w_step H d Hq1. w_step H mode Hq2. w_step H args Hq3. w_step H u Hq4.
    injection H as <- _. reflexivity.
  - w_step H ty2 Hq2. apply liftR_Ok in Hq2. destruct Hq2 as [Hq2 ->].
    rewrite E in Hq2. injection Hq2 as <-.
    w_step H walking Ew.
    assert ((if eq_str ty "street_network"
             then m ← getitem section "mode"; Ok (eq_str m "walking")
             else Ok false) = Ok walking) as Hw.
    { destruct (eq_str ty "street_network").
      - apply liftR_Ok in Ew. tauto.
      - now injection Ew as <- _. }
    rewrite Hw. exists walking. split; [reflexivity|].
    destruct walking.
    + w_step H wd Ewd. w_step H steps Es. w_step H mins Em. w_step H u Eu.
      injection H as <- _. cbn. eauto.
    + w_step H ty3 Hq3. destruct (eq_str ty3 "waiting").
      * w_step H mins Em. w_step H u Eu. injection H as <- _. reflexivity.
      * injection H as <- _. reflexivity.
Qed.

Lemma format_sections_walking step sections :
  ∀ acc acc' o ds o',
    format_sections lib step acc sections = (Ok acc', o) →
    walking_distances lib sections = (Ok ds, o') →
    total_walking_distance acc' = foldl PrimFloat.add (total_walking_distance acc) ds.
Proof.
  induction sections as [|section rest IH]; intros acc acc' o ds o' H Hd;
    cbn [format_sections walking_distances] in H, Hd.
  - injection H as <- _. injection Hd as <- _. reflexivity.
  - w_step H acc1 Hq1.
    destruct (format_section_walking _ _ _ _ _ Hq1) as (w & Hw & Hacc).
    rewrite Hw in Hd. cbn [liftR mbind W_bind] in Hd.
    destruct w.
    + destruct Hacc as (d & od & Ed & Hacc).
      rewrite Ed in Hd. cbn [mbind W_bind] in Hd.
      destruct (walking_distances lib rest) as [[ds'|e] o2] eqn:Er; [|discriminate Hd].
      cbn in Hd. injection Hd as <- _.
      cbn [foldl]. rewrite <- Hacc. eapply IH; [exact H|reflexivity].
    + destruct (walking_distances lib rest) as [[ds'|e] o2] eqn:Er; [|discriminate Hd].
      cbn in Hd. injection Hd as <- _.
      rewrite <- Hacc. eapply IH; [exact H|reflexivity].
Qed.

(** X11. Where [sum] adds from left to right, the walking distance by
    which the search scores an itinerary is the total walking distance the
    aggregator prints for it. *)
Theorem walking_total_agrees (journey_data : value) (step_length : float)
    (s : summary) (o : list event) (journey : value) (w : float) (o' : list event) :
  (∀ l, py_sum lib l = foldl PrimFloat.add 0%float l) →
  format_itinerary_with_steps lib journey_data step_length = (Ok (Some s), o) →
  (js ← getitem journey_data "journeys"; getitem0 js) = Ok journey →
  journey_walking_distance lib journey = (Ok w, o') →
  total_walking_distance (sum_totals s) = w.
Proof.
  intros Hsum H Hj Hw.
  destruct (format_itinerary_returns _ _ _ _ H) as (j' & ss & acc & o1 & ts & Ej & Es & Ef & _ & ->).
  rewrite Hj in Ej. injection Ej as <-.
  unfold journey_walking_distance in Hw. rewrite Es in Hw. cbn [liftR mbind W_bind] in Hw.
  destruct (walking_distances lib ss) as [[ds|e] o2] eqn:Ed; [|discriminate Hw].
  cbn in Hw. injection Hw as <- _.
  cbn [sum_totals]. rewrite Hsum.
  exact (format_sections_walking _ _ _ _ _ _ _ Ef Ed).
Qed.

(** X12. With a stride of zero the aggregator never gets to its summary:
    the step count fails. *)
Theorem format_itinerary_zero_stride (journey_data : value) (step_length : float) :
  (step_length =? 0)%float = true →
  ∀ s o, format_itinerary_with_steps lib journey_data step_length ≠ (Ok (Some s), o).
Proof.
  intros Hz s o H.
  destruct (format_itinerary_returns _ _ _ _ H) as (j' & ss & acc & o1 & ts & _ & _ & _ & Hs & _).
  rewrite (calculate_steps_zero _ _ Hz) in Hs. discriminate Hs.
Qed.

End Itinerary.

(** ** The requests of a search *)

Section Requests.
Variable lib : pylib.
Variable service : nat → request → Res value.
Variable from_lat from_lon to_lat to_lon target : float.
Variable api_key : string.

Lemma requests_app o1 o2 : requests (o1 ++ o2) = requests o1 ++ requests o2.
Proof. induction o1 as [|[]]; cbn; congruence. Qed.

Lemma requests_prints o : Forall is_print o → requests o = [].
Proof. induction 1 as [|[] ? []]; cbn; auto. Qed.

Lemma count_calls_requests o : count_calls o = length (requests o).
Proof. induction o as [|[]]; cbn; congruence. Qed.

Lemma requests_responses o : requests o = [] → responses o = [].
Proof. induction o as [|[]]; cbn; auto; discriminate. Qed.

Local Abbreviation err e := (Print "Error processing route: {}" [exn_value e]).

Local Abbreviation evaluate :=
  (evaluate_pair lib service from_lat from_lon to_lat to_lon target api_key).

Local Abbreviation the_requests :=
  (pair_requests lib from_lat from_lon to_lat to_lon api_key).

Ltac pair_stops :=
  cbn; rewrite ?emit_emit; eexists _, _; split; [reflexivity|]; split; reflexivity.

(** A pair of stations sends its request, when it gets that far, and
    nothing else. *)
Lemma evaluate_pair_requests f t st :
  ∃ st' o, evaluate f t st = (Ok tt, st') ∧ out st' = out st ++ o ∧
           requests o = the_requests f t.
Proof.
  unfold evaluate_pair, try_except, try_pair, pair_requests, pair_request.
  set (cf1 := station_coord lib f "lat"). set (cf2 := station_coord lib f "lon").
  set (ct1 := station_coord lib t "lat"). set (ct2 := station_coord lib t "lon").
  rewrite bind_M_run, liftW_liftR_run.
  destruct cf1 as [flat|e]; [|pair_stops].
  destruct cf2 as [flon|e]; [|pair_stops].
  cbn [mbind Res_bind].
  destruct (haversine_distance lib from_lat from_lon flat flon) as [d1|e]; [|pair_stops].
  rewrite bind_M_run, liftW_liftR_run.
  destruct ct1 as [tlat|e]; [|pair_stops].
  destruct ct2 as [tlon|e]; [|pair_stops].
  cbn [mbind Res_bind].
  destruct (haversine_distance lib tlat tlon to_lat to_lon) as [d2|e]; [|pair_stops].
  rewrite bind_M_run, liftW_run. cbn [print fst snd].
  rewrite bind_M_run, liftW_liftR_run.
  rewrite bind_M_run, get_itinerary_run. cbv zeta.
  cbn [emit calls heap out best_journey best_score].
  set (line := Print _ [VFloat (d1 / 1000)%float; _]).
  set (rq := Request api_key flat flon tlat tlon).
  destruct (service (calls st) rq) as [result|e] eqn:Hr.
  - rewrite bind_M_run, liftW_liftR_run.
    set (s1 := State _ _ _ _ _).
    assert (out s1 = out st ++ [line; Call rq (Ok result)]) as O1.
    { unfold s1. cbn. now rewrite <- app_assoc. }
    clearbody s1.
    assert (∀ o2, Forall is_print o2 →
              requests ([line; Call rq (Ok result)] ++ o2) = [rq]) as Hq.
    { intros o2 Ho2. cbn. now rewrite (requests_prints o2 Ho2). }
    destruct (method_get result "journeys" VNone) as [js|e].
    2:{ cbn. eexists _, ([line; Call rq (Ok result)] ++ [err e]). split; [reflexivity|].
        split; [cbn; rewrite O1, <- app_assoc; reflexivity|].
        apply Hq. repeat constructor. }
    destruct (negb (truthy js)).
    { cbn. eexists _, ([line; Call rq (Ok result)] ++ []). split; [reflexivity|].
      split; [now rewrite app_nil_r|]. apply Hq. constructor. }
    rewrite bind_M_run, liftW_liftR_run.
    destruct (_ ≫= _) as [journeys|e].
    2:{ cbn. eexists _, ([line; Call rq (Ok result)] ++ [err e]). split; [reflexivity|].
        split; [cbn; rewrite O1, <- app_assoc; reflexivity|].
        apply Hq. repeat constructor. }
    destruct (score_journeys_spec lib target journeys s1) as (o2 & Hp2 & (_ & H2 & _)).
    destruct (score_journeys lib target journeys s1) as [[[]|e] s2]; cbn [snd] in H2.
    + exists s2, ([line; Call rq (Ok result)] ++ o2). split; [reflexivity|].
      split; [rewrite H2, O1, <- app_assoc; reflexivity|]. now apply Hq.
    + cbn. exists (emit [err e] s2), ([line; Call rq (Ok result)] ++ o2 ++ [err e]).
      split; [reflexivity|].
      split; [cbn; rewrite H2, O1, <- !app_assoc; reflexivity|].
      apply Hq. apply Forall_app. split; [assumption|repeat constructor].
  - cbn. eexists _, (line :: Call rq (Raise e) :: failure_lines e). split; [reflexivity|].
    split.
    + unfold failure_lines. destruct (is_RequestException e); cbn;
        rewrite <- !app_assoc; reflexivity.
    + cbn. f_equal. apply requests_prints. apply failure_lines_prints.
Qed.

Lemma for_to_stations_requests f ts st :
  ∃ st' o,
    for_to_stations lib service from_lat from_lon to_lat to_lon target api_key f ts st
      = (Ok tt, st') ∧
    out st' = out st ++ o ∧ requests o = flat_map (the_requests f) ts.
Proof.
  revert st. induction ts as [|t ts IH]; intros st; cbn [for_to_stations flat_map].
  - exists st, []. split; [reflexivity|]. split; [now rewrite app_nil_r|reflexivity].
  - rewrite bind_M_run.
    destruct (evaluate_pair_requests f t st) as (s1 & o1 & Hq1 & O1 & R1). rewrite Hq1.
    destruct (IH s1) as (s2 & o2 & Hq2 & O2 & R2).
    exists s2, (o1 ++ o2). split; [exact Hq2|].
    split; [now rewrite O2, O1, app_assoc|]. now rewrite requests_app, R1, R2.
Qed.

Lemma for_from_stations_requests fs ts st :
  ∃ st' o,
    for_from_stations lib service from_lat from_lon to_lat to_lon target api_key fs ts st
      = (Ok tt, st') ∧
    out st' = out st ++ o ∧
    requests o = flat_map (λ f, flat_map (the_requests f) ts) fs.
Proof.
  revert st. induction fs as [|f fs IH]; intros st; cbn [for_from_stations flat_map].
  - exists st, []. split; [reflexivity|]. split; [now rewrite app_nil_r|reflexivity].
  - rewrite bind_M_run.
    destruct (for_to_stations_requests f ts st) as (s1 & o1 & Hq1 & O1 & R1). rewrite Hq1.
    destruct (IH s1) as (s2 & o2 & Hq2 & O2 & R2).
    exists s2, (o1 ++ o2). split; [exact Hq2|].
    split; [now rewrite O2, O1, app_assoc|]. now rewrite requests_app, R1, R2.
Qed.

Lemma the_requests_length f t : (length (the_requests f t) ≤ 1)%nat.
Proof. unfold pair_requests. destruct (pair_request _ _ _ _ _ _ _ _); cbn; lia. Qed.

Lemma flat_map_requests_length fs ts :
  (length (flat_map (λ f, flat_map (the_requests f) ts) fs) ≤ length fs * length ts)%nat.
Proof.
  assert (∀ f, length (flat_map (the_requests f) ts) ≤ length ts)%nat as H.
  { intros f. induction ts as [|t ts IH]; cbn; [lia|].
    rewrite length_app. pose proof (the_requests_length f t). lia. }
  induction fs as [|f fs IH]; cbn; [lia|].
  rewrite length_app. specialize (H f). lia.
Qed.

End Requests.

(** ** The search as its caller sees it *)

Section Caller.
Variable lib : pylib.
Variable service : nat → request → Res value.
Variable from_lat from_lon to_lat to_lon : float.
Variable from_stations to_stations : loc.
Variable target_steps : Z.
Variable step_length : float.
Variable api_key : string.

Local Abbreviation prelude :=
  (search_prelude lib from_lat from_lon to_lat to_lon from_stations to_stations
     target_steps step_length).
Local Abbreviation route :=
  (find_best_route lib service from_lat from_lon to_lat to_lon from_stations to_stations
     target_steps step_length api_key).
Local Abbreviation the_requests :=
  (pair_requests lib from_lat from_lon to_lat to_lon api_key).
Local Abbreviation loops target sf sts :=
  (for_from_stations lib service from_lat from_lon to_lat to_lon target api_key sf sts).

(** After the preparation the search is the two loops. *)
Lemma find_best_route_loop st target sf sts s1 :
  prelude st = (Ok (target, sf, sts), s1) →
  route st = (loops target sf sts ≫= λ _, get_best_journey) s1.
Proof.
  unfold search_prelude, find_best_route.
  rewrite !(bind_M_run (set_best _ _)). cbn [set_best].
  set (s0 := State _ _ _ _ _). clearbody s0.
  rewrite !(bind_M_run (liftW _)), !liftW_liftR_run.
  destruct (calculate_distance_from_steps target_steps step_length) as [tgt|e]; [|discriminate].
  rewrite !(bind_M_run (list_sort _ _)).
  destruct (list_sort _ from_stations s0) as [[[]|e] s1']; [|discriminate].
  rewrite !(bind_M_run (list_sort _ _)).
  destruct (list_sort _ to_stations s1') as [[[]|e] s2]; [|discriminate].
  rewrite !(bind_M_run (read_list _)). unfold read_list.
  destruct (heap s2 !! from_stations) as [fs|]; [|discriminate].
  rewrite !(bind_M_run (λ st0, match heap st0 !! to_stations with
                               | Some l => (Ok l, st0)
                               | None => (Raise AttributeError, st0)
                               end)).
  destruct (heap s2 !! to_stations) as [ts|]; [|discriminate].
  destruct (select_stations target_steps fs ts) as [[sf' sts'] line].
  rewrite !(bind_M_run (liftW _)), !liftW_run. cbn [fst snd mret M_ret].
  intros [= <- <- <- <-]. reflexivity.
Qed.

(** The run of the loops: the itinerary kept and the requests sent. *)
Lemma loops_run target sf sts s1 :
  ∃ st' o,
    loops target sf sts s1 = (Ok tt, st') ∧
    advances s1 st' o (candidates lib target o) ∧
    requests o = flat_map (λ f, flat_map (the_requests f) sts) sf.
Proof.
  destruct (for_from_stations_spec lib service from_lat from_lon to_lat to_lon target
              api_key sf sts s1) as (st' & o & E & A & _).
  destruct (for_from_stations_requests lib service from_lat from_lon to_lat to_lon target
              api_key sf sts s1) as (st2 & o2 & Hq2 & O2 & R2).
  rewrite E in Hq2. injection Hq2 as <-.
  destruct A as (A1 & A2 & A3 & A4).
  rewrite A2 in O2. apply app_inv_head in O2. subst o2.
  exists st', o. split; [exact E|]. split; [|exact R2].
  unfold advances. repeat split; assumption.
Qed.

Lemma find_best_route_summary st target sf sts s1 :
  prelude st = (Ok (target, sf, sts), s1) →
  ∃ st' o1 o,
    route st = (Ok (best_journey st'), st') ∧
    Forall is_print o1 ∧ events_since st st' = o1 ++ o ∧
    calls st' = (calls st + count_calls o)%nat ∧
    best st' = pick_best (VNone, infinity) (candidates lib target o) ∧
    requests o = flat_map (λ f, flat_map (the_requests f) sts) sf.
Proof.
  intros Hp. rewrite (find_best_route_loop _ _ _ _ _ Hp), bind_M_run.
  destruct (loops_run target sf sts s1) as (st' & o & E & (A1 & A2 & A3 & A4) & R).
  rewrite E.
  destruct (prelude_spec lib from_lat from_lon to_lat to_lon from_stations to_stations
              target_steps step_length st) as (o1 & Ho1 & O1 & C1 & B1 & _).
  rewrite Hp in O1, C1, B1. cbn [fst snd] in O1, C1, B1.
  exists st', o1, o. split; [reflexivity|]. split; [assumption|]. split.
  { apply events_since_app. now rewrite A2, O1, app_assoc. }
  split; [congruence|]. split; [|assumption].
  rewrite A4, B1 by reflexivity. reflexivity.
Qed.

(** X13. The search asks for an itinerary between the two stations of
    each selected pair, in the order of the loops (the stations near the
    origin outside, those near the destination inside), and for nothing
    else; a pair whose coordinates or distances fail gets no request. *)
Theorem find_best_route_requests (st s1 : state) (target : float)
    (selected_from selected_to : list value) :
  search_prelude lib from_lat from_lon to_lat to_lon from_stations to_stations
    target_steps step_length st = (Ok (target, selected_from, selected_to), s1) →
  ∃ j st',
    find_best_route lib service from_lat from_lon to_lat to_lon from_stations to_stations
      target_steps step_length api_key st = (Ok j, st') ∧
    requests (events_since st st')
      = flat_map
          (λ f, flat_map (pair_requests lib from_lat from_lon to_lat to_lon api_key f)
                         selected_to)
          selected_from.
Proof.
  intros Hp.
  destruct (find_best_route_summary _ _ _ _ _ Hp) as (st' & o1 & o & E & Ho1 & Ev & _ & _ & R).
  exists (best_journey st'), st'. split; [assumption|].
  now rewrite Ev, requests_app, (requests_prints o1 Ho1).
Qed.

Lemma select_stations_length fs ts sf sts line :
  select_stations target_steps fs ts = (sf, sts, line) →
  (length sf ≤ MAX_STATIONS ∧ length sts ≤ MAX_STATIONS)%nat.
Proof.
  unfold select_stations, slice_last, slice_first.
  destruct (target_steps >? 3000); intros [= <- <- _];
    rewrite ?length_drop, ?length_take; lia.
Qed.

Lemma prelude_raise_silent st e s1 :
  prelude st = (Raise e, s1) → out s1 = out st.
Proof.
  unfold search_prelude.
  rewrite !(bind_M_run (set_best _ _)). cbn [set_best].
  set (s0 := State _ _ _ _ _).
  assert (out s0 = out st) as O0 by reflexivity. clearbody s0.
  rewrite !(bind_M_run (liftW _)), !liftW_liftR_run.
  destruct (calculate_distance_from_steps target_steps step_length) as [tgt|e'].
  2:{ intros [= _ <-]. exact O0. }
  rewrite !(bind_M_run (list_sort _ _)).
  destruct (list_sort_spec (station_key lib from_lat from_lon) from_stations s0)
    as (sa & Ea & _ & Oa & _).
  destruct (list_sort _ from_stations s0) as [[[]|e'] sa']; cbn [snd] in Ea; subst sa'.
  2:{ intros [= _ <-]. congruence. }
  rewrite !(bind_M_run (list_sort _ _)).
  destruct (list_sort_spec (station_key lib to_lat to_lon) to_stations sa)
    as (sb & Eb & _ & Ob & _).
  destruct (list_sort _ to_stations sa) as [[[]|e'] sb']; cbn [snd] in Eb; subst sb'.
  2:{ intros [= _ <-]. congruence. }
  rewrite !(bind_M_run (read_list _)). unfold read_list.
  destruct (heap sb !! from_stations) as [fs|].
  2:{ intros [= _ <-]. congruence. }
  rewrite bind_M_run.
  destruct (heap sb !! to_stations) as [ts|].
  2:{ intros [= _ <-]. congruence. }
  destruct (select_stations target_steps fs ts) as [[sf sts] line].
  rewrite bind_M_run, liftW_run. cbn [fst snd mret M_ret]. discriminate.
Qed.

(** X14. A search sends at most [MAX_STATIONS * MAX_STATIONS] requests,
    100 of them, whatever the lists hold and whatever the service
    answers. *)
Theorem find_best_route_request_bound (st : state) :
  (calls (find_best_route lib service from_lat from_lon to_lat to_lon from_stations
            to_stations target_steps step_length api_key st).2
   ≤ calls st + MAX_STATIONS * MAX_STATIONS)%nat.
Proof.
  destruct (prelude st) as [[[[target sf] sts]|e] s1] eqn:Hp.
  - destruct (find_best_route_summary _ _ _ _ _ Hp) as (st' & o1 & o & E & _ & _ & C & _ & R).
    rewrite E. cbn [snd]. rewrite C, count_calls_requests, R.
    destruct (prelude_ok lib from_lat from_lon to_lat to_lon from_stations to_stations
                target_steps step_length _ _ _ _ _ Hp) as (_ & fs & ts & line & _ & _ & Hsel).
    destruct (select_stations_length _ _ _ _ _ Hsel) as [L1 L2].
    pose proof (flat_map_requests_length lib from_lat from_lon to_lat to_lon api_key sf sts).
    pose proof (Nat.mul_le_mono _ _ _ _ L1 L2). lia.
  - pose proof (find_best_route_run lib service from_lat from_lon to_lat to_lon
                  from_stations to_stations target_steps step_length api_key st) as H.
    rewrite Hp in H. rewrite H. cbn [snd].
    destruct (prelude_spec lib from_lat from_lon to_lat to_lon from_stations to_stations
                target_steps step_length st) as (_ & _ & _ & C & _).
    rewrite Hp in C. cbn [snd] in C. lia.
Qed.

(** X15. When [find_best_route] raises, the failure is in its
    preparation: no request was sent and nothing was printed, and the
    lists of the caller hold the stations they held, in some order. *)
Theorem find_best_route_raises_early (st st' : state) (e : exn) :
  find_best_route lib service from_lat from_lon to_lat to_lon from_stations to_stations
    target_steps step_length api_key st = (Raise e, st') →
  calls st' = calls st ∧ events_since st st' = [] ∧
  ∀ r l, heap st !! r = Some l → ∃ l', heap st' !! r = Some l' ∧ l' ≡ₚ l.
Proof.
  intros Hr.
  pose proof (find_best_route_run lib service from_lat from_lon to_lat to_lon
                from_stations to_stations target_steps step_length api_key st) as H.
  destruct (prelude_spec lib from_lat from_lon to_lat to_lon from_stations to_stations
              target_steps step_length st) as (_ & _ & _ & C & _ & Hh).
  destruct (prelude st) as [[[[target sf] sts]|e'] s1] eqn:Hp.
  { destruct H as (s2 & o & E & _). rewrite E in Hr. discriminate Hr. }
  rewrite H in Hr. injection Hr as <- <-. cbn [snd] in C, Hh.
  split; [assumption|]. split.
  - unfold events_since. rewrite (prelude_raise_silent _ _ _ Hp). apply drop_all.
  - intros r l Hl. destruct (Hh r l Hl) as (l' & ? & ? & _). eauto.
Qed.

Lemma flat_map_no_inner {A B} (l : list A) : flat_map (λ _ : A, @nil B) l = [].
Proof. induction l; cbn; auto. Qed.

(** X16. With an empty list of stations on either side the search
    returns [None] and sends no request. *)
Theorem find_best_route_no_station (st : state) :
  is_Ok (search_prelude lib from_lat from_lon to_lat to_lon from_stations to_stations
           target_steps step_length st).1 = true →
  heap st !! from_stations = Some [] ∨ heap st !! to_stations = Some [] →
  ∃ st',
    find_best_route lib service from_lat from_lon to_lat to_lon from_stations to_stations
      target_steps step_length api_key st = (Ok VNone, st') ∧
    calls st' = calls st ∧ requests (events_since st st') = [].
Proof.
  intros Hok Hempty.
  destruct (prelude st) as [[[[target sf] sts]|e] s1] eqn:Hp; [|discriminate Hok].
  destruct (prelude_ok lib from_lat from_lon to_lat to_lon from_stations to_stations
              target_steps step_length _ _ _ _ _ Hp) as (_ & fs & ts & line & Hf & Ht & Hsel).
  destruct (prelude_spec lib from_lat from_lon to_lat to_lon from_stations to_stations
              target_steps step_length st) as (_ & _ & _ & _ & _ & Hh).
  rewrite Hp in Hh. cbn [snd] in Hh.
  assert (sf = [] ∨ sts = []) as Hsel'.
  { unfold select_stations, slice_last, slice_first in Hsel.
    destruct Hempty as [He|He]; destruct (Hh _ _ He) as (l' & Hl' & Hperm & _);
      apply Permutation_nil_r in Hperm; subst l'.
    - left. rewrite Hf in Hl'. injection Hl' as ->.
      destruct (target_steps >? 3000); now injection Hsel as <- _ _.
    - right. rewrite Ht in Hl'. injection Hl' as ->.
      destruct (target_steps >? 3000); now injection Hsel as _ <- _. }
  destruct (find_best_route_summary _ _ _ _ _ Hp) as (st' & o1 & o & E & Ho1 & Ev & C & B & R).
  assert (requests o = []) as Rn.
  { rewrite R. destruct Hsel' as [-> | ->]; [reflexivity|]. cbn. apply flat_map_no_inner. }
  exists st'. split; [|split].
  - rewrite E. f_equal. f_equal.
    unfold candidates in B. rewrite (requests_responses o Rn) in B. cbn in B.
    unfold best in B. now injection B as ->.
  - rewrite C, count_calls_requests, Rn. cbn. lia.
  - now rewrite Ev, requests_app, (requests_prints o1 Ho1), Rn.
Qed.

Lemma pick_best_improves l b :
  pick_best b l = b ∨
  (pick_best b l ∈ l ∧ ((pick_best b l).2 <? b.2)%float = true).
Proof.
  revert b. induction l as [|c l IH]; intros b; [now left|].
  rewrite pick_best_cons. destruct (c.2 <? b.2)%float eqn:Hc.
  - right. destruct (IH c) as [->|[Hin Hlt]].
    + split; [now left|assumption].
    + split; [now right|]. eauto using ltb_trans.
  - destruct (IH b) as [->|[Hin Hlt]]; [now left|right].
    split; [now right|assumption].
Qed.

Lemma scored_journeys_score target js c :
  c ∈ scored_journeys lib target js → c.2 = score lib target c.1.
Proof.
  induction js as [|j js IH]; cbn; [inversion 1|].
  destruct (journey_walking_distance lib j).1 as [total|e] eqn:Ej; [|inversion 1].
  intros H. apply elem_of_cons in H. destruct H as [->|H]; [|auto].
  cbn. unfold score, walking_total. now rewrite Ej.
Qed.

Lemma candidates_score target o c :
  c ∈ candidates lib target o → c.2 = score lib target c.1.
Proof.
  unfold candidates. intros H. apply list_elem_of_In, in_flat_map in H.
  destruct H as (result & _ & Hc). apply list_elem_of_In in Hc.
  unfold response_candidates in Hc.
  destruct (response_journeys result); [|inversion Hc].
  eauto using scored_journeys_score.
Qed.

(** X17. An itinerary whose score is not a number, or is infinite, is
    never returned: what the search returns is [None] or an itinerary
    with a finite score. *)
Theorem find_best_route_finite_score (st st' : state) (j : value) (target : float) :
  find_best_route lib service from_lat from_lon to_lat to_lon from_stations to_stations
    target_steps step_length api_key st = (Ok j, st') →
  calculate_distance_from_steps target_steps step_length = Ok target →
  j = VNone ∨ (score lib target j <? infinity)%float = true.
Proof.
  intros Hr Ht.
  destruct (find_best_route_returns lib service from_lat from_lon to_lat to_lon
              from_stations to_stations target_steps step_length api_key st j st' Hr)
    as (target' & sf & sts & s1 & o1 & o & Hp & _ & _ & _ & _ & _ & Hb & _).
  destruct (prelude_ok lib from_lat from_lon to_lat to_lon from_stations to_stations
              target_steps step_length _ _ _ _ _ Hp) as (Ht' & _).
  rewrite Ht in Ht'. injection Ht' as <-.
  destruct (pick_best_improves (candidates lib target o) (VNone, infinity)) as [Hn|[Hin Hlt]].
  - left. rewrite Hn in Hb. now injection Hb as ->.
  - right. rewrite <- Hb in Hin, Hlt. cbn [fst snd] in Hlt.
    apply candidates_score in Hin. cbn [fst snd] in Hin. now rewrite <- Hin.
Qed.

End Caller.

Section Short.

(** X18. Lists of at most [MAX_STATIONS] stations are tried whole,
    whatever the step target: both slices are the list itself. *)
Theorem select_stations_short (target_steps : Z) (from_stations to_stations : list value) :
  (length from_stations ≤ MAX_STATIONS)%nat →
  (length to_stations ≤ MAX_STATIONS)%nat →
  (select_stations target_steps from_stations to_stations).1
    = (from_stations, to_stations).
Proof.
  intros Hf Ht. unfold select_stations, slice_last, slice_first.
  destruct (target_steps >? 3000); cbn [fst].
  - replace (length from_stations - MAX_STATIONS)%nat with 0%nat by lia.
    replace (length to_stations - MAX_STATIONS)%nat with 0%nat by lia.
    reflexivity.
  - now rewrite !take_ge by lia.
Qed.

End Short.

(** ** The stations around a point *)

Section Stations.
Variable places_endpoint : places_request → http_outcome.
Variable center_lat center_lon radius : float.
Variable api_key : string.

Local Abbreviation stations :=
  (find_stations_in_radius places_endpoint center_lat center_lon radius api_key).

Lemma find_stations_in_radius_run distance :
  Z_of_float radius = Ok distance →
  let rq := PlacesRequest api_key center_lat center_lon distance in
  stations =
    let '(r, o) :=
      match places_endpoint rq with
      | Response text (Ok data) => dlift (method_get data "places_nearby" (VList []))
      | Response text (Raise e) =>
          if is_RequestException e then stations_failure e text else dlift (Raise e)
      | NoResponse e =>
          if is_RequestException e then stations_failure e "No response" else dlift (Raise e)
      end in
    (r, request_lines center_lat center_lon distance ++ DCall rq (places_endpoint rq) :: o).
Proof.
  intros Hd. unfold find_stations_in_radius. rewrite Hd. cbn [dlift mbind D_bind dprint].
  cbv zeta. destruct (match places_endpoint _ with NoResponse _ => _ | _ => _ end) as [r o].
  reflexivity.
Qed.

(** X19. A failure of the HTTP client is not reported to the caller:
    on a [RequestException] the function prints the error and the text of
    the response, ['No response'] when there is none, and returns the
    empty list, as it does when there is no station. *)
Theorem find_stations_in_radius_failure (distance : Z) (e : exn) :
  Z_of_float radius = Ok distance →
  is_RequestException e = true →
  let rq := PlacesRequest api_key center_lat center_lon distance in
  (places_endpoint rq = NoResponse e →
   find_stations_in_radius places_endpoint center_lat center_lon radius api_key
     = (Ok (VList []),
        request_lines center_lat center_lon distance ++
        [DCall rq (NoResponse e);
         DPrint "Error finding stations: {}" [exn_value e];
         DPrint "Response content: {}" [VStr "No response"]])) ∧
  (∀ text, places_endpoint rq = Response text (Raise e) →
   find_stations_in_radius places_endpoint center_lat center_lon radius api_key
     = (Ok (VList []),
        request_lines center_lat center_lon distance ++
        [DCall rq (Response text (Raise e));
         DPrint "Error finding stations: {}" [exn_value e];
         DPrint "Response content: {}" [VStr text]])).
Proof.
  intros Hd He rq. split.
  - intros Hr. rewrite (find_stations_in_radius_run _ Hd). cbv zeta. fold rq.
    rewrite Hr, He. reflexivity.
  - intros text Hr. rewrite (find_stations_in_radius_run _ Hd). cbv zeta. fold rq.
    rewrite Hr, He. reflexivity.
Qed.

(** X20. No [RequestException] comes out of [find_stations_in_radius],
    and with a radius that is a finite number it sends exactly one
    request, for the stop points within the radius cut to an integer. *)
Theorem find_stations_in_radius_one_request :
  (∀ m,
     (find_stations_in_radius places_endpoint center_lat center_lon radius api_key).1
       ≠ Raise (RequestException m)) ∧
  (∀ distance, Z_of_float radius = Ok distance →
     places_requests
       (find_stations_in_radius places_endpoint center_lat center_lon radius api_key).2
       = [PlacesRequest api_key center_lat center_lon distance]).
Proof.
  split.
  - intros m. destruct (Z_of_float radius) as [distance|e] eqn:Hd.
    + rewrite (find_stations_in_radius_run _ Hd). cbv zeta.
      destruct (places_endpoint _) as [e|text [data|e]].
      * destruct (is_RequestException e) eqn:He; cbn; [discriminate|].
        intros [= ->]. discriminate He.
      * cbn. destruct data; cbn; discriminate.
      * destruct (is_RequestException e) eqn:He; cbn; [discriminate|].
        intros [= ->]. discriminate He.
    + unfold find_stations_in_radius. rewrite Hd. cbn.
      unfold Z_of_float in Hd. destruct (Prim2SF radius); try discriminate Hd;
        injection Hd as <-; discriminate.
  - intros distance Hd. rewrite (find_stations_in_radius_run _ Hd). cbv zeta.
    destruct (places_endpoint _) as [e|text [data|e]].
    + destruct (is_RequestException e); reflexivity.
    + reflexivity.
    + destruct (is_RequestException e); reflexivity.
Qed.

(** X21. A radius that is not a finite number stops the function before
    it prints or requests anything: [ValueError] for a NaN,
    [OverflowError] for an infinity. *)
Theorem find_stations_in_radius_bad_radius :
  (is_nan radius = true →
   find_stations_in_radius places_endpoint center_lat center_lon radius api_key
     = (Raise ValueError, [])) ∧
  (is_infinity radius = true →
   find_stations_in_radius places_endpoint center_lat center_lon radius api_key
     = (Raise OverflowError, [])).
Proof.
  unfold find_stations_in_radius, Z_of_float. split.
  - intros H. apply is_nan_spec in H. rewrite H. reflexivity.
  - intros H. apply is_infinity_spec in H. destruct H as [b ->]. reflexivity.
Qed.

End Stations.

(** ** The distance between two points *)

Section Haversine.
Variable lib : pylib.

Lemma math_sqrt_negative x : (x <? 0)%float = true → math_sqrt x = Raise ValueError.
Proof.
  intros H. unfold math_sqrt.
  assert (is_nan (PrimFloat.sqrt x) = true) as ->.
  { apply is_nan_spec. rewrite FloatAxioms.sqrt_spec. rewrite ltb_spec in H.
    change (Prim2SF 0%float) with (S754_zero false) in H.
    destruct (Prim2SF x) as [[]|[]| |[] m e]; try discriminate H; reflexivity. }
  apply ltb_is_num in H. destruct H as [H _]. unfold is_num in H. now rewrite H.
Qed.

Lemma math_sqrt_raises x e : math_sqrt x = Raise e → e = ValueError.
Proof. unfold math_sqrt. destruct (_ && _); [now intros [= <-]|discriminate]. Qed.

(** X22. [haversine_distance] does not return a distance when the term
    under the square roots leaves the interval from 0 to 1: it raises the
    [ValueError] of [math.sqrt]. *)
Theorem haversine_distance_domain_error (lat1 lon1 lat2 lon2 s1 p1 c1 c2 s2 p2 : float) :
  math_sin lib ((math_radians lat2 - math_radians lat1) / 2) = Ok s1 →
  float_pow lib s1 2 = Ok p1 →
  math_cos lib (math_radians lat1) = Ok c1 →
  math_cos lib (math_radians lat2) = Ok c2 →
  math_sin lib ((math_radians lon2 - math_radians lon1) / 2) = Ok s2 →
  float_pow lib s2 2 = Ok p2 →
  (p1 + c1 * c2 * p2 <? 0)%float = true ∨ (1 - (p1 + c1 * c2 * p2) <? 0)%float = true →
  haversine_distance lib lat1 lon1 lat2 lon2 = Raise ValueError.
Proof.
  intros H1 H2 H3 H4 H5 H6 Ha. unfold haversine_distance. cbv zeta.
  rewrite H1. cbn [mbind Res_bind]. rewrite H2. cbn [mbind Res_bind].
  rewrite H3. cbn [mbind Res_bind]. rewrite H4. cbn [mbind Res_bind].
  rewrite H5. cbn [mbind Res_bind]. rewrite H6. cbn [mbind Res_bind].
  destruct (math_sqrt (p1 + c1 * c2 * p2)) as [q1|e] eqn:Hq.
  - cbn [mbind Res_bind]. destruct Ha as [Ha|Ha].
    + rewrite (math_sqrt_negative _ Ha) in Hq. discriminate Hq.
    + now rewrite (math_sqrt_negative _ Ha).
  - cbn [mbind Res_bind]. now rewrite (math_sqrt_raises _ _ Hq).
Qed.

End Haversine.

(** ** Where an error of the HTTP client can come from *)

Section Quiet.
Variable lib : pylib.
Hypothesis lib_quiet : quiet_lib lib.

Lemma quiet_Ok {A} (a : A) : no_http_error (Ok a).
Proof. intros e. discriminate. Qed.

Lemma quiet_Raise {A} e : is_RequestException e = false → no_http_error (@Raise A e).
Proof. intros H e' [= <-]. exact H. Qed.

Lemma quiet_bind {A B} (r : Res A) (k : A → Res B) :
  no_http_error r → (∀ a, no_http_error (k a)) → no_http_error (r ≫= k).
Proof.
  intros Hr Hk. destruct r as [a|e]; cbn; [apply Hk|].
  intros e' [= <-]. now apply Hr.
Qed.

Lemma quiet_getitem v k : no_http_error (getitem v k).
Proof.
  destruct v; cbn; try (now apply quiet_Raise).
  destruct (dict_lookup k d); [apply quiet_Ok|now apply quiet_Raise].
Qed.

Lemma quiet_method_get v k dflt : no_http_error (method_get v k dflt).
Proof. destruct v; cbn; try (now apply quiet_Raise). apply quiet_Ok. Qed.

Lemma quiet_getitem0 v : no_http_error (getitem0 v).
Proof.
  destruct v as [| | | |s|l|d]; cbn; try (now apply quiet_Raise).
  - destruct s; [now apply quiet_Raise|apply quiet_Ok].
  - destruct l; [now apply quiet_Raise|apply quiet_Ok].
Qed.

Lemma quiet_iterate v : no_http_error (iterate v).
Proof. destruct v; cbn; try (now apply quiet_Raise); apply quiet_Ok. Qed.

Lemma quiet_float_of_Z z : no_http_error (float_of_Z z).
Proof. unfold float_of_Z. destruct (is_infinity _); [now apply quiet_Raise|apply quiet_Ok]. Qed.

Lemma quiet_Z_of_float f : no_http_error (Z_of_float f).
Proof.
  unfold Z_of_float. destruct (Prim2SF f); try (now apply quiet_Raise); apply quiet_Ok.
Qed.

Lemma quiet_calculate_steps d s : no_http_error (calculate_steps d s).
Proof.
  unfold calculate_steps, float_div. apply quiet_bind; [|intros; apply quiet_Z_of_float].
  destruct (s =? 0)%float; [now apply quiet_Raise|apply quiet_Ok].
Qed.

Lemma quiet_calculate_distance_from_steps n s :
  no_http_error (calculate_distance_from_steps n s).
Proof.
  unfold calculate_distance_from_steps.
  apply quiet_bind; [apply quiet_float_of_Z|intros; apply quiet_Ok].
Qed.

Lemma quiet_split_0 v : no_http_error (split_0 v).
Proof.
  destruct v; cbn; try (now apply quiet_Raise).
  destruct (skip_spaces s); [now apply quiet_Raise|apply quiet_Ok].
Qed.

Lemma quiet_py_len v : no_http_error (py_len v).
Proof. destruct v; cbn; try (now apply quiet_Raise); apply quiet_Ok. Qed.

Lemma quiet_py_float v : no_http_error (py_float lib v).
Proof.
  destruct v; cbn; try (now apply quiet_Raise); try apply quiet_Ok.
  - apply quiet_float_of_Z.
  - apply lib_quiet.
Qed.

Lemma quiet_math_sqrt x : no_http_error (math_sqrt x).
Proof. unfold math_sqrt. destruct (_ && _); [now apply quiet_Raise|apply quiet_Ok]. Qed.

Lemma quiet_floordiv60 v : no_http_error (floordiv60 lib v).
Proof. destruct v; cbn; try (now apply quiet_Raise); apply quiet_Ok. Qed.

Ltac quiet :=
  repeat first
    [ apply quiet_Ok
    | apply quiet_getitem
    | apply quiet_method_get
    | apply quiet_getitem0
    | apply quiet_iterate
    | apply quiet_float_of_Z
    | apply quiet_Z_of_float
    | apply quiet_calculate_steps
    | apply quiet_calculate_distance_from_steps
    | apply quiet_split_0
    | apply quiet_py_len
    | apply quiet_py_float
    | apply quiet_math_sqrt
    | apply quiet_floordiv60
    | apply lib_quiet
    | apply quiet_bind; [|intros ?]
    | match goal with |- no_http_error (if ?b then _ else _) => destruct b end ].

Lemma quiet_haversine_distance a b c d : no_http_error (haversine_distance lib a b c d).
Proof. unfold haversine_distance. cbv zeta. quiet. Qed.

Lemma quiet_station_coord x c : no_http_error (station_coord lib x c).
Proof. unfold station_coord. quiet. Qed.

Lemma quiet_station_key lat lon x : no_http_error (station_key lib lat lon x).
Proof.
  unfold station_key. quiet; auto using quiet_station_coord, quiet_haversine_distance.
Qed.

Lemma quiet_endpoint_coord s side : no_http_error (endpoint_coord s side).
Proof. unfold endpoint_coord. quiet. Qed.

Lemma quiet_duration_minutes v : no_http_error (duration_minutes lib v).
Proof. unfold duration_minutes. quiet. Qed.

Lemma quiet_EMISSIONS_item m : no_http_error (EMISSIONS_item m).
Proof. unfold EMISSIONS_item. destruct (_ !! _); [apply quiet_Ok|now apply quiet_Raise]. Qed.

Lemma quiet_map_res {A B} (f : A → Res B) l :
  (∀ x, no_http_error (f x)) → no_http_error (map_res f l).
Proof.
  intros Hf. induction l as [|x l IH]; cbn [map_res]; [apply quiet_Ok|].
  apply quiet_bind; [apply Hf|intros y].
  apply quiet_bind; [exact IH|intros ys; apply quiet_Ok].
Qed.

(** The same for the functions that print. *)
Lemma quietW_bind {A B} (w : W A) (k : A → W B) :
  no_http_error w.1 → (∀ a, no_http_error (k a).1) → no_http_error (w ≫= k).1.
Proof.
  intros Hw Hk. unfold mbind, W_bind. destruct w as [[a|e] o]; [|intros e0 [= <-]; now apply (Hw e)].
  specialize (Hk a). now destruct (k a).
Qed.

Lemma quietW_try {A} (body : W A) h :
  no_http_error body.1 → (∀ k, no_http_error (h k).1) →
  no_http_error (try_except_KeyError body h).1.
Proof.
  intros Hb Hh. unfold try_except_KeyError.
  destruct body as [[a|[]] o]; try exact Hb.
  specialize (Hh key). now destruct (h key).
Qed.

Ltac quietW :=
  repeat first
    [ apply quiet_Ok
    | apply quietW_bind; [|intros ?]
    | apply quietW_try; [|intros ?]
    | match goal with |- no_http_error (liftR _).1 => unfold liftR; cbn [fst] end
    | match goal with |- no_http_error (print _ _).1 => apply quiet_Ok end
    | match goal with |- no_http_error (mret _).1 => apply quiet_Ok end
    | match goal with |- no_http_error (if ?b then _ else _).1 => destruct b end
    | match goal with |- no_http_error (if ?b then _ else _) => destruct b end ].

Lemma quiet_calculate_walking_distance s :
  no_http_error (calculate_walking_distance lib s).1.
Proof.
  unfold calculate_walking_distance. quietW; quiet;
    auto using quiet_endpoint_coord, quiet_haversine_distance.
Qed.

Lemma quiet_format_section step acc s : no_http_error (format_section lib step acc s).1.
Proof.
  unfold format_section. quietW; quiet;
    auto using quiet_calculate_walking_distance, quiet_duration_minutes.
Qed.

Lemma quiet_format_sections step ss : ∀ acc, no_http_error (format_sections lib step acc ss).1.
Proof.
  induction ss as [|s ss IH]; intros acc; cbn [format_sections]; [apply quiet_Ok|].
  apply quietW_bind; [apply quiet_format_section|intros acc'; apply IH].
Qed.

Lemma quiet_format_itinerary journey_data step :
  no_http_error (format_itinerary_with_steps lib journey_data step).1.
Proof.
  unfold format_itinerary_with_steps. quietW; quiet;
    auto using quiet_duration_minutes, quiet_format_sections, quiet_EMISSIONS_item.
Qed.

(** The search raises what its preparation raises. *)
Lemma quiet_list_sort key r st :
  (∀ x, no_http_error (key x)) → no_http_error (list_sort key r st).1.
Proof.
  intros Hk. unfold list_sort. destruct (heap st !! r) as [l|]; [|now apply quiet_Raise].
  pose proof (quiet_map_res key l Hk) as Hm.
  destruct (map_res key l) as [ks|e]; [apply quiet_Ok|].
  cbn. intros e' [= <-]. now apply Hm.
Qed.

Lemma quiet_find_best_route service a b c d fs ts n step key st :
  no_http_error (find_best_route lib service a b c d fs ts n step key st).1.
Proof.
  pose proof (find_best_route_run lib service a b c d fs ts n step key st) as H.
  destruct (search_prelude lib a b c d fs ts n step st) as [[[[target sf] sts]|e] s1] eqn:Hp.
  { destruct H as (st' & o & -> & _). apply quiet_Ok. }
  rewrite H. cbn [fst]. intros e' [= <-]. revert Hp.
  unfold search_prelude.
  rewrite !(bind_M_run (set_best _ _)). cbn [set_best].
  set (s0 := State _ _ _ _ _). clearbody s0.
  rewrite !(bind_M_run (liftW _)), !liftW_liftR_run.
  pose proof (quiet_calculate_distance_from_steps n step) as Hd.
  destruct (calculate_distance_from_steps n step) as [tgt|e'].
  2:{ intros [= <- _]. now apply Hd. }
  rewrite !(bind_M_run (list_sort _ _)).
  pose proof (quiet_list_sort (station_key lib a b) fs s0 (quiet_station_key a b)) as Ha.
  destruct (list_sort _ fs s0) as [[[]|e'] sa].
  2:{ intros [= <- _]. now apply Ha. }
  rewrite !(bind_M_run (list_sort _ _)).
  pose proof (quiet_list_sort (station_key lib c d) ts sa (quiet_station_key c d)) as Hb.
  destruct (list_sort _ ts sa) as [[[]|e'] sb].
  2:{ intros [= <- _]. now apply Hb. }
  rewrite !(bind_M_run (read_list _)). unfold read_list.
  destruct (heap sb !! fs) as [lf|].
  2:{ intros [= <- _]. reflexivity. }
  rewrite bind_M_run.
  destruct (heap sb !! ts) as [lt|].
  2:{ intros [= <- _]. reflexivity. }
  destruct (select_stations n lf lt) as [[sf sts] line].
  rewrite bind_M_run, liftW_run. cbn [fst snd mret M_ret]. discriminate.
Qed.

Lemma quiet_find_stations places a b radius key :
  no_http_error (find_stations_in_radius places a b radius key).1.
Proof.
  destruct (Z_of_float radius) as [distance|e] eqn:Hd.
  - rewrite (find_stations_in_radius_run places a b radius key _ Hd). cbv zeta.
    destruct (places _) as [e|text [data|e]].
    + destruct (is_RequestException e) eqn:He; cbn; [apply quiet_Ok|now apply quiet_Raise].
    + cbn. apply quiet_method_get.
    + destruct (is_RequestException e) eqn:He; cbn; [apply quiet_Ok|now apply quiet_Raise].
  - unfold find_stations_in_radius. rewrite Hd. cbn. intros e' [= <-].
    exact (quiet_Z_of_float radius e Hd).
Qed.

End Quiet.


(** ** The script from its two inputs *)

Section ScriptRuns.
Variable lib : pylib.
Variable places_endpoint : nat → places_request → http_outcome.
Variable journeys_endpoint : nat → request → Res value.

Lemma quietT_bind {A B} (w : T A) (k : A → T B) :
  no_http_error w.1 → (∀ a, no_http_error (k a).1) → no_http_error (w ≫= k).1.
Proof.
  intros Hw Hk. unfold mbind, T_bind. destruct w as [[a|e] o]; [|intros e0 [= <-]; now apply (Hw e)].
  specialize (Hk a). now destruct (k a).
Qed.

(** X23. Whatever the two endpoints do, no error of the HTTP client
    comes out of the [try] of the script, as long as the maths library
    raises none: the handler of the script has nothing to catch. *)
Theorem script_handler_unreached (target_steps : Z) (step_length search_radius : float)
    (e : exn) :
  quiet_lib lib →
  (script_try lib places_endpoint journeys_endpoint target_steps step_length search_radius).1
    = Raise e →
  is_RequestException e = false.
Proof.
  intros Hlib. revert e. change (no_http_error
    (script_try lib places_endpoint journeys_endpoint target_steps step_length search_radius).1).
  unfold script_try.
  repeat first
    [ apply quiet_Ok
    | apply quietT_bind; [|intros ?]
    | match goal with |- no_http_error (line _ _).1 => apply quiet_Ok end
    | match goal with |- no_http_error (mret _).1 => apply quiet_Ok end
    | match goal with |- no_http_error (of_Res _).1 => cbn [of_Res fst]; apply quiet_py_len end
    | match goal with |- no_http_error (of_D _).1 => cbn [of_D fst]; apply quiet_find_stations end
    | match goal with |- no_http_error (of_W _).1 =>
        cbn [of_W fst]; now apply quiet_format_itinerary end
    | match goal with |- no_http_error (if ?b then _ else _).1 => destruct b end ].
  unfold run_search.
  match goal with
  | |- context [find_best_route ?l ?s ?a ?b ?c ?d ?f ?t ?n ?st ?k ?s0] =>
      pose proof (quiet_find_best_route l Hlib s a b c d f t n st k s0) as H;
      destruct (find_best_route l s a b c d f t n st k s0) as [r st']
  end.
  exact H.
Qed.

Lemma journeys_calls_app o1 o2 :
  journeys_calls (o1 ++ o2) = journeys_calls o1 ++ journeys_calls o2.
Proof. induction o1 as [|[]]; cbn; congruence. Qed.

Lemma journeys_calls_dir (o : list dir_event) : journeys_calls (of_dir_event <$> o) = [].
Proof. induction o as [|[]]; cbn; auto. Qed.

(** X24. When one of the two lookups brings back no station, the empty
    list it returns after a failure included, the script says so and
    exits: it has asked for no itinerary. *)
Theorem script_exits_without_stations (height : float) (target_steps : Z)
    (step_length search_radius : float) (from_stations to_stations : value) (n m : Z)
    (o1 o2 : list dir_event) :
  calculate_step_length height = Ok step_length →
  calculate_distance_from_steps (target_steps / 2) step_length = Ok search_radius →
  find_stations_in_radius (places_endpoint 0) origin_lat origin_lon search_radius API_KEY
    = (Ok from_stations, o1) →
  find_stations_in_radius (places_endpoint 1) destination_lat destination_lon search_radius
    API_KEY = (Ok to_stations, o2) →
  py_len from_stations = Ok n → py_len to_stations = Ok m →
  truthy from_stations = false ∨ truthy to_stations = false →
  ∃ o, script lib places_endpoint journeys_endpoint height target_steps
         = (Exited,
            o ++ [Line "No stations found within {:.2f} km radius!"
                       [VFloat (search_radius / 1000)%float];
                  Line "Try increasing the number of target steps for a larger search area."
                       []]) ∧
       journeys_calls o = [].
Proof.
  intros Hs Hr Hf Ht Hn Hm Hempty.
  unfold script, script_try. rewrite Hs. cbn [of_Res mbind T_bind].
  rewrite Hr. cbn [mbind T_bind line].
  rewrite Hf. cbn [of_D fst snd mbind T_bind]. rewrite Hn. cbn [of_Res mbind T_bind line].
  rewrite Ht. cbn [of_D fst snd mbind T_bind]. rewrite Hm. cbn [of_Res mbind T_bind line].
  assert (negb (truthy from_stations) || negb (truthy to_stations) = true) as ->.
  { destruct Hempty as [-> | ->]; [reflexivity|]. apply orb_true_r. }
  cbn [mbind T_bind line mret T_ret].

  exists ([Line "Step length: {:.2f} meters" [VFloat step_length];
           Line "Search radius: {:.2f} meters" [VFloat search_radius];
           Line "Searching for stations from origin point..." []]
          ++ (of_dir_event <$> o1)
          ++ [Line "Found {} stations near origin" [VInt n];
              Line "Searching for stations from destination point..." []]
          ++ (of_dir_event <$> o2)
          ++ [Line "Found {} stations near destination" [VInt m]]).
  split.
  - f_equal. repeat rewrite <- app_assoc. cbn [app]. reflexivity.
  - rewrite !journeys_calls_app, !journeys_calls_dir. reflexivity.
Qed.

End ScriptRuns.

(** ** A journeys endpoint that is down *)

Section Down.
Variable lib : pylib.
Variable service : nat → request → Res value.

Lemma trace_ok_no_response k o :
  (∀ k rq, is_Ok (service k rq) = false) → trace_ok service k o → responses o = [].
Proof.
  intros Hdown. revert k. induction o as [|[t a|rq r] o IH]; intros k; cbn.
  - reflexivity.
  - apply IH.
  - intros (-> & _ & H). specialize (Hdown k rq).
    destruct (service k rq); [discriminate Hdown|]. eauto.
Qed.

(** X25. When every request to the journeys endpoint fails, the search
    still returns, and what it returns is [None]. *)
Theorem find_best_route_service_down
    (from_lat from_lon to_lat to_lon : float) (from_stations to_stations : loc)
    (target_steps : Z) (step_length : float) (api_key : string)
    (st st' : state) (j : value) :
  (∀ k rq, is_Ok (service k rq) = false) →
  find_best_route lib service from_lat from_lon to_lat to_lon from_stations to_stations
    target_steps step_length api_key st = (Ok j, st') →
  j = VNone.
Proof.
  intros Hdown Hr.
  destruct (find_best_route_returns lib service from_lat from_lon to_lat to_lon
              from_stations to_stations target_steps step_length api_key st j st' Hr)
    as (target & sf & sts & s1 & o1 & o & _ & _ & _ & Ht & _ & _ & Hb & _).
  unfold candidates in Hb. rewrite (trace_ok_no_response _ _ Hdown Ht) in Hb.
  cbn in Hb. now injection Hb as ->.
Qed.

End Down.

(** ** The distance between two points, in either direction *)

Section Symmetry.

Lemma binary_round_aux_opp (s : bool) (m e : Z) (l : location) :
  binary_round_aux prec emax (negb s) m e l = SFopp (binary_round_aux prec emax s m e l).
Proof.
  unfold binary_round_aux.
  destruct (shr_fexp prec emax m e l) as [r1 e1].
  destruct (shr_fexp prec emax _ e1 loc_Exact) as [r2 e2].
  destruct (shr_m r2); [reflexivity| |reflexivity].
  destruct (e2 <=? emax - prec); reflexivity.
Qed.

Lemma binary_normalize_opp (z e : Z) :
  z ≠ 0 →
  binary_normalize prec emax (- z) e false = SFopp (binary_normalize prec emax z e false).
Proof.
  intros Hz. destruct z as [|p|p]; [congruence| |].
  - change (binary_round prec emax true p e = SFopp (binary_round prec emax false p e)).
    unfold binary_round. destruct (shl_align _ _ _) as [mz ez].
    exact (binary_round_aux_opp false _ _ _).
  - change (binary_round prec emax false p e = SFopp (binary_round prec emax true p e)).
    unfold binary_round. destruct (shl_align _ _ _) as [mz ez].
    exact (binary_round_aux_opp true _ _ _).
Qed.

Lemma SFsub_swap (x y : spec_float) :
  SFsub prec emax x y = SFopp (SFsub prec emax y x) ∨
  (SFsub prec emax x y = S754_zero false ∧ SFsub prec emax y x = S754_zero false).
Proof.
  destruct x as [sx|sx| |sx mx ex], y as [sy|sy| |sy my ey];
    try (left; reflexivity);
    try (destruct sx, sy; cbn; tauto);
    try (destruct sx; cbn; tauto);
    try (destruct sy; cbn; tauto).
  - cbn [SFsub]. rewrite (Z.min_comm ey ex).
    set (a := cond_Zopp sx _). set (b := cond_Zopp sy _).
    destruct (Z.eq_dec (a - b) 0) as [Hz|Hz].
    + right. replace (b - a) with 0 by lia. rewrite Hz. auto.
    + left. replace (a - b) with (- (b - a)) by lia.
      apply binary_normalize_opp. lia.
Qed.

Lemma sub_swap (x y : float) :
  (x - y = - (y - x))%float ∨ ((x - y)%float = 0%float ∧ (y - x)%float = 0%float).
Proof.
  destruct (SFsub_swap (Prim2SF x) (Prim2SF y)) as [H|[H1 H2]].
  - left. apply Prim2SF_inj. now rewrite opp_spec, !sub_spec.
  - right. split; apply Prim2SF_inj; rewrite sub_spec; assumption.
Qed.

Lemma div_opp (x y : float) : (- x / y = - (x / y))%float.
Proof.
  apply Prim2SF_inj. rewrite opp_spec, !div_spec, opp_spec.
  destruct (Prim2SF x) as [sx|sx| |sx mx ex], (Prim2SF y) as [sy|sy| |sy my ey];
    try reflexivity; try (destruct sx, sy; reflexivity).
  unfold SF64div, SFdiv, SFopp at 1.
  destruct (SFdiv_core_binary _ _ _ _ _ _) as [[mz ez] lz].
  replace (xorb (negb sx) sy) with (negb (xorb sx sy)) by now destruct sx, sy.
  apply binary_round_aux_opp.
Qed.

Lemma mul_comm (x y : float) : (x * y = y * x)%float.
Proof.
  apply Prim2SF_inj. rewrite !mul_spec.
  destruct (Prim2SF x) as [sx|sx| |sx mx ex], (Prim2SF y) as [sy|sy| |sy my ey];
    try reflexivity; try (destruct sx, sy; reflexivity).
  unfold SF64mul, SFmul.
  now rewrite (xorb_comm sy sx), (Pos.mul_comm my mx), (Z.add_comm ey ex).
Qed.

Lemma mul_opp_opp (x : float) : (- x * - x = x * x)%float.
Proof.
  apply Prim2SF_inj. rewrite !mul_spec, !opp_spec.
  destruct (Prim2SF x) as [s|s| |s m e]; try reflexivity; destruct s; reflexivity.
Qed.

Variable lib : pylib.

(** The sine of a half difference, squared, does not depend on the
    direction of the difference. *)
Lemma half_difference_squared (a b s p : float) :
  (∀ x y, math_sin lib x = Ok y → math_sin lib (- x) = Ok (- y)%float) →
  (∀ x, float_pow lib (- x) 2 = float_pow lib x 2) →
  math_sin lib ((b - a) / 2)%float = Ok s → float_pow lib s 2 = Ok p →
  ∃ s', math_sin lib ((a - b) / 2)%float = Ok s' ∧ float_pow lib s' 2 = Ok p.
Proof.
  intros Hsin Hpow Hs Hp.
  destruct (sub_swap a b) as [H|[H1 H2]].
  - exists (- s)%float. rewrite H, div_opp. split; [now apply Hsin|].
    now rewrite Hpow.
  - exists s. rewrite H1. rewrite H2 in Hs. auto.
Qed.

(** X26. With a sine that is odd and a square that is even, as those of
    the C library are, the distance from a point to another is the distance
    back, bit for bit. *)
Theorem haversine_distance_symmetric (lat1 lon1 lat2 lon2 d : float) :
  (∀ x y, math_sin lib x = Ok y → math_sin lib (- x) = Ok (- y)%float) →
  (∀ x, float_pow lib (- x) 2 = float_pow lib x 2) →
  haversine_distance lib lat1 lon1 lat2 lon2 = Ok d →
  haversine_distance lib lat2 lon2 lat1 lon1 = Ok d.
Proof.
  intros Hsin Hpow H. unfold haversine_distance in *. cbv zeta in *.
  destruct (math_sin lib ((math_radians lat2 - math_radians lat1) / 2)%float)
    as [s1|] eqn:Es1; [|discriminate H].
  cbn [mbind Res_bind] in H.
  destruct (float_pow lib s1 2) as [p1|] eqn:Ep1; [|discriminate H].
  cbn [mbind Res_bind] in H.
  destruct (math_cos lib (math_radians lat1)) as [c1|] eqn:Ec1; [|discriminate H].
  cbn [mbind Res_bind] in H.
  destruct (math_cos lib (math_radians lat2)) as [c2|] eqn:Ec2; [|discriminate H].
  cbn [mbind Res_bind] in H.
  destruct (math_sin lib ((math_radians lon2 - math_radians lon1) / 2)%float)
    as [s2|] eqn:Es2; [|discriminate H].
  cbn [mbind Res_bind] in H.
  destruct (float_pow lib s2 2) as [p2|] eqn:Ep2; [|discriminate H].
  cbn [mbind Res_bind] in H.
  destruct (half_difference_squared _ _ _ _ Hsin Hpow Es1 Ep1) as (s1' & -> & Hp1).
  cbn [mbind Res_bind]. rewrite Hp1. cbn [mbind Res_bind].
  destruct (half_difference_squared _ _ _ _ Hsin Hpow Es2 Ep2) as (s2' & -> & Hp2).
  cbn [mbind Res_bind]. rewrite Hp2. cbn [mbind Res_bind].
  rewrite (mul_comm c2 c1). exact H.
Qed.

End Symmetry.

(** * The search in detail *)

(** ** The lists after the search *)

Section InPlace.

Lemma eqb_rank x y :
  (x =? y)%float = true ↔ ∃ a, rank x = Some a ∧ rank y = Some a.
Proof.
  rewrite FloatAxioms.eqb_spec. unfold SFeqb, rank. rewrite SFcompare_rank.
  destruct (SFrank (Prim2SF x)) as [a|]; [|split; [discriminate|now intros (? & [=] & _)]].
  destruct (SFrank (Prim2SF y)) as [b|]; [|split; [discriminate|now intros (? & _ & [=])]].
  pose proof (lex3_spec a b) as H. destruct (lex3 a b) eqn:E.
  - subst. split; eauto.
  - split; [discriminate|]. intros (c & [= <-] & [= <-]). now apply lex3_lt_irrefl in H.
  - split; [discriminate|]. intros (c & [= <-] & [= <-]). now apply lex3_lt_irrefl in H.
Qed.

Lemma ltb_not_eqb x y k :
  (x <? y)%float = true → (x =? k)%float = true → (y =? k)%float = false.
Proof.
  rewrite ltb_rank, eqb_rank. intros (a & b & Ha & Hb & L) (c & Ha' & Hk).
  destruct (y =? k)%float eqn:E; [|reflexivity].
  apply eqb_rank in E. destruct E as (d & Hb' & Hk').
  exfalso. assert (a = b) as -> by congruence. now apply lex3_lt_irrefl in L.
Qed.

Lemma leb_trans x y z :
  (x <=? y)%float = true → (y <=? z)%float = true → (x <=? z)%float = true.
Proof.
  rewrite !leb_rank. intros (a & b & Ha & Hb & L1) (b' & c & Hb' & Hc & L2).
  rewrite Hb in Hb'. injection Hb' as <-. exists a, c.
  split; [assumption|]. split; [assumption|].
  destruct L1 as [L1| ->], L2 as [L2| ->]; eauto using lex3_lt_trans.
Qed.

Lemma leb_antisym x y :
  (x <=? y)%float = true → (y <=? x)%float = true → (x =? y)%float = true.
Proof.
  rewrite !leb_rank, eqb_rank. intros (a & b & Ha & Hb & L1) (b' & a' & Hb' & Ha' & L2).
  assert (a' = a) as -> by congruence. assert (b' = b) as -> by congruence.
  exists a. split; [assumption|].
  destruct L1 as [L1| ->]; [|assumption]. destruct L2 as [L2| ->]; [|assumption].
  exfalso. eapply lex3_lt_irrefl. eauto using lex3_lt_trans.
Qed.

Lemma leb_is_num x y : (x <=? y)%float = true → is_num x ∧ is_num y.
Proof. rewrite leb_rank, !is_num_rank. intros (a & b & ? & ? & _). eauto. Qed.

Lemma eqb_refl x : is_num x → (x =? x)%float = true.
Proof. rewrite is_num_rank, eqb_rank. intros [a Ha]. eauto. Qed.

Lemma eqb_trans x y z :
  (x =? y)%float = true → (y =? z)%float = true → (x =? z)%float = true.
Proof.
  rewrite !eqb_rank. intros (a & Ha & Hb) (b & Hb' & Hc).
  exists a. split; [assumption|]. congruence.
Qed.

Lemma eqb_sym x y : (x =? y)%float = true → (y =? x)%float = true.
Proof. rewrite !eqb_rank. intros (a & Ha & Hb). eauto. Qed.

(** The insertion keeps the order of the keys. *)
Lemma insert_by_key_ascending k x l :
  is_num k → Forall (λ p : float * value, is_num p.1) l →
  ascending l → ascending (insert_by_key k x l).
Proof.
  intros Hk Hl Hs. unfold ascending in *.
  induction Hs as [|[k' y] l Hs IH Hall]; cbn [insert_by_key].
  - repeat constructor.
  - apply Forall_cons in Hl. destruct Hl as [Hk' Hl]. cbn in Hk'.
    destruct (k' <? k)%float eqn:E.
    + constructor; [now apply IH|].
      rewrite insert_by_key_perm. constructor; [now apply ltb_leb|assumption].
    + assert ((k <=? k')%float = true) as Hle by now apply not_ltb_leb.
      constructor; [now constructor|].
      constructor; [exact Hle|].
      eapply Forall_impl; [exact Hall|]. intros p Hp. cbn in *. eauto using leb_trans.
Qed.

Lemma sort_keyed_ascending l :
  Forall (λ p : float * value, is_num p.1) l → ascending (sort_keyed l).
Proof.
  induction 1 as [|[k x] l Hk Hl IH]; cbn [sort_keyed foldr]; [constructor|].
  apply insert_by_key_ascending; [exact Hk| |exact IH].
  fold (sort_keyed l). now rewrite sort_keyed_perm.
Qed.

(** The insertion puts an element before the elements of the same key,
    which came after it in the list. *)
Lemma insert_by_key_filter k0 k x l :
  List.filter (λ p : float * value, (p.1 =? k0)%float) (insert_by_key k x l)
  = List.filter (λ p : float * value, (p.1 =? k0)%float) ((k, x) :: l).
Proof.
  induction l as [|[k' y] l IH]; cbn [insert_by_key]; [reflexivity|].
  destruct (k' <? k)%float eqn:E; [|reflexivity].
  cbn [List.filter fst] in *. rewrite IH.
  destruct (k' =? k0)%float eqn:E1; [|reflexivity].
  now rewrite (ltb_not_eqb _ _ _ E E1).
Qed.

Lemma sort_keyed_same_key_order l : same_key_order l (sort_keyed l).
Proof.
  intros k0. induction l as [|[k x] l IH]; [reflexivity|].
  cbn [sort_keyed foldr]. fold (sort_keyed l).
  rewrite insert_by_key_filter. cbn [List.filter]. now rewrite IH.
Qed.

(** Ascending order and the order of equal keys leave one list only. *)
Lemma stable_sort_unique (a b : list (float * value)) :
  a ≡ₚ b → ascending a → ascending b → same_key_order a b → b = a.
Proof.
  revert b. induction a as [|h a IH]; intros b Hp Ha Hb Hs.
  - symmetry. now apply Permutation_nil_l in Hp.
  - destruct b as [|h' b]; [now apply Permutation_nil_r in Hp|].
    unfold ascending in Ha, Hb.
    apply StronglySorted_inv in Ha. destruct Ha as [Ha Hha].
    apply StronglySorted_inv in Hb. destruct Hb as [Hb Hhb].
    assert (h' = h) as ->.
    { assert (h' ∈ h :: a) as H1 by (rewrite Hp; now left).
      assert (h ∈ h' :: b) as H2 by (rewrite <- Hp; now left).
      apply elem_of_cons in H1. destruct H1 as [H1|H1]; [assumption|].
      apply elem_of_cons in H2. destruct H2 as [H2|H2]; [now symmetry|].
      rewrite Forall_forall in Hha, Hhb.
      pose proof (Hha _ H1) as L1. pose proof (Hhb _ H2) as L2.
      pose proof (leb_antisym _ _ L2 L1) as E.
      destruct (leb_is_num _ _ L1) as [N1 N2].
      specialize (Hs h.1). cbn [List.filter] in Hs.
      rewrite E, (eqb_refl _ N1) in Hs. now injection Hs. }
    f_equal. apply IH; [now apply Permutation_cons_inv in Hp|assumption|assumption|].
    intros k. specialize (Hs k). cbn [List.filter] in Hs.
    destruct (h.1 =? k)%float; [now injection Hs|exact Hs].
Qed.

End InPlace.

Section SortedInPlace.
Variable lib : pylib.
Variable service : nat → request → Res value.

(** What a successful [list.sort] leaves: the stations with their keys, in
    some order; when no key is a NaN, in ascending order with the equal
    keys in the order they had, and there is one such list only. *)
Lemma sort_keyed_spec (ks : list float) (l : list value) :
  length ks = length l →
  (sort_keyed (zip ks l)).*2 ≡ₚ l ∧
  sort_keyed (zip ks l) ≡ₚ zip ks l ∧
  (Forall is_num ks →
   ascending (sort_keyed (zip ks l)) ∧
   same_key_order (zip ks l) (sort_keyed (zip ks l)) ∧
   ∀ b, b ≡ₚ zip ks l → ascending b → same_key_order (zip ks l) b →
        b = sort_keyed (zip ks l)).
Proof.
  intros Hlen. split; [now apply sorted_values_perm|].
  split; [apply sort_keyed_perm|].
  intros Hnum.
  assert (ascending (sort_keyed (zip ks l))) as Hasc.
  { apply sort_keyed_ascending. apply Forall_forall. intros [k x] Hin. cbn.
    rewrite Forall_forall in Hnum. apply Hnum.
    apply (list_elem_of_fmap_2 fst) in Hin. cbn in Hin.
    rewrite fst_zip in Hin by lia. exact Hin. }
  split; [exact Hasc|]. split; [apply sort_keyed_same_key_order|].
  intros b Hp Hb Hs.
  apply stable_sort_unique; [|assumption|assumption|].
  - now rewrite sort_keyed_perm, Hp.
  - intros k. rewrite Hs. symmetry. apply sort_keyed_same_key_order.
Qed.

(** C9, as the program has it.  [find_best_route] sorts the two lists of
    the caller in place.  After a search that returns, every list holds
    the elements it held before and no list but the two has changed.  When
    no distance is a NaN, each of the two lists holds its stations in
    ascending order of the distance to the origin, and to the destination,
    the stations at equal distances in the order they had: there is one
    such list only. *)
Theorem find_best_route_sorts_in_place
    (from_lat from_lon to_lat to_lon : float) (from_stations to_stations : loc)
    (target_steps : Z) (step_length : float) (api_key : string)
    (st st' : state) (j : value) :
  find_best_route lib service from_lat from_lon to_lat to_lon from_stations to_stations
    target_steps step_length api_key st = (Ok j, st') →
  (∀ r l, heap st !! r = Some l →
     ∃ l', heap st' !! r = Some l' ∧ l' ≡ₚ l ∧
           (r ≠ from_stations → r ≠ to_stations → l' = l)) ∧
  (from_stations ≠ to_stations →
   ∀ fs ts, heap st !! from_stations = Some fs → heap st !! to_stations = Some ts →
     ∃ kf kt sf sts,
       map_res (station_key lib from_lat from_lon) fs = Ok kf ∧
       map_res (station_key lib to_lat to_lon) ts = Ok kt ∧
       heap st' !! from_stations = Some sf.*2 ∧
       heap st' !! to_stations = Some sts.*2 ∧
       sf ≡ₚ zip kf fs ∧ sts ≡ₚ zip kt ts ∧
       (Forall is_num kf →
        ascending sf ∧ same_key_order (zip kf fs) sf ∧
        ∀ b, b ≡ₚ zip kf fs → ascending b → same_key_order (zip kf fs) b → b = sf) ∧
       (Forall is_num kt →
        ascending sts ∧ same_key_order (zip kt ts) sts ∧
        ∀ b, b ≡ₚ zip kt ts → ascending b → same_key_order (zip kt ts) b → b = sts)).
Proof.
  intros Hrun. apply find_best_route_returns in Hrun.
  destruct Hrun as (target & sf & sts & s1 & o1 & o & Ep & _ & _ & _ & _ & Hh & _).
  split.
  - intros r l Hl.
    destruct (prelude_spec lib from_lat from_lon to_lat to_lon from_stations to_stations
                target_steps step_length st) as (_ & _ & _ & _ & _ & H).
    rewrite Ep in H. cbn [snd] in H. rewrite Hh. now apply H.
  - intros Hne fs ts Hf Ht.
    destruct (prelude_heap _ _ _ _ _ _ _ _ _ _ _ _ _ _ _ _ Ep Hne Hf Ht) as (kf & kt & Kf & Kt & H).
    destruct (sort_keyed_spec kf fs (map_res_length _ _ _ Kf)) as (_ & Pf & Af).
    destruct (sort_keyed_spec kt ts (map_res_length _ _ _ Kt)) as (_ & Pt & At).
    exists kf, kt, (sort_keyed (zip kf fs)), (sort_keyed (zip kt ts)).
    rewrite Hh, H. rewrite lookup_insert_ne, !lookup_insert_eq by congruence.
    repeat (split; [first [assumption|reflexivity]|]). exact At.
Qed.

End SortedInPlace.

(** ** The itinerary the search keeps *)

Section Scoring.
Variable lib : pylib.
Variable service : nat → request → Res value.

(** A score that is not below infinity, a NaN or infinity itself, is below
    nothing. *)
Lemma ltb_infinity_false c b : (c <? infinity)%float = false → (c <? b)%float = false.
Proof.
  rewrite !ltb_spec. change (Prim2SF infinity) with (S754_infinity false).
  destruct (Prim2SF c) as [[]|[]| |[] mc ec]; try discriminate; intros _;
    destruct (Prim2SF b) as [[]|[]| |[] mb eb]; reflexivity.
Qed.

Lemma pick_best_ranked b l :
  pick_best b l = pick_best b (List.filter (λ c : value * float, (c.2 <? infinity)%float) l).
Proof.
  revert b. induction l as [|c l IH]; intros b; [reflexivity|].
  cbn [List.filter]. destruct (c.2 <? infinity)%float eqn:E.
  - rewrite !pick_best_cons. apply IH.
  - rewrite pick_best_cons, (ltb_infinity_false _ b.2 E). apply IH.
Qed.

Lemma filter_all {A} (f : A → bool) l : Forall (λ x, f x = true) l → List.filter f l = l.
Proof. induction 1 as [|x l Hx _ IH]; cbn; [reflexivity|]. now rewrite Hx, IH. Qed.

(** C1, as the program has it.  The itinerary [find_best_route] returns is
    the first of least score [|walking distance - target distance|] among
    the itineraries that got a score below infinity, in the order of the
    requests and then of the payloads, and [None] when there is none.  The
    itineraries that get a score are those of each payload up to the first
    one whose walking distance raises.  When every itinerary received has a
    walking distance and a finite score, these are all the itineraries
    returned across the requests; in particular, with walking distances of
    500 m, 1500 m and 2600 m and a target of 1400 m, an itinerary of
    1500 m is returned. *)
Theorem find_best_route_minimal
    (from_lat from_lon to_lat to_lon : float) (from_stations to_stations : loc)
    (target_steps : Z) (step_length : float) (api_key : string)
    (st st' : state) (j : value) (target : float) :
  find_best_route lib service from_lat from_lon to_lat to_lon from_stations to_stations
    target_steps step_length api_key st = (Ok j, st') →
  calculate_distance_from_steps target_steps step_length = Ok target →
  let ranked := List.filter (λ c : value * float, (c.2 <? infinity)%float)
                  (candidates lib target (events_since st st')) in
  let all := all_itineraries (events_since st st') in
  (∀ c, c ∈ ranked → c.1 ∈ all ∧ c.2 = score lib target c.1) ∧
  ((ranked = [] ∧ j = VNone) ∨
   (∃ pre post, ranked = pre ++ (j, score lib target j) :: post ∧
      (∀ c, c ∈ pre → (score lib target j <? c.2)%float = true) ∧
      (∀ c, c ∈ post → (score lib target j <=? c.2)%float = true))) ∧
  (well_scored lib target (events_since st st') →
   ranked = map (λ j', (j', score lib target j')) all ∧
   ((all = [] ∧ j = VNone) ∨
    (∃ pre post, all = pre ++ j :: post ∧
       (∀ j', j' ∈ pre → (score lib target j <? score lib target j')%float = true) ∧
       (∀ j', j' ∈ post → (score lib target j <=? score lib target j')%float = true))) ∧
   (target = 1400%float →
    (∀ j', j' ∈ all → walking_total lib j' = 500%float ∨ walking_total lib j' = 1500%float
                      ∨ walking_total lib j' = 2600%float) →
    (∃ j', j' ∈ all ∧ walking_total lib j' = 1500%float) →
    walking_total lib j = 1500%float)).
Proof.
  intros Hrun Htarget ranked all.
  apply find_best_route_returns in Hrun. destruct Hrun
    as (target' & sf & sts & s1 & o1 & o & Ep & Hp & Ho & _ & _ & _ & Hbest & _).
  apply prelude_ok in Ep. destruct Ep as [Ht _].
  rewrite Htarget in Ht. injection Ht as <-.
  rewrite <- (candidates_skip_prints lib target o1 o Hp), <- Ho in Hbest.
  rewrite pick_best_ranked in Hbest. fold ranked in Hbest.
  assert (Forall (λ c : value * float, (c.2 <? infinity)%float = true) ranked) as Hlt.
  { apply Forall_forall. intros c Hc. apply list_elem_of_In, filter_In in Hc. tauto. }
  assert (∀ c, c ∈ ranked → c.2 = score lib target c.1) as Hsc.
  { intros c Hc. apply list_elem_of_In, filter_In in Hc. destruct Hc as [Hc _].
    apply list_elem_of_In in Hc. eauto using candidates_score. }
  assert ((ranked = [] ∧ j = VNone) ∨
   (∃ pre post, ranked = pre ++ (j, score lib target j) :: post ∧
      (∀ c, c ∈ pre → (score lib target j <? c.2)%float = true) ∧
      (∀ c, c ∈ post → (score lib target j <=? c.2)%float = true))) as Hmain.
  { assert (Forall (λ c : value * float, is_num c.2) ranked) as Hnum.
    { eapply Forall_impl; [exact Hlt|]. intros c H. now apply ltb_is_num in H. }
    destruct (pick_best_first_min _ (VNone, infinity) Hnum eq_refl)
      as [[E Hall]|(pre & post & El & _ & Hpre & Hpost)].
    - left. rewrite E in Hbest. injection Hbest as -> _. split; [|reflexivity].
      destruct ranked as [|c l]; [reflexivity|]. exfalso.
      apply Forall_inv in Hall. apply Forall_inv in Hlt. cbn [fst snd] in Hall, Hlt.
      apply leb_not_ltb in Hall. rewrite Hall in Hlt. discriminate Hlt.
    - right. rewrite <- Hbest in *. clear Hbest.
      assert ((j, best_score st') ∈ ranked) as Hin
        by (rewrite El; apply elem_of_app; right; now left).
      apply Hsc in Hin. cbn [fst snd] in *. rewrite Hin in *.
      exists pre, post. split; [exact El|].
      rewrite Forall_forall in Hpre. rewrite Forall_forall in Hpost. auto. }
  split.
  { intros c Hc. split; [|now apply Hsc].
    apply list_elem_of_In, filter_In in Hc. destruct Hc as [Hc _].
    apply list_elem_of_In, candidates_from_responses in Hc.
    destruct Hc as (result & Hr & Hj). unfold all, all_itineraries.
    apply list_elem_of_In, in_flat_map. exists result.
    split; now apply list_elem_of_In. }
  split; [exact Hmain|].
  intros Hws.
  assert (ranked = map (λ j', (j', score lib target j')) all) as Hr.
  { unfold ranked. rewrite (candidates_all lib target _ Hws). fold all.
    apply filter_all. apply Forall_forall. intros c Hc.
    apply list_elem_of_In, in_map_iff in Hc. destruct Hc as (j' & <- & Hj').
    apply list_elem_of_In in Hj'. now destruct (Hws j' Hj'). }
  split; [exact Hr|].
  unfold well_scored in Hws. fold all in Hws. clearbody all ranked.
  assert ((all = [] ∧ j = VNone) ∨
    (∃ pre post, all = pre ++ j :: post ∧
       (∀ j', j' ∈ pre → (score lib target j <? score lib target j')%float = true) ∧
       (∀ j', j' ∈ post → (score lib target j <=? score lib target j')%float = true)))
    as Hall.
  { destruct Hmain as [[E ->]|(pre & post & E & Hpre & Hpost)].
    - left. split; [|reflexivity]. rewrite Hr in E. now apply map_eq_nil in E.
    - right. rewrite Hr in E.
      change (map ?f ?l) with (f <$> l) in E.
      apply fmap_app_inv in E. destruct E as (pre' & rest & -> & Er & ->).
      symmetry in Er. apply fmap_cons_inv in Er.
      destruct Er as (j0 & post' & [= <-] & -> & ->).
      exists pre', post'. split; [reflexivity|]. split.
      + intros j' Hj'. apply (Hpre (j', score lib target j')).
        now apply (list_elem_of_fmap_2 (λ j', (j', score lib target j'))).
      + intros j' Hj'. apply (Hpost (j', score lib target j')).
        now apply (list_elem_of_fmap_2 (λ j', (j', score lib target j'))). }
  split; [exact Hall|].
  intros -> Hvals [j1 [Hj1 Hw1]].
  destruct Hall as [[E _]|(pre & post & E & Hpre & Hpost)].
  - rewrite E in Hj1. inversion Hj1.
  - assert ((score lib 1400 j <=? score lib 1400 j1)%float = true) as Hle.
    { rewrite E in Hj1. apply elem_of_app in Hj1. destruct Hj1 as [H|H].
      - apply ltb_leb. now apply Hpre.
      - apply elem_of_cons in H. destruct H as [->|H]; [|now apply Hpost].
        apply leb_refl.
        destruct (Hws j) as [_ H]; [rewrite E; apply elem_of_app; right; now left|].
        now apply ltb_is_num in H. }
    assert (j ∈ all) as Hj by (rewrite E; apply elem_of_app; right; now left).
    unfold score in Hle. rewrite Hw1 in Hle.
    destruct (Hvals j Hj) as [H|[H|H]]; rewrite H in Hle; [|assumption|];
      vm_compute in Hle; discriminate.
Qed.

End Scoring.

(** ** Failures in the loop *)

Section Logged.
Variable lib : pylib.
Variable service : nat → request → Res value.
Variable from_lat from_lon to_lat to_lon target : float.
Variable api_key : string.

Lemma trace_logged_app k o1 o2 :
  trace_logged lib service k o1 → trace_logged lib service (k + count_calls o1) o2 →
  trace_logged lib service k (o1 ++ o2).
Proof.
  revert k. induction o1 as [|[t a|rq r] o1 IH]; intros k; cbn.
  - now rewrite Nat.add_0_r.
  - apply IH.
  - intros (-> & Hf & H1) H2. split; [reflexivity|]. split.
    + destruct (service k rq) as [payload|e].
      * intros e He. destruct (Hf e He) as (mid & rest & Hm & ->).
        exists mid, (rest ++ o2). split; [assumption|].
        now rewrite <- app_assoc.
      * destruct Hf as [rest ->]. exists (rest ++ o2). now rewrite app_assoc.
    + apply IH; [assumption|].
      now replace (S k + count_calls o1)%nat with (k + S (count_calls o1))%nat by lia.
Qed.

Lemma trace_logged_prints k o : Forall is_print o → trace_logged lib service k o.
Proof. induction 1 as [|[] ? []]; cbn; auto. Qed.

Lemma trace_logged_nth k o k0 :
  trace_logged lib service k o → (k0 < count_calls o)%nat →
  ∃ pre rq post,
    o = pre ++ Call rq (service (k + k0) rq) :: post ∧ count_calls pre = k0 ∧
    match service (k + k0) rq with
    | Raise e => ∃ rest, post = failure_lines e ++ rest
    | Ok payload =>
        ∀ e, payload_error lib payload = Some e →
             ∃ mid rest, Forall is_print mid ∧ post = mid ++ error_line e :: rest
    end.
Proof.
  revert k k0. induction o as [|[tpl a|rq r] o IH]; intros k k0; cbn.
  - lia.
  - intros H Hk. destruct (IH k k0 H Hk) as (pre & rq & post & -> & Hc & Hf).
    exists (Print tpl a :: pre), rq, post. auto.
  - intros (-> & Hf & H) Hk. destruct k0 as [|k0].
    + exists [], rq, o. rewrite Nat.add_0_r. auto.
    + destruct (IH (S k) k0 H ltac:(lia)) as (pre & rq' & post & -> & Hc & Hf').
      exists (Call rq (service k rq) :: pre), rq', post.
      replace (k + S k0)%nat with (S k + k0)%nat by lia. cbn. auto.
Qed.

(** The scoring of a list of itineraries raises what the first itinerary
    that cannot be scored raises. *)
Lemma score_journeys_outcome js st :
  (score_journeys lib target js st).1
  = match scoring_error lib js with
    | Some e => Raise e
    | None => Ok tt
    end.
Proof.
  revert st. induction js as [|j js IH]; intros st; cbn [score_journeys scoring_error].
  - reflexivity.
  - rewrite bind_M_run, score_journey_run.
    destruct (journey_walking_distance lib j) as [[total|e] o]; cbn [fst]; [|reflexivity].
    cbv zeta. destruct (_ <? _)%float; apply IH.
Qed.

Local Abbreviation evaluate :=
  (evaluate_pair lib service from_lat from_lon to_lat to_lon target api_key).

Ltac pair_stops :=
  cbn; rewrite ?emit_emit; eexists _, _; split; [reflexivity|]; split;
  [reflexivity|apply trace_logged_prints; repeat constructor].

Lemma evaluate_pair_logged f t st :
  ∃ st' o, evaluate f t st = (Ok tt, st') ∧ out st' = out st ++ o ∧
           trace_logged lib service (calls st) o.
Proof.
  unfold evaluate_pair, try_except, try_pair.
  set (cf1 := station_coord lib f "lat"). set (cf2 := station_coord lib f "lon").
  set (ct1 := station_coord lib t "lat"). set (ct2 := station_coord lib t "lon").
  rewrite bind_M_run, liftW_liftR_run.
  destruct cf1 as [flat|e]; [|pair_stops].
  destruct cf2 as [flon|e]; [|pair_stops].
  cbn [mbind Res_bind].
  destruct (haversine_distance lib from_lat from_lon flat flon) as [d1|e]; [|pair_stops].
  rewrite bind_M_run, liftW_liftR_run.
  destruct ct1 as [tlat|e]; [|pair_stops].
  destruct ct2 as [tlon|e]; [|pair_stops].
  cbn [mbind Res_bind].
  destruct (haversine_distance lib tlat tlon to_lat to_lon) as [d2|e]; [|pair_stops].
  rewrite bind_M_run, liftW_run. cbn [print fst snd].
  rewrite bind_M_run, liftW_liftR_run.
  rewrite bind_M_run, get_itinerary_run. cbv zeta.
  cbn [emit calls heap out best_journey best_score].
  set (line := Print _ [VFloat (d1 / 1000)%float; _]).
  set (rq := Request api_key flat flon tlat tlon).
  destruct (service (calls st) rq) as [result|e] eqn:Hr.
  - rewrite bind_M_run, liftW_liftR_run.
    set (s1 := State _ _ _ _ _).
    assert (out s1 = out st ++ [line; Call rq (Ok result)]) as O1.
    { unfold s1. cbn. now rewrite <- app_assoc. }
    clearbody s1.
    assert (∀ o2, Forall is_print o2 →
              (∀ e, payload_error lib result = Some e →
                 ∃ mid rest, Forall is_print mid ∧ o2 = mid ++ error_line e :: rest) →
              trace_logged lib service (calls st) ([line; Call rq (Ok result)] ++ o2)) as Ht.
    { intros o2 Ho2 He. cbn. split; [now rewrite Hr|]. split; [exact He|].
      now apply trace_logged_prints. }
    unfold payload_error, response_journeys in Ht.
    destruct (method_get result "journeys" VNone) as [js|e]; cbn [mbind Res_bind] in Ht.
    2:{ cbn. eexists _, ([line; Call rq (Ok result)] ++ [error_line e]).
        split; [reflexivity|].
        split; [cbn; rewrite O1, <- app_assoc; reflexivity|].
        apply Ht; [repeat constructor|]. intros e' [= <-]. exists [], []. split; [constructor|reflexivity]. }
    destruct (negb (truthy js)).
    { cbn. eexists _, ([line; Call rq (Ok result)] ++ []). split; [reflexivity|].
      split; [now rewrite app_nil_r|]. apply Ht; [constructor|]. discriminate. }
    rewrite bind_M_run, liftW_liftR_run.
    destruct (_ ≫= _) as [journeys|e]; cbn [mbind Res_bind] in Ht.
    2:{ cbn. eexists _, ([line; Call rq (Ok result)] ++ [error_line e]).
        split; [reflexivity|].
        split; [cbn; rewrite O1, <- app_assoc; reflexivity|].
        apply Ht; [repeat constructor|]. intros e' [= <-]. exists [], []. split; [constructor|reflexivity]. }
    destruct (score_journeys_spec lib target journeys s1) as (o2 & Hp2 & (_ & H2 & _)).
    pose proof (score_journeys_outcome journeys s1) as Hout.
    destruct (score_journeys lib target journeys s1) as [[[]|e] s2]; cbn [fst snd] in H2, Hout.
    + exists s2, ([line; Call rq (Ok result)] ++ o2). split; [reflexivity|].
      split; [rewrite H2, O1, <- app_assoc; reflexivity|].
      apply Ht; [assumption|]. intros e He. rewrite He in Hout. discriminate Hout.
    + cbn. exists (emit [error_line e] s2), ([line; Call rq (Ok result)] ++ o2 ++ [error_line e]).
      split; [reflexivity|].
      split; [cbn; rewrite H2, O1, <- !app_assoc; reflexivity|].
      apply Ht; [apply Forall_app; split; [assumption|repeat constructor]|].
      intros e' He. rewrite He in Hout. injection Hout as <-.
      exists o2, []. split; [assumption|reflexivity].
  - cbn. eexists _, (line :: Call rq (Raise e) :: failure_lines e). split; [reflexivity|].
    split.
    + unfold failure_lines. destruct (is_RequestException e); cbn;
        rewrite <- !app_assoc; reflexivity.
    + cbn. split; [now rewrite Hr|]. split.
      * exists []. now rewrite app_nil_r.
      * apply trace_logged_prints, failure_lines_prints.
Qed.

(** The calls of a loop are the calls of its output. *)
Lemma evaluate_pair_calls f t st st' o :
  evaluate f t st = (Ok tt, st') → out st' = out st ++ o →
  calls st' = (calls st + count_calls o)%nat.
Proof.
  intros E O.
  destruct (evaluate_pair_spec lib service from_lat from_lon to_lat to_lon target api_key
              f t st) as (s1 & o1 & E1 & (_ & A2 & A3 & _) & _).
  rewrite E in E1. injection E1 as <-.
  rewrite O in A2. apply app_inv_head in A2. now subst o1.
Qed.

Lemma for_to_stations_logged f ts st :
  ∃ st' o,
    for_to_stations lib service from_lat from_lon to_lat to_lon target api_key f ts st
      = (Ok tt, st') ∧
    out st' = out st ++ o ∧ calls st' = (calls st + count_calls o)%nat ∧
    trace_logged lib service (calls st) o.
Proof.
  revert st. induction ts as [|t ts IH]; intros st; cbn [for_to_stations].
  - exists st, []. cbn. rewrite app_nil_r. auto with lia.
  - rewrite bind_M_run.
    destruct (evaluate_pair_logged f t st) as (s1 & o1 & E1 & O1 & T1). rewrite E1.
    pose proof (evaluate_pair_calls _ _ _ _ _ E1 O1) as C1.
    destruct (IH s1) as (s2 & o2 & E2 & O2 & C2 & T2).
    exists s2, (o1 ++ o2). split; [exact E2|].
    split; [now rewrite O2, O1, app_assoc|].
    split; [rewrite count_calls_app; lia|].
    apply trace_logged_app; [assumption|]. now rewrite <- C1.
Qed.

Lemma for_from_stations_logged fs ts st :
  ∃ st' o,
    for_from_stations lib service from_lat from_lon to_lat to_lon target api_key fs ts st
      = (Ok tt, st') ∧
    out st' = out st ++ o ∧ calls st' = (calls st + count_calls o)%nat ∧
    trace_logged lib service (calls st) o.
Proof.
  revert st. induction fs as [|f fs IH]; intros st; cbn [for_from_stations].
  - exists st, []. cbn. rewrite app_nil_r. auto with lia.
  - rewrite bind_M_run.
    destruct (for_to_stations_logged f ts st) as (s1 & o1 & E1 & O1 & C1 & T1). rewrite E1.
    destruct (IH s1) as (s2 & o2 & E2 & O2 & C2 & T2).
    exists s2, (o1 ++ o2). split; [exact E2|].
    split; [now rewrite O2, O1, app_assoc|].
    split; [rewrite count_calls_app; lia|].
    apply trace_logged_app; [assumption|]. now rewrite <- C1.
Qed.

End Logged.

Section OneFailure.
Variable lib : pylib.
Variable service : nat → request → Res value.

(** C5, as the program has it.  A failure at one of the N pairs of
    stations does not stop the search: the error is printed, all N
    requests are sent and the search returns.  When the request itself
    fails, the itinerary returned is the one the search keeps from the
    payloads of the other N - 1 requests.  When the payload is received
    and its processing raises, the line of the handler follows the
    request, and the itineraries of that payload scored before the failure
    compete with those of the other payloads. *)
Theorem one_failure_is_skipped
    (from_lat from_lon to_lat to_lon : float) (from_stations to_stations : loc)
    (target_steps : Z) (step_length : float) (api_key : string)
    (st s1 : state) (target : float) (selected_from selected_to : list value)
    (k : nat) (e : exn) :
  search_prelude lib from_lat from_lon to_lat to_lon from_stations to_stations
    target_steps step_length st = (Ok (target, selected_from, selected_to), s1) →
  (∀ f t, f ∈ selected_from → t ∈ selected_to →
     is_Ok (pair_request lib from_lat from_lon to_lat to_lon api_key f t) = true) →
  (k < length selected_from * length selected_to)%nat →
  ((∀ rq, service (calls st + k) rq = Raise e) →
   ∃ j st' pre rq post,
     find_best_route lib service from_lat from_lon to_lat to_lon from_stations to_stations
       target_steps step_length api_key st = (Ok j, st') ∧
     events_since st st' = pre ++ Call rq (Raise e) :: failure_lines e ++ post ∧
     count_calls pre = k ∧
     count_calls post = (length selected_from * length selected_to - 1 - k)%nat ∧
     j = (pick_best (VNone, infinity) (candidates lib target (pre ++ post))).1) ∧
  (∀ payload,
     (∀ rq, service (calls st + k) rq = Ok payload) →
     payload_error lib payload = Some e →
     ∃ j st' pre rq mid post,
       find_best_route lib service from_lat from_lon to_lat to_lon from_stations
         to_stations target_steps step_length api_key st = (Ok j, st') ∧
       events_since st st' = pre ++ Call rq (Ok payload) :: mid ++ error_line e :: post ∧
       Forall is_print mid ∧
       count_calls pre = k ∧
       count_calls post = (length selected_from * length selected_to - 1 - k)%nat ∧
       j = (pick_best (VNone, infinity)
              (candidates lib target pre ++ response_candidates lib target payload
               ++ candidates lib target post)).1).
Proof.
  intros Ep Hready Hk.
  pose proof (find_best_route_loop lib service from_lat from_lon to_lat to_lon
                from_stations to_stations target_steps step_length api_key
                st target selected_from selected_to s1 Ep) as Hloop.
  rewrite bind_M_run in Hloop.
  destruct (for_from_stations_logged lib service from_lat from_lon to_lat to_lon target
              api_key selected_from selected_to s1) as (st' & o & El & Ol & _ & Tl).
  rewrite El in Hloop. cbn [get_best_journey] in Hloop.
  destruct (prelude_spec lib from_lat from_lon to_lat to_lon from_stations to_stations
              target_steps step_length st) as (o1 & Hp1 & O1 & C1 & _).
  rewrite Ep in O1, C1. cbn [snd] in O1, C1. rewrite C1 in Tl.
  assert (events_since st st' = o1 ++ o) as Ev.
  { apply events_since_app. now rewrite Ol, O1, app_assoc. }
  pose proof Hloop as Hret. apply find_best_route_returns in Hret.
  destruct Hret as (target' & sf & sts & s1' & o1' & o' & Ep' & Hp' & Ho' & _ & _ & _ & Hb & Hn).
  rewrite Ep in Ep'. injection Ep' as <- <- <- <-.
  specialize (Hn Hready).
  rewrite <- (candidates_skip_prints lib target o1' o' Hp'), <- Ho', Ev in Hb.
  rewrite (candidates_skip_prints lib target o1 o Hp1) in Hb.
  assert (count_calls o = (length selected_from * length selected_to)%nat) as Hc.
  { rewrite <- Hn. apply (f_equal count_calls) in Ho'. rewrite Ev in Ho'.
    rewrite !count_calls_app in Ho'.
    destruct (prints_no_calls o1 Hp1) as [Q1 _]. destruct (prints_no_calls o1' Hp') as [Q2 _].
    rewrite Q1, Q2 in Ho'. exact Ho'. }
  destruct (trace_logged_nth lib service (calls st) o k Tl ltac:(lia))
    as (pre & rq & post & -> & Hpre & Hf).
  destruct (prints_no_calls o1 Hp1) as [Hc1 Hr1].
  split.
  - intros Hfail. rewrite (Hfail rq) in *. destruct Hf as [rest ->].
    destruct (prints_no_calls _ (failure_lines_prints e)) as [Hc2 Hr2].
    exists (best_journey st'), st', (o1 ++ pre), rq, rest.
    split; [exact Hloop|]. split; [now rewrite Ev, <- app_assoc|].
    rewrite !count_calls_app in *. cbn in Hc. rewrite !count_calls_app, Hc2 in Hc.
    split; [lia|]. split; [lia|].
    replace (candidates lib target ((o1 ++ pre) ++ rest))
      with (candidates lib target (pre ++ Call rq (Raise e) :: failure_lines e ++ rest)).
    + now rewrite <- Hb.
    + unfold candidates. rewrite !responses_app. cbn. rewrite responses_app, Hr1, Hr2.
      reflexivity.
  - intros payload Hpay Herr. rewrite (Hpay rq) in *.
    destruct (Hf e Herr) as (mid & rest & Hmid & ->).
    destruct (prints_no_calls mid Hmid) as [Hc2 Hr2].
    exists (best_journey st'), st', (o1 ++ pre), rq, mid, rest.
    split; [exact Hloop|]. split; [now rewrite Ev, <- app_assoc|].
    split; [assumption|].
    rewrite !count_calls_app in *. cbn in Hc. rewrite !count_calls_app, Hc2 in Hc. cbn in Hc.
    split; [lia|]. split; [lia|].
    replace (candidates lib target (o1 ++ pre) ++ response_candidates lib target payload
             ++ candidates lib target rest)
      with (candidates lib target (pre ++ Call rq (Ok payload) :: mid ++ error_line e :: rest)).
    + now rewrite <- Hb.
    + unfold candidates. rewrite !responses_app. cbn. rewrite responses_app, Hr1, Hr2.
      cbn. rewrite flat_map_app. cbn. reflexivity.
Qed.

End OneFailure.

(** ** The theorems at work on the sample search *)

Ltac elems H :=
  repeat (apply elem_of_cons in H; destruct H as [->|H]); try (now apply elem_of_nil in H).

(** C1 as stated fails: the payloads hold an itinerary of 1500 m, 100 m
    from the target, after one that cannot be scored, and the search
    returns the itinerary of 2600 m. *)
Lemma find_best_route_misses_the_minimum :
  (search_from demo_state (constant_service cut_payload)).1 = Ok journey_2600 ∧
  journey_1500 ∈ all_itineraries
    (events_since demo_state (search_from demo_state (constant_service cut_payload)).2) ∧
  (score flat_lib 1400 journey_1500 <? score flat_lib 1400 journey_2600)%float = true.
Proof.
  split; [vm_compute; reflexivity|]. split; [|vm_compute; reflexivity].
  vm_compute. apply elem_of_cons. right. apply elem_of_cons. right.
  apply elem_of_cons. now left.
Qed.

Lemma find_best_route_minimal_witness :
  ∃ j st', demo_search (constant_service demo_payload) = (Ok j, st') ∧
           walking_total flat_lib j = 1500%float.
Proof.
  exists journey_1500, (demo_search (constant_service demo_payload)).2.
  assert (demo_search (constant_service demo_payload)
          = (Ok journey_1500, (demo_search (constant_service demo_payload)).2)) as Hrun
    by (vm_compute; reflexivity).
  split; [exact Hrun|].
  assert (calculate_distance_from_steps 2000 0.7 = Ok 1400%float) as Ht
    by (vm_compute; reflexivity).
  assert (well_scored flat_lib 1400
            (events_since demo_state (demo_search (constant_service demo_payload)).2)) as Hws.
  { intros j Hj. vm_compute in Hj. elems Hj; split; vm_compute; reflexivity. }
  unfold demo_search in Hrun, Hws |- *.
  destruct ((find_best_route_minimal flat_lib (constant_service demo_payload)
                     _ _ _ _ _ _ _ _ _ _ _ _ _ Hrun Ht)) as (_ & _ & H).
  destruct (H Hws) as (_ & _ & H1400).
  apply H1400; [reflexivity| |].
  - intros j Hj. vm_compute in Hj.
    elems Hj; vm_compute; auto.
  - exists journey_1500. split; [|vm_compute; reflexivity].
    vm_compute. apply elem_of_cons. right. apply elem_of_cons. now left.
Defined.

(** C5 as stated fails: the first of the two payloads cannot be processed
    to its end and the error is printed, yet the itinerary returned is one
    of that payload, scored before the failure, and not the 2600 m
    itinerary of the other request. *)
Lemma failed_pair_is_returned :
  payload_error flat_lib half_read_payload = Some (KeyError "sections") ∧
  (search_from demo_state half_read_service).1 = Ok journey_1500 ∧
  error_line (KeyError "sections")
    ∈ events_since demo_state (search_from demo_state half_read_service).2 ∧
  (pick_best (VNone, infinity)
     (response_candidates flat_lib 1400 (response_of [journey_2600]))).1 = journey_2600.
Proof.
  split; [vm_compute; reflexivity|]. split; [vm_compute; reflexivity|].
  split; [|vm_compute; reflexivity].
  apply list_elem_of_In. vm_compute. tauto.
Qed.

Lemma one_failure_is_skipped_witness :
  (∃ j st', demo_search (flaky_service (Nat.eqb 0) demo_payload) = (Ok j, st') ∧
            calls st' = 2%nat ∧ j = journey_1500) ∧
  (∃ j st', search_from demo_state half_read_service = (Ok j, st') ∧
            error_line (KeyError "sections") ∈ events_since demo_state st' ∧
            j = journey_1500).
Proof.
  split.
  - destruct (proj1 (one_failure_is_skipped flat_lib (flaky_service (Nat.eqb 0) demo_payload)
                origin_lat origin_lon destination_lat destination_lon 0%nat 1%nat 2000 0.7 "key"
                demo_state
                (search_prelude flat_lib origin_lat origin_lon destination_lat destination_lon
                   0%nat 1%nat 2000 0.7 demo_state).2
                1400 [near_station; far_station] [last_station] 0%nat
                (RequestException "503 Server Error")
                ltac:(vm_compute; reflexivity)
                ltac:(intros f t Hf Ht; elems Hf; elems Ht; vm_compute; reflexivity)
                ltac:(cbn; lia)))
      as (j & st' & pre & rq & post & Hrun & Hev & Hpre & Hpost & Hj).
    + intros rq. reflexivity.
    + exists j, st'. split; [exact Hrun|].
      assert ((demo_search (flaky_service (Nat.eqb 0) demo_payload)).1 = Ok journey_1500 ∧
              calls (demo_search (flaky_service (Nat.eqb 0) demo_payload)).2 = 2%nat) as [Q1 Q2]
        by (split; vm_compute; reflexivity).
      unfold demo_search in Q1, Q2. rewrite Hrun in Q1, Q2. cbn [fst snd] in Q1, Q2.
      injection Q1 as ->. auto.
  - destruct (proj2 (one_failure_is_skipped flat_lib half_read_service
                origin_lat origin_lon destination_lat destination_lon 0%nat 1%nat 2000 0.7 "key"
                demo_state
                (search_prelude flat_lib origin_lat origin_lon destination_lat destination_lon
                   0%nat 1%nat 2000 0.7 demo_state).2
                1400 [near_station; far_station] [last_station] 0%nat
                (KeyError "sections")
                ltac:(vm_compute; reflexivity)
                ltac:(intros f t Hf Ht; elems Hf; elems Ht; vm_compute; reflexivity)
                ltac:(cbn; lia))
              half_read_payload)
      as (j & st' & pre & rq & mid & post & Hrun & Hev & Hmid & Hpre & Hpost & Hj).
    + intros rq. reflexivity.
    + vm_compute. reflexivity.
    + exists j, st'. split; [exact Hrun|]. split.
      * rewrite Hev. apply elem_of_app. right. apply elem_of_cons. right.
        apply elem_of_app. right. now left.
      * assert ((search_from demo_state half_read_service).1 = Ok journey_1500) as Q
          by (vm_compute; reflexivity).
        unfold search_from in Q. rewrite Hrun in Q. now injection Q.
Defined.

Lemma find_best_route_sorts_in_place_witness :
  ∃ kf sf,
    map_res (station_key flat_lib origin_lat origin_lon) [far_station; near_station] = Ok kf ∧
    heap (demo_search (constant_service demo_payload)).2 !! 0%nat = Some sf.*2 ∧
    sf ≡ₚ zip kf [far_station; near_station] ∧ ascending sf.
Proof.
  destruct (find_best_route_sorts_in_place flat_lib (constant_service demo_payload)
              origin_lat origin_lon destination_lat destination_lon 0%nat 1%nat 2000 0.7 "key"
              demo_state (demo_search (constant_service demo_payload)).2 journey_1500)
    as [_ H].
  - vm_compute. reflexivity.
  - destruct (H ltac:(discriminate) [far_station; near_station] [last_station])
      as (kf & kt & sf & sts & Kf & _ & Hf & _ & Pf & _ & Af & _).
    + vm_compute. reflexivity.
    + vm_compute. reflexivity.
    + exists kf, sf. repeat (split; [assumption|]).
      apply Af. vm_compute in Kf. injection Kf as <-.
      repeat constructor.
Defined.


(** C9 as stated fails: the search returns, and the caller's first list,
    which held the farther station first, now holds the nearer one first. *)
Lemma find_best_route_reorders :
  heap demo_state !! 0%nat = Some [far_station; near_station] ∧
  is_Ok (demo_search (constant_service demo_payload)).1 = true ∧
  heap (demo_search (constant_service demo_payload)).2 !! 0%nat
    = Some [near_station; far_station].
Proof. split; [|split]; vm_compute; reflexivity. Qed.

Lemma select_stations_policy_witness :
  (select_stations 3001 eleven_stations eleven_stations).1.1 = drop 1 eleven_stations ∧
  (select_stations 3000 eleven_stations eleven_stations).1.1 = take 10 eleven_stations.
Proof.
  assert (sorted_by demo_key eleven_stations) as Hs.
  { unfold sorted_by, eleven_stations. cbn [map].
    repeat first [apply SSorted_nil | apply SSorted_cons | apply List.Forall_nil | apply List.Forall_cons];
      vm_compute; reflexivity. }
  assert (MAX_STATIONS < length eleven_stations)%nat as Hl by (unfold MAX_STATIONS, eleven_stations; cbn; lia).
  split.
  - destruct (select_stations_policy 3001 demo_key demo_key eleven_stations eleven_stations
                Hs Hs Hl Hl) as (_ & _ & H & _).
    destruct (H ltac:(lia)) as (E & _).
    change (length eleven_stations - MAX_STATIONS)%nat with 1%nat in E.
    rewrite <- (take_drop 1 eleven_stations) in E at 1.
    now apply app_inv_head in E.
  - destruct (select_stations_policy 3000 demo_key demo_key eleven_stations eleven_stations
                Hs Hs Hl Hl) as (_ & _ & _ & H).
    destruct (H ltac:(lia)) as (E & _).
    rewrite <- (take_drop 10 eleven_stations) in E at 1.
    now apply app_inv_tail in E.
Defined.


(** C8 as stated fails on two counts: a section without endpoints gets the
    distance 0 with nothing printed, and a section whose [to] has no
    coordinates raises when its [from] is not an object. *)
Lemma calculate_walking_distance_silent_or_raising :
  (endpoint_absent [] ∧
   calculate_walking_distance flat_lib (VDict []) = (Ok 0%float, [])) ∧
  (lacks_coordinates (VDict [("name", VStr "quai")]%string) ∧
   calculate_walking_distance flat_lib
     (VDict [("from", VStr "quai"); ("to", VDict [("name", VStr "quai")])]%string)
   = (Raise AttributeError, [])).
Proof.
  split; split.
  - left. reflexivity.
  - reflexivity.
  - eexists. repeat split; reflexivity.
  - reflexivity.
Qed.

(** C3 as stated fails: three steps of 0.7 m come back as two. *)
Lemma steps_round_trip_loses_a_step :
  (0 <? 0.7)%float = true ∧
  (d ← calculate_distance_from_steps 3 0.7%float; calculate_steps d 0.7%float) = Ok 2.
Proof. split; vm_compute; reflexivity. Qed.

(** The same three steps, through the theorem. *)
Lemma steps_round_trip_witness :
  ∃ r, calculate_steps (3 * 0.7)%float 0.7%float = Ok r ∧ (r = 3 ∨ r = 3 - 1) ∧ 0 ≤ r.
Proof.
  apply (steps_round_trip 3 0.7%float (3 * 0.7)%float).
  - lia.
  - reflexivity.
  - vm_compute. reflexivity.
  - reflexivity.
Defined.

(** C6 as stated fails: a negative height gets a stride, a negative one. *)
Lemma calculate_step_length_negative_height :
  (-170 <=? 0)%float = true ∧
  calculate_step_length (-170)%float = Ok (-0x1.6858793dd97f6p-1)%float.
Proof. split; reflexivity. Qed.

(** The stride of the height 0. *)
Lemma calculate_step_length_no_validation_witness :
  (0 <=? 0)%float = true ∧
  ∃ s, calculate_step_length 0%float = Ok s ∧
       s = (0 / 100 * 0.414)%float ∧ (s <=? 0)%float = true.
Proof. split; [reflexivity|]. apply calculate_step_length_no_validation. reflexivity. Defined.

(** ** The further properties at work *)

Lemma calculate_steps_truncates_witness :
  let q := float_value (-2.5 / 1) in
  ((0 <= q)%R → (IZR (-2) <= q)%R ∧ (q < IZR (-2) + 1)%R) ∧
  ((q <= 0)%R → (IZR (-2) - 1 < q)%R ∧ (q <= IZR (-2))%R).
Proof.
  apply (calculate_steps_truncates (-2.5)%float 1%float (-2)).
  vm_compute. reflexivity.
Defined.

Lemma calculate_distance_from_steps_accurate_witness :
  (Rabs (float_value (3 * 0.7) - IZR 3 * float_value 0.7)
     <= IZR 3 * float_value 0.7 * powerRZ 2 (-52))%R.
Proof.
  apply (calculate_distance_from_steps_accurate 3 0.7%float (3 * 0.7)%float).
  - lia.
  - reflexivity.
  - vm_compute. reflexivity.
  - reflexivity.
Defined.

Lemma zero_height_no_steps_witness :
  ∃ s, calculate_step_length (-0)%float = Ok s ∧
       (s =? 0)%float = true ∧
       calculate_steps 1500%float s = Raise ZeroDivisionError.
Proof. apply zero_height_no_steps. reflexivity. Defined.

Lemma flat_lib_quiet : quiet_lib flat_lib.
Proof.
  unfold quiet_lib, no_http_error. repeat split; intros; try discriminate.
  match goal with H : _ = Raise _ |- _ => cbn in H; injection H as <- end. reflexivity.
Qed.

Lemma calculate_walking_distance_not_an_object_witness :
  calculate_walking_distance flat_lib
    (VDict [("from", VStr "quai"); ("to", VStr "gare")]%string)
  = (Raise AttributeError, []).
Proof.
  apply (calculate_walking_distance_not_an_object flat_lib _ (VStr "quai") (VStr "gare"));
    try reflexivity.
  discriminate.
Defined.

Lemma calculate_walking_distance_by_embedded_type_witness :
  calculate_walking_distance flat_lib
    (VDict [("from", VDict [("embedded_type", VStr "address");
                            ("stop_point", VDict [("coord", coord 0 0)])]);
            ("to", station "s" 0 0)]%string)
  = (Ok 0%float, key_error_lines "address").
Proof.
  refine (proj1 (calculate_walking_distance_by_embedded_type flat_lib _ _ (station "s" 0 0)
                   _ _ _ _) _ _); try reflexivity.
  discriminate.
Defined.

Lemma format_itinerary_without_transit_witness :
  ∃ s o, format_itinerary_with_steps flat_lib (response_of [journey_500]) 0.7
           = (Ok (Some s), o) ∧
         total_distance (sum_totals s) = 0%float ∧ car_co2 s = 0%float.
Proof.
  destruct (format_itinerary_with_steps flat_lib (response_of [journey_500]) 0.7)
    as [[[s|]|e] o] eqn:E; try (vm_compute in E; discriminate).
  exists s, o. split; [reflexivity|].
  destruct (format_itinerary_without_transit flat_lib (response_of [journey_500]) 0.7 s o
              journey_500 [walk_100; walk_400] E) as (H1 & _ & H2 & _);
    try reflexivity; [|auto].
  repeat constructor; vm_compute; discriminate.
Defined.

Lemma walking_total_agrees_witness :
  ∃ s o, format_itinerary_with_steps flat_lib (response_of [journey_500]) 0.7
           = (Ok (Some s), o) ∧
         total_walking_distance (sum_totals s) = 500%float.
Proof.
  destruct (format_itinerary_with_steps flat_lib (response_of [journey_500]) 0.7)
    as [[[s|]|e] o] eqn:E; try (vm_compute in E; discriminate).
  exists s, o. split; [reflexivity|].
  apply (walking_total_agrees flat_lib (response_of [journey_500]) 0.7 s o journey_500 500 []).
  - intros l. reflexivity.
  - exact E.
  - reflexivity.
  - vm_compute. reflexivity.
Defined.

Lemma format_itinerary_zero_stride_witness :
  (0 =? 0)%float = true ∧
  ∀ s o, format_itinerary_with_steps flat_lib bus_trip 0 ≠ (Ok (Some s), o).
Proof. split; [reflexivity|]. apply format_itinerary_zero_stride. reflexivity. Defined.

Lemma find_best_route_requests_witness :
  ∃ j st', search_from demo_state (constant_service demo_payload) = (Ok j, st') ∧
    requests (events_since demo_state st')
      = [Request "key" 48.845 2.307 48.92 2.24; Request "key" 48.86 2.35 48.92 2.24].
Proof.
  destruct (find_best_route_requests flat_lib (constant_service demo_payload)
              origin_lat origin_lon destination_lat destination_lon 0%nat 1%nat 2000 0.7 "key"
              demo_state
              (search_prelude flat_lib origin_lat origin_lon destination_lat destination_lon
                 0%nat 1%nat 2000 0.7 demo_state).2
              1400 [near_station; far_station] [last_station])
    as (j & st' & Hr & Hq).
  - vm_compute. reflexivity.
  - exists j, st'. split; [exact Hr|]. rewrite Hq. vm_compute. reflexivity.
Defined.

Lemma find_best_route_raises_early_witness :
  (search_from broken_state (constant_service demo_payload)).1 = Raise TypeError ∧
  calls (search_from broken_state (constant_service demo_payload)).2 = 0%nat ∧
  events_since broken_state (search_from broken_state (constant_service demo_payload)).2 = [].
Proof.
  assert (search_from broken_state (constant_service demo_payload)
          = (Raise TypeError, (search_from broken_state (constant_service demo_payload)).2))
    as Hrun by (vm_compute; reflexivity).
  split; [now rewrite Hrun|].
  destruct (find_best_route_raises_early flat_lib (constant_service demo_payload)
              origin_lat origin_lon destination_lat destination_lon 0%nat 1%nat 2000 0.7 "key"
              broken_state _ TypeError Hrun) as (C & Ev & _).
  split; assumption.
Defined.

Lemma find_best_route_no_station_witness :
  ∃ st', search_from lonely_state (constant_service demo_payload) = (Ok VNone, st') ∧
         calls st' = 0%nat ∧ requests (events_since lonely_state st') = [].
Proof.
  apply (find_best_route_no_station flat_lib (constant_service demo_payload)
           origin_lat origin_lon destination_lat destination_lon 0%nat 1%nat 2000 0.7 "key"
           lonely_state).
  - vm_compute. reflexivity.
  - left. vm_compute. reflexivity.
Defined.

Lemma find_best_route_finite_score_witness :
  journey_1500 = VNone ∨ (score flat_lib 1400 journey_1500 <? infinity)%float = true.
Proof.
  apply (find_best_route_finite_score flat_lib (constant_service demo_payload)
           origin_lat origin_lon destination_lat destination_lon 0%nat 1%nat 2000 0.7 "key"
           demo_state (search_from demo_state (constant_service demo_payload)).2).
  - vm_compute. reflexivity.
  - vm_compute. reflexivity.
Defined.

Lemma select_stations_short_witness :
  (select_stations 5000 [far_station; near_station] [last_station]).1
    = ([far_station; near_station], [last_station]).
Proof. apply select_stations_short; unfold MAX_STATIONS; cbn; lia. Defined.

Lemma find_stations_in_radius_failure_witness :
  find_stations_in_radius (down_directory 0) origin_lat origin_lon 700.9 API_KEY
  = (Ok (VList []),
     request_lines origin_lat origin_lon 700 ++
     [DCall (PlacesRequest API_KEY origin_lat origin_lon 700)
            (NoResponse (RequestException "Connection refused"));
      DPrint "Error finding stations: {}" [exn_value (RequestException "Connection refused")];
      DPrint "Response content: {}" [VStr "No response"]]).
Proof.
  refine (proj1 (find_stations_in_radius_failure (down_directory 0) origin_lat origin_lon
                   700.9 API_KEY 700 (RequestException "Connection refused") _ _) _);
    reflexivity.
Defined.

Lemma haversine_distance_domain_error_witness :
  haversine_distance flat_lib 0 0 180 0 = Raise ValueError.
Proof.
  apply (haversine_distance_domain_error flat_lib 0 0 180 0
           ((math_radians 180 - math_radians 0) / 2)
           ((math_radians 180 - math_radians 0) / 2 * ((math_radians 180 - math_radians 0) / 2))
           1 1
           ((math_radians 0 - math_radians 0) / 2)
           ((math_radians 0 - math_radians 0) / 2 * ((math_radians 0 - math_radians 0) / 2)));
    try reflexivity.
  right. reflexivity.
Defined.

Lemma script_handler_unreached_witness :
  (script_try flat_lib odd_directory (constant_service demo_payload) 2000 0.7 700).1
    = Raise TypeError ∧
  is_RequestException TypeError = false.
Proof.
  assert ((script_try flat_lib odd_directory (constant_service demo_payload) 2000 0.7 700).1
          = Raise TypeError) as Hrun by (vm_compute; reflexivity).
  split; [exact Hrun|].
  exact (script_handler_unreached flat_lib odd_directory (constant_service demo_payload)
           2000 0.7 700 TypeError flat_lib_quiet Hrun).
Defined.

Lemma script_exits_without_stations_witness :
  ∃ o r, script flat_lib down_directory (constant_service demo_payload) 170 2000
         = (Exited,
            o ++ [Line "No stations found within {:.2f} km radius!" [VFloat r];
                  Line "Try increasing the number of target steps for a larger search area."
                       []]) ∧
         journeys_calls o = [].
Proof.
  edestruct (script_exits_without_stations flat_lib down_directory
               (constant_service demo_payload) 170 2000 (170 / 100 * 0.414) (1000 * (170 / 100 * 0.414))
               (VList []) (VList []) 0 0) as (o & Hs & Hc).
  - reflexivity.
  - vm_compute. reflexivity.
  - vm_compute. reflexivity.
  - vm_compute. reflexivity.
  - reflexivity.
  - reflexivity.
  - left. reflexivity.
  - exists o. eexists. split; [exact Hs|exact Hc].
Defined.

Lemma find_best_route_service_down_witness :
  (search_from demo_state (flaky_service (λ _, true) demo_payload)).1 = Ok VNone.
Proof.
  destruct (search_from demo_state (flaky_service (λ _, true) demo_payload))
    as [[j|e] st'] eqn:E; [|vm_compute in E; discriminate].
  cbn [fst]. f_equal.
  apply (find_best_route_service_down flat_lib (flaky_service (λ _, true) demo_payload)
           origin_lat origin_lon destination_lat destination_lon 0%nat 1%nat 2000 0.7 "key"
           demo_state st' j); [reflexivity|exact E].
Defined.

Lemma haversine_distance_symmetric_witness :
  ∃ d, haversine_distance flat_lib origin_lat origin_lon 48.86 2.35 = Ok d ∧
       haversine_distance flat_lib 48.86 2.35 origin_lat origin_lon = Ok d.
Proof.
  eexists. split; [vm_compute; reflexivity|].
  apply (haversine_distance_symmetric flat_lib).
  - intros x y [= <-]. reflexivity.
  - intros x. cbn. f_equal. apply mul_opp_opp.
  - vm_compute. reflexivity.
Defined.
